(** * distance_and_force.ino: a shallow embedding and its properties

    The firmware polls an infrared distance sensor over a software
    serial line, samples a force sensor, smooths both readings with a
    scalar Kalman filter followed by a 20-slot moving average, and
    prints one comma-separated record every 100 ms.

    Modelling choices.
    - [float] is IEEE 754 binary32 with round-to-nearest-even, taken from
      the Standard Library's executable specification [SpecFloat] at
      precision 24 and maximal exponent 128.  On the AVR targets of this
      sketch [double] is the same format, so literals such as [0.01] are
      binary32 values.
    - [int] values are mathematical integers where the program keeps them
      far from the 16-bit range; [long] is 32-bit two's complement and
      [unsigned long] is taken modulo 2^32, both written out.
    - [byte] is [Byte.byte].
    - Arrays are lists; a read or a write outside the array has no defined
      behaviour in C++, so [load] and [store] return [None] there and
      every function that touches an array is partial.
    - The globals and the function-local statics of the sketch form one
      record that each function takes and returns.
    - The hardware is an input: every pass through [loop] is given the
      byte waiting on the infrared serial line (if any), the two analog
      readings and the two values of [millis()].  Serial output is
      returned as a list of [Serial.print] calls. *)

From Stdlib Require Import Strings.String Strings.Byte.
From Stdlib Require Import ZArith List Bool Lia.
From Stdlib Require Import Floats.SpecFloat.
Import ListNotations.

Local Open Scope Z_scope.

(** ** binary32 arithmetic *)

Definition float : Type := spec_float.

Module F32.

Definition prec : Z := 24.
Definition emax : Z := 128.

Definition add : float -> float -> float := SFadd prec emax.
Definition sub : float -> float -> float := SFsub prec emax.
Definition mul : float -> float -> float := SFmul prec emax.
Definition div : float -> float -> float := SFdiv prec emax.

(** Conversion of an integer ([int] or [long]) to [float]. *)
Definition of_int (z : Z) : float := binary_normalize prec emax z 0 false.

Definition zero : float := S754_zero false.
Definition one : float := of_int 1.

(** The IEEE comparisons: false whenever an operand is a NaN. *)
Definition leb : float -> float -> bool := SFleb.
Definition ltb : float -> float -> bool := SFltb.

(** A value of the format: the mantissa has at most 24 bits, the
    exponent is canonical and in range. *)
Definition valid (x : float) : bool := valid_binary prec emax x.

(** Two floats that denote the same number: equal, or both a zero. *)
Definition same_number (x y : float) : Prop :=
  x = y \/ (exists s t, x = S754_zero s /\ y = S754_zero t).

End F32.

(** ** Arrays *)

Section Arrays.
Context {A : Type}.

Fixpoint update_nth (n : nat) (v : A) (a : list A) : list A :=
  match a, n with
  | [], _ => []
  | _ :: t, O => v :: t
  | h :: t, S n' => h :: update_nth n' v t
  end.

Definition in_bounds (a : list A) (i : Z) : bool :=
  (0 <=? i) && (i <? Z.of_nat (List.length a)).

Definition load (a : list A) (i : Z) : option A :=
  if in_bounds a i then nth_error a (Z.to_nat i) else None.

Definition store (a : list A) (i : Z) (v : A) : option (list A) :=
  if in_bounds a i then Some (update_nth (Z.to_nat i) v a) else None.
End Arrays.

(** ** The Kalman filter class *)

(** The members [Q], [R], [P], [K] and [x]; the projections carry a [k]
    in front, the single letters being wanted for variables. *)
Record SimpleKalmanFilter : Type := mkKalman {
  kQ : float;
  kR : float;
  kP : float;
  kK : float;
  kx : float
}.

(** [SimpleKalmanFilter(q, r, p) : Q(q), R(r), P(p), K(0), x(0)] *)
Definition newKalman (q r p : float) : SimpleKalmanFilter :=
  mkKalman q r p F32.zero F32.zero.

(** Assignments to the members. *)
Definition set_P (v : float) (f : SimpleKalmanFilter) : SimpleKalmanFilter :=
  mkKalman (kQ f) (kR f) v (kK f) (kx f).

Definition set_K (v : float) (f : SimpleKalmanFilter) : SimpleKalmanFilter :=
  mkKalman (kQ f) (kR f) (kP f) v (kx f).

Definition set_x (v : float) (f : SimpleKalmanFilter) : SimpleKalmanFilter :=
  mkKalman (kQ f) (kR f) (kP f) (kK f) v.

(** [P += Q; K = P / (P + R); x += K * (z - x); P = (1 - K) * P; return x;]
    one assignment after the other; the filter after the call is returned
    with the result. *)
Definition update (f : SimpleKalmanFilter) (z : float)
  : SimpleKalmanFilter * float :=
  let f := set_P (F32.add (kP f) (kQ f)) f in
  let f := set_K (F32.div (kP f) (F32.add (kP f) (kR f))) f in
  let f := set_x (F32.add (kx f) (F32.mul (kK f) (F32.sub z (kx f)))) f in
  let f := set_P (F32.mul (F32.sub (F32.of_int 1) (kK f)) (kP f)) f in
  (f, kx f).

(** ** Constants and literals *)

Definition HISTORY_SIZE : Z := 20.
Definition SEND_INTERVAL : Z := 100.

(** The literals [0.01], [0.1] and [0.5]: the binary32 values nearest to
    the decimal fractions. *)
Definition lit_0_01 : float := F32.div (F32.of_int 1) (F32.of_int 100).
Definition lit_0_1 : float := F32.div (F32.of_int 1) (F32.of_int 10).
Definition lit_0_5 : float := F32.div (F32.of_int 1) (F32.of_int 2).

(** [mapFloat]: [(x - in_min) * (out_max - out_min) / (in_max - in_min) + out_min] *)
Definition mapFloat (x in_min in_max out_min out_max : float) : float :=
  F32.add
    (F32.div (F32.mul (F32.sub x in_min) (F32.sub out_max out_min))
             (F32.sub in_max in_min))
    out_min.

(** ** Program state *)

(** The anonymous enum of [processDistanceSensor]. *)
Inductive decoder_state : Type :=
  | WAITING_FOR_AC
  | WAITING_FOR_CA
  | READING_PAYLOAD.

(** The globals of the sketch, followed by the three statics of
    [processDistanceSensor]. *)
Record globals : Type := mkGlobals {
  distanceKalman : SimpleKalmanFilter;
  forceKalman : SimpleKalmanFilter;
  distanceHistory : list float;
  forceHistory : list float;
  distanceHistoryIndex : Z;
  forceHistoryIndex : Z;
  bufferIsFull : bool;
  stable_distance_mm : float;
  stable_force_N : float;
  lastSendTime : Z;
  state : decoder_state;
  payloadBuffer : list byte;
  bufferIndex : Z
}.

(** The state when [setup] starts: the initialisers of the sketch, with
    zero-initialised arrays. *)
Definition initial : globals :=
  {| distanceKalman := newKalman lit_0_01 lit_0_1 lit_0_5;
     forceKalman := newKalman lit_0_01 lit_0_1 lit_0_5;
     distanceHistory := repeat F32.zero (Z.to_nat HISTORY_SIZE);
     forceHistory := repeat F32.zero (Z.to_nat HISTORY_SIZE);
     distanceHistoryIndex := 0;
     forceHistoryIndex := 0;
     bufferIsFull := false;
     stable_distance_mm := F32.of_int (-1);
     stable_force_N := F32.zero;
     lastSendTime := 0;
     state := WAITING_FOR_AC;
     payloadBuffer := repeat x00 8;
     bufferIndex := 0 |}.

(** ** Serial output *)

Inductive serial_call : Type :=
  | print_float (v : float) (digits : nat)
  | print_str (s : String.string)
  | println_float (v : float) (digits : nat)
  | println_str (s : String.string).

(** [setup] leaves the globals alone and prints the readiness line. *)
Definition setup (g : globals) : globals * list serial_call :=
  (g, [println_str "Arduino is Ready"%string]).

(** ** The two smoothing channels *)

(** [for(int i=0; i<HISTORY_SIZE; ++i) sum += history[i];] with [n] passes
    left, the next index being [i]. *)
Fixpoint sum_loop (history : list float) (i : Z) (n : nat) (sum : float)
  : option float :=
  match n with
  | O => Some sum
  | S n' =>
      match load history i with
      | None => None
      | Some v => sum_loop history (i + 1) n' (F32.add sum v)
      end
  end.

Definition sum_history (history : list float) : option float :=
  sum_loop history 0 (Z.to_nat HISTORY_SIZE) F32.zero.

Definition processForceSensor (adc : Z) (g : globals) : option globals :=
  let rawForce :=
    mapFloat (F32.of_int adc) F32.zero (F32.of_int 1023)
             F32.zero (F32.of_int 200) in
  let '(kf, kalmanForce) := update (forceKalman g) rawForce in
  match store (forceHistory g) (forceHistoryIndex g) kalmanForce with
  | None => None
  | Some history =>
      match sum_history history with
      | None => None
      | Some sum_force =>
          Some {| distanceKalman := distanceKalman g;
                  forceKalman := kf;
                  distanceHistory := distanceHistory g;
                  forceHistory := history;
                  distanceHistoryIndex := distanceHistoryIndex g;
                  forceHistoryIndex :=
                    (forceHistoryIndex g + 1) mod HISTORY_SIZE;
                  bufferIsFull := bufferIsFull g;
                  stable_distance_mm := stable_distance_mm g;
                  stable_force_N :=
                    F32.div sum_force (F32.of_int HISTORY_SIZE);
                  lastSendTime := lastSendTime g;
                  state := state g;
                  payloadBuffer := payloadBuffer g;
                  bufferIndex := bufferIndex g |}
      end
  end.

(** ** The frame decoder *)

Definition byte_val (b : byte) : Z := Z.of_N (Byte.to_N b).

(** A [long] is 32 bits wide: the value of a bit pattern. *)
Definition to_long (z : Z) : Z := (z + 2 ^ 31) mod 2 ^ 32 - 2 ^ 31.

(** [((long)p[1] << 24)|((long)p[2] << 16)|((long)p[3] << 8)|(long)p[4]] *)
Definition raw_dist_of (p1 p2 p3 p4 : byte) : Z :=
  to_long
    (Z.lor (Z.lor (Z.lor (Z.shiftl (byte_val p1) 24)
                         (Z.shiftl (byte_val p2) 16))
                  (Z.shiftl (byte_val p3) 8))
           (byte_val p4)).

(** The test of the completed payload,
    [payloadBuffer[5] != 0x00 && payloadBuffer[6] == 0xDC && payloadBuffer[7] == 0xCD],
    and the measurement [(float)raw_dist / 100.0f] it yields: [Some None] is
    a rejected frame, [None] a read outside the buffer. *)
Definition frame_measurement (p : list byte) : option (option float) :=
  match load p 5, load p 6, load p 7 with
  | Some p5, Some p6, Some p7 =>
      if negb (Byte.eqb p5 x00) && Byte.eqb p6 xdc && Byte.eqb p7 xcd then
        match load p 1, load p 2, load p 3, load p 4 with
        | Some p1, Some p2, Some p3, Some p4 =>
            Some (Some (F32.div (F32.of_int (raw_dist_of p1 p2 p3 p4))
                                (F32.of_int 100)))
        | _, _, _, _ => None
        end
      else Some None
  | _, _, _ => None
  end.

(** The body of the accepted-frame branch: filter the measurement, write
    it into the history, average, advance the index. *)
Definition deliver_distance (z : float) (g : globals) : option globals :=
  let '(kf, kalmanDist) := update (distanceKalman g) z in
  match store (distanceHistory g) (distanceHistoryIndex g) kalmanDist with
  | None => None
  | Some history =>
      match sum_history history with
      | None => None
      | Some sum_dist =>
          Some {| distanceKalman := kf;
                  forceKalman := forceKalman g;
                  distanceHistory := history;
                  forceHistory := forceHistory g;
                  distanceHistoryIndex :=
                    (distanceHistoryIndex g + 1) mod HISTORY_SIZE;
                  forceHistoryIndex := forceHistoryIndex g;
                  bufferIsFull := bufferIsFull g;
                  stable_distance_mm :=
                    F32.div sum_dist (F32.of_int HISTORY_SIZE);
                  stable_force_N := stable_force_N g;
                  lastSendTime := lastSendTime g;
                  state := state g;
                  payloadBuffer := payloadBuffer g;
                  bufferIndex := bufferIndex g |}
      end
  end.

Definition set_decoder (s : decoder_state) (p : list byte) (i : Z)
  (g : globals) : globals :=
  {| distanceKalman := distanceKalman g;
     forceKalman := forceKalman g;
     distanceHistory := distanceHistory g;
     forceHistory := forceHistory g;
     distanceHistoryIndex := distanceHistoryIndex g;
     forceHistoryIndex := forceHistoryIndex g;
     bufferIsFull := bufferIsFull g;
     stable_distance_mm := stable_distance_mm g;
     stable_force_N := stable_force_N g;
     lastSendTime := lastSendTime g;
     state := s;
     payloadBuffer := p;
     bufferIndex := i |}.

(** The [switch] of [processDistanceSensor] on the byte [b] just read.
    In the payload state the byte is stored at [bufferIndex], which is then
    incremented; the accepted-frame branch changes none of the three
    statics, so they are written once, after it. *)
Definition decode_byte (b : byte) (g : globals) : option globals :=
  match state g with
  | WAITING_FOR_AC =>
      if Byte.eqb b xac
      then Some (set_decoder WAITING_FOR_CA (payloadBuffer g) (bufferIndex g) g)
      else Some g
  | WAITING_FOR_CA =>
      Some (set_decoder
              (if Byte.eqb b xca then READING_PAYLOAD else WAITING_FOR_AC)
              (payloadBuffer g) 0 g)
  | READING_PAYLOAD =>
      match store (payloadBuffer g) (bufferIndex g) b with
      | None => None
      | Some p =>
          let i := bufferIndex g + 1 in
          if 8 <=? i then
            match frame_measurement p with
            | None => None
            | Some None => Some (set_decoder WAITING_FOR_AC p i g)
            | Some (Some z) =>
                match deliver_distance z g with
                | None => None
                | Some g' => Some (set_decoder WAITING_FOR_AC p i g')
                end
            end
          else Some (set_decoder READING_PAYLOAD p i g)
      end
  end.

(** [processDistanceSensor]: [ir] is the byte that [irSensorSerial.read()]
    returns when [irSensorSerial.available() > 0], and [None] otherwise. *)
Definition processDistanceSensor (ir : option byte) (g : globals)
  : option globals :=
  match ir with
  | None => Some g
  | Some b => decode_byte b g
  end.

(** ** Output *)

(** [processPressureSensor]: [adc] is what
    [analogRead(PRESSURE_SENSOR_PIN)] returns. *)
Definition processPressureSensor (adc : Z) : float :=
  let sensorValue := adc in
  let pressure :=
    mapFloat (F32.of_int sensorValue) F32.zero (F32.of_int 1023)
             F32.zero (F32.of_int 1) in
  pressure.

Definition set_bufferIsFull (b : bool) (g : globals) : globals :=
  {| distanceKalman := distanceKalman g;
     forceKalman := forceKalman g;
     distanceHistory := distanceHistory g;
     forceHistory := forceHistory g;
     distanceHistoryIndex := distanceHistoryIndex g;
     forceHistoryIndex := forceHistoryIndex g;
     bufferIsFull := b;
     stable_distance_mm := stable_distance_mm g;
     stable_force_N := stable_force_N g;
     lastSendTime := lastSendTime g;
     state := state g;
     payloadBuffer := payloadBuffer g;
     bufferIndex := bufferIndex g |}.

Definition set_lastSendTime (t : Z) (g : globals) : globals :=
  {| distanceKalman := distanceKalman g;
     forceKalman := forceKalman g;
     distanceHistory := distanceHistory g;
     forceHistory := forceHistory g;
     distanceHistoryIndex := distanceHistoryIndex g;
     forceHistoryIndex := forceHistoryIndex g;
     bufferIsFull := bufferIsFull g;
     stable_distance_mm := stable_distance_mm g;
     stable_force_N := stable_force_N g;
     lastSendTime := t;
     state := state g;
     payloadBuffer := payloadBuffer g;
     bufferIndex := bufferIndex g |}.

(** The record that a streaming tick prints. *)
Definition record_calls (force distance pressure : float) : list serial_call :=
  [ print_float force 2; print_str ","; print_float distance 2;
    print_str ","; println_float pressure 3 ].

(** [sendAllData]: [pressure_adc] is the analog reading of the pressure pin,
    sampled only on the path that prints. *)
Definition sendAllData (pressure_adc : Z) (g : globals)
  : globals * list serial_call :=
  if negb (bufferIsFull g) then
    if (HISTORY_SIZE - 1 <=? distanceHistoryIndex g)
       || (HISTORY_SIZE - 1 <=? forceHistoryIndex g)
    then (set_bufferIsFull true g, [])
    else (g, [])
  else
    let current_pressure := processPressureSensor pressure_adc in
    (g, record_calls (stable_force_N g) (stable_distance_mm g) current_pressure).

(** ** The main loop *)

(** What the hardware presents during one pass through [loop]. *)
Record loop_input : Type := mkInput {
  ir : option byte;        (* byte waiting on the infrared line, if any *)
  force_adc : Z;           (* analogRead(FORCE_SENSOR_PIN) *)
  millis_test : Z;         (* millis() in the condition *)
  millis_stamp : Z;        (* millis() in the assignment *)
  pressure_adc : Z         (* analogRead(PRESSURE_SENSOR_PIN) *)
}.

(** [unsigned long] arithmetic is modulo 2^32. *)
Definition to_ulong (z : Z) : Z := z mod 2 ^ 32.

(** Whether [millis() - lastSendTime >= SEND_INTERVAL] holds. *)
Definition tick_due (i : loop_input) (g : globals) : bool :=
  SEND_INTERVAL <=? to_ulong (to_ulong (millis_test i) - lastSendTime g).

Definition loop (i : loop_input) (g : globals)
  : option (globals * list serial_call) :=
  match processDistanceSensor (ir i) g with
  | None => None
  | Some g1 =>
      match processForceSensor (force_adc i) g1 with
      | None => None
      | Some g2 =>
          if tick_due i g2
          then Some (sendAllData (pressure_adc i)
                       (set_lastSendTime (to_ulong (millis_stamp i)) g2))
          else Some (g2, [])
      end
  end.

(** The passes of [loop] over a sequence of inputs, with everything
    printed on the way. *)
Fixpoint run (ins : list loop_input) (g : globals)
  : option (globals * list serial_call) :=
  match ins with
  | [] => Some (g, [])
  | i :: rest =>
      match loop i g with
      | None => None
      | Some (g1, out1) =>
          match run rest g1 with
          | None => None
          | Some (g2, out2) => Some (g2, out1 ++ out2)
          end
      end
  end.

(** The sketch from power-up: [setup] once, then [loop] on each input. *)
Definition sketch (ins : list loop_input)
  : option (globals * list serial_call) :=
  let '(g0, out0) := setup initial in
  match run ins g0 with
  | None => None
  | Some (g, out) => Some (g, out0 ++ out)
  end.

(** ** Observations on a run *)

(** The measurement that [decode_byte] hands to the distance channel when
    it reads [b], if it hands one over: [b] is the eighth payload byte and
    the completed payload passes the test. *)
Definition measurement_on (b : byte) (g : globals) : option float :=
  match state g with
  | READING_PAYLOAD =>
      match store (payloadBuffer g) (bufferIndex g) b with
      | Some p =>
          if 8 <=? bufferIndex g + 1 then
            match frame_measurement p with
            | Some (Some z) => Some z
            | _ => None
            end
          else None
      | None => None
      end
  | _ => None
  end.

Definition delivers (i : loop_input) (g : globals) : bool :=
  match ir i with
  | Some b => match measurement_on b g with Some _ => true | None => false end
  | None => false
  end.

(** Number of values written into the distance history during a run. *)
Fixpoint distance_writes (ins : list loop_input) (g : globals) : nat :=
  match ins with
  | [] => O
  | i :: rest =>
      ((if delivers i g then 1 else 0)
       + match loop i g with
         | Some (g1, _) => distance_writes rest g1
         | None => 0
         end)%nat
  end.

(** Number of values written into the force history during a run: one
    on each pass. *)
Definition force_writes (ins : list loop_input) : nat := List.length ins.

(** The decoder on a sequence of bytes, one [processDistanceSensor] call
    for each. *)
Fixpoint feed (bs : list byte) (g : globals) : option globals :=
  match bs with
  | [] => Some g
  | b :: rest =>
      match processDistanceSensor (Some b) g with
      | None => None
      | Some g1 => feed rest g1
      end
  end.

(** Everything the distance channel owns, and everything the force channel
    owns. *)
Definition distance_channel (g : globals)
  : SimpleKalmanFilter * list float * Z * float :=
  (distanceKalman g, distanceHistory g, distanceHistoryIndex g,
   stable_distance_mm g).

Definition force_channel (g : globals)
  : SimpleKalmanFilter * list float * Z * float :=
  (forceKalman g, forceHistory g, forceHistoryIndex g, stable_force_N g).

(** The (force, distance, pressure) records found in the output: each is
    the five-call pattern of [sendAllData]. *)
Fixpoint records (out : list serial_call) : list (float * float * float) :=
  match out with
  | [] => []
  | print_float f _ :: rest1 =>
      match rest1 with
      | print_str _ :: print_float d _ :: print_str _
          :: println_float p _ :: rest => (f, d, p) :: records rest
      | _ => records rest1
      end
  | _ :: rest1 => records rest1
  end.

(** The text that the calls put on the line. [Print::print(double, int)]
    of the Arduino core is not part of the sketch and is a parameter;
    [println] ends the line with carriage return and line feed. *)
Definition CRLF : string :=
  String (Ascii.ascii_of_nat 13) (String (Ascii.ascii_of_nat 10) EmptyString).

Section Render.
Variable printFloat : float -> nat -> string.

Definition render_call (c : serial_call) : string :=
  match c with
  | print_float v d => printFloat v d
  | print_str s => s
  | println_float v d => printFloat v d ++ CRLF
  | println_str s => s ++ CRLF
  end.

Definition render (out : list serial_call) : string :=
  String.concat EmptyString (map render_call out).
End Render.

(** ** Well-formed states *)

(** The array sizes of the declarations, the history indices inside their
    arrays, and the payload index inside the payload buffer while a
    payload is being read. *)
Definition well_formed (g : globals) : bool :=
  (Z.of_nat (List.length (distanceHistory g)) =? HISTORY_SIZE)
  && (Z.of_nat (List.length (forceHistory g)) =? HISTORY_SIZE)
  && (Z.of_nat (List.length (payloadBuffer g)) =? 8)
  && (0 <=? distanceHistoryIndex g) && (distanceHistoryIndex g <? HISTORY_SIZE)
  && (0 <=? forceHistoryIndex g) && (forceHistoryIndex g <? HISTORY_SIZE)
  && match state g with
     | READING_PAYLOAD => (0 <=? bufferIndex g) && (bufferIndex g <? 8)
     | _ => true
     end.

(** ** The moving average on its own *)

(** One push into a window: the three statements that both channels
    repeat after filtering. The result is the new history, the new index
    and the stabilized reading. *)
Definition window_push (history : list float) (index : Z) (v : float)
  : option (list float * Z * float) :=
  match store history index v with
  | None => None
  | Some h =>
      match sum_history h with
      | None => None
      | Some sum =>
          Some (h, (index + 1) mod HISTORY_SIZE,
                F32.div sum (F32.of_int HISTORY_SIZE))
      end
  end.

Fixpoint window_push_all (vs : list float) (w : list float * Z * float)
  : option (list float * Z * float) :=
  match vs with
  | [] => Some w
  | v :: rest =>
      let '(h, i, _) := w in
      match window_push h i v with
      | None => None
      | Some w1 => window_push_all rest w1
      end
  end.

(** A window as the program starts with it. *)
Definition fresh_window : list float := repeat F32.zero (Z.to_nat HISTORY_SIZE).

(** The sum of a list of floats, added from the left starting at 0.0, and
    its mean over 20. *)
Definition float_sum (vs : list float) : float := fold_left F32.add vs F32.zero.
Definition mean20 (vs : list float) : float :=
  F32.div (float_sum vs) (F32.of_int HISTORY_SIZE).

(** The measurements handed to the distance channel while the decoder is
    fed a sequence of bytes, in order. *)
Fixpoint deliveries (bs : list byte) (g : globals) : list float :=
  match bs with
  | [] => []
  | b :: rest =>
      match measurement_on b g with Some z => [z] | None => [] end
      ++ match processDistanceSensor (Some b) g with
         | Some g1 => deliveries rest g1
         | None => []
         end
  end.

(** The frame of the specification's example, and the same frame with a
    leading payload byte. *)
Definition example_frame : list byte :=
  [xac; xca; x00; x00; x27; x10; x01; xdc; xcd].

Definition example_frame_with (b : byte) : list byte :=
  [xac; xca; b; x00; x00; x27; x10; x01; xdc; xcd].

(** ** Sample inputs *)

(** A pass with no byte waiting, a mid-scale force reading and the clock
    at [t]. *)
Definition pass_at (t : Z) : loop_input := mkInput None 512 t t 300.

(** Eighteen passes before the first 100 ms have elapsed, then one pass
    at 100 ms and one at 200 ms. *)
Definition nineteen_then_tick : list loop_input :=
  repeat (pass_at 0) 18 ++ [pass_at 100; pass_at 200].

(** Twenty passes before the first 100 ms have elapsed, then one pass at
    100 ms. *)
Definition twenty_then_tick : list loop_input :=
  repeat (pass_at 0) 20 ++ [pass_at 100].

(** The line of text of one record. *)
Definition record_line (printFloat : float -> nat -> string)
  (force distance pressure : float) : string :=
  (printFloat force 2%nat ++ "," ++ printFloat distance 2%nat ++ ","
   ++ printFloat pressure 3%nat ++ CRLF)%string.

(** ** Reference readings *)

(** The unsigned big-endian reading of four bytes. *)
Definition big_endian_32 (p1 p2 p3 p4 : byte) : Z :=
  byte_val p1 * 2 ^ 24 + byte_val p2 * 2 ^ 16 + byte_val p3 * 2 ^ 8
  + byte_val p4.

(** ** The filter over many calls *)

(** The filter after the calls [update z] for the measurements [zs], in
    order. *)
Fixpoint updates (f : SimpleKalmanFilter) (zs : list float)
  : SimpleKalmanFilter :=
  match zs with
  | [] => f
  | z :: rest => updates (fst (update f z)) rest
  end.

(** A zero or a finite number: neither an infinity nor a NaN. *)
Definition is_finite (x : float) : bool :=
  match x with S754_zero _ | S754_finite _ _ _ => true | _ => false end.

(** A number of the format: a finite one has a mantissa of at most 24 bits
    and an exponent between -149 and 104. Every [F32.valid] float is one;
    the mantissa need not be normalised. *)
Definition representable (x : float) : bool :=
  match x with
  | S754_finite _ m e =>
      (Zdigits2 (Zpos m) <=? F32.prec)
      && (emin F32.prec F32.emax <=? e) && (e <=? F32.emax - F32.prec)
  | _ => true
  end.

(** The state of a filter that is in order: Q, R and P are numbers of the
    format with Q >= 0, R > 0 and P >= 0 finite, and the gain is in
    [0, 1]. A filter fresh from the constructor has K = 0. *)
Definition filter_ok (f : SimpleKalmanFilter) : bool :=
  representable (kQ f) && representable (kR f) && representable (kP f)
  && F32.leb F32.zero (kQ f) && F32.ltb F32.zero (kR f)
  && F32.leb F32.zero (kP f) && is_finite (kP f)
  && F32.leb F32.zero (kK f) && F32.leb (kK f) F32.one.

(** Whether the sum P + Q that opens each of the calls stays finite. *)
Fixpoint no_overflow (f : SimpleKalmanFilter) (zs : list float) : bool :=
  match zs with
  | [] => true
  | z :: rest =>
      is_finite (F32.add (kP f) (kQ f)) && no_overflow (fst (update f z)) rest
  end.

(** The largest finite binary32 number, (2^24 - 1) * 2^104. *)
Definition max_float : float := S754_finite false 16777215 104.

(** ** The filter of the sketch *)

(** Equality of floats as data. *)
Definition float_eqb (x y : float) : bool :=
  match x, y with
  | S754_zero s, S754_zero t => Bool.eqb s t
  | S754_infinity s, S754_infinity t => Bool.eqb s t
  | S754_nan, S754_nan => true
  | S754_finite s m e, S754_finite t n f =>
      Bool.eqb s t && Pos.eqb m n && Z.eqb e f
  | _, _ => false
  end.

(** The filter that the sketch constructs twice. *)
Definition sketch_filter : SimpleKalmanFilter :=
  newKalman lit_0_01 lit_0_1 lit_0_5.

(** P after one more call, as a function of P alone: neither the
    measurement nor the estimate enters it. *)
Definition next_P (p : float) : float :=
  kP (fst (update (mkKalman lit_0_01 lit_0_1 p F32.zero F32.zero) F32.zero)).

(** The values that P takes in the sketch: the initial 0.5 and its first
    thirty successors. *)
Fixpoint P_orbit (n : nat) (p : float) : list float :=
  match n with
  | O => [p]
  | S n' => p :: P_orbit n' (next_P p)
  end.

Definition sketch_P_values : list float := P_orbit 30 lit_0_5.

(** ** Values of floats *)

(** Comparison of [m1 * 2^e1] with [m2 * 2^e2], both counted in units of
    the smaller power of two. *)
Definition vle (m1 e1 m2 e2 : Z) : Prop :=
  m1 * 2 ^ (e1 - Z.min e1 e2) <= m2 * 2 ^ (e2 - Z.min e1 e2).

(** A zero of either sign, a positive finite number or plus infinity: the
    floats [x] with [0 <= x]. *)
Definition nonneg_shape (x : float) : Prop :=
  match x with
  | S754_zero _ | S754_finite false _ _ | S754_infinity false => True
  | _ => False
  end.

(** A positive finite number or plus infinity: the floats [x] with
    [0 < x]. *)
Definition pos_shape (x : float) : Prop :=
  match x with
  | S754_finite false _ _ | S754_infinity false => True
  | _ => False
  end.

(** A zero or a positive finite number of the format. *)
Definition small_shape (x : float) : Prop :=
  match x with
  | S754_zero _ => True
  | S754_finite false m e => Zdigits2 (Zpos m) <= 24 /\ -149 <= e <= 104
  | _ => False
  end.

(** A zero or a positive finite number of the format that is at most 1:
    [m * 2^e] with [e <= -23] and [m <= 2^(-e)]. *)
Definition unit_shape (x : float) : Prop :=
  match x with
  | S754_zero _ => True
  | S754_finite false m e =>
      e <= -23 /\ Zpos m <= 2 ^ (- e) /\ Zdigits2 (Zpos m) <= 24 /\ -149 <= e
  | _ => False
  end.

(** [x <= y] in value, for [x] a zero or positive finite and [y]
    positive. *)
Definition below (x y : float) : Prop :=
  match x, y with
  | S754_zero _, _ => True
  | S754_finite false mx ex, S754_finite false my ey =>
      vle (Zpos mx) ex (Zpos my) ey
  | S754_finite false _ _, S754_infinity false => True
  | _, _ => False
  end.

(** ** Further observations *)

(** The readings that [analogRead] can return: 0 to 1023. *)
Definition adc_range : list Z := map Z.of_nat (seq 0 1024).

(** [rawForce] of [processForceSensor] for the reading [adc]. *)
Definition rawForce_of (adc : Z) : float :=
  mapFloat (F32.of_int adc) F32.zero (F32.of_int 1023) F32.zero (F32.of_int 200).

(** Number of passes of a run on which the tick is due. The sensors leave
    [lastSendTime] alone, so the test can be made at the start of the
    pass. *)
Fixpoint due_ticks (ins : list loop_input) (g : globals) : nat :=
  match ins with
  | [] => O
  | i :: rest =>
      ((if tick_due i g then 1 else 0)
       + match loop i g with
         | Some (g1, _) => due_ticks rest g1
         | None => 0
         end)%nat
  end.

(** The calls that print a list of records. *)
Definition calls_of_records (rs : list (float * float * float))
  : list serial_call :=
  flat_map (fun r => record_calls (fst (fst r)) (snd (fst r)) (snd r)) rs.

(** The values at which P and K of the sketch's filters settle. *)
Definition steady_P : float := S754_finite false 14503901 (-29).

Definition steady_K : float := S754_finite false 9064938 (-25).

(** K after one call, as a function of P before it. *)
Definition next_K (p : float) : float :=
  kK (fst (update (mkKalman lit_0_01 lit_0_1 p F32.zero F32.zero) F32.zero)).

(** The force channel after passes with the readings [adcs] of the force
    pin: each reading is scaled, filtered and pushed into the window. *)
Fixpoint force_channel_after (adcs : list Z)
  (c : SimpleKalmanFilter * list float * Z * float)
  : option (SimpleKalmanFilter * list float * Z * float) :=
  match adcs with
  | [] => Some c
  | adc :: rest =>
      let '(k, h, i, _) := c in
      let '(k', v) := update k (rawForce_of adc) in
      match window_push h i v with
      | None => None
      | Some (h', i', s') => force_channel_after rest (k', h', i', s')
      end
  end.

(** The bytes that the passes of a run read from the infrared line. *)
Definition ir_bytes (ins : list loop_input) : list byte :=
  flat_map (fun i => match ir i with Some b => [b] | None => [] end) ins.

(** Everything [processDistanceSensor] reads or writes: the distance
    channel and the three statics of the decoder. *)
Definition decoder_view (g : globals)
  : (SimpleKalmanFilter * list float * Z * float)
    * decoder_state * list byte * Z :=
  (distance_channel g, state g, payloadBuffer g, bufferIndex g).

(** A bound on the bytes that the decoder reads before it searches for
    sync again: none while it does, the byte after 0xAC and a whole
    payload while it waits for 0xCA, and the rest of the payload while it
    reads one. *)
Definition bytes_to_sync (g : globals) : Z :=
  match state g with
  | WAITING_FOR_AC => 0
  | WAITING_FOR_CA => 9
  | READING_PAYLOAD => 8 - bufferIndex g
  end.

(** * Properties *)

(** ** Arrays *)

Section ArrayFacts.
Context {A : Type}.
Implicit Types (a : list A) (v : A).

Lemma length_update_nth n v a :
  List.length (update_nth n v a) = List.length a.
Proof.
  revert n; induction a as [|h t IH]; intros [|n]; simpl; auto.
Qed.

Lemma in_bounds_iff a i :
  in_bounds a i = true <-> 0 <= i < Z.of_nat (List.length a).
Proof. unfold in_bounds. rewrite andb_true_iff. lia. Qed.

Lemma store_in_bounds a i v :
  0 <= i < Z.of_nat (List.length a) ->
  store a i v = Some (update_nth (Z.to_nat i) v a).
Proof.
  intros H. unfold store.
  destruct (in_bounds a i) eqn:E; [reflexivity|].
  apply in_bounds_iff in H. congruence.
Qed.

Lemma store_Some a i v a' :
  store a i v = Some a' ->
  0 <= i < Z.of_nat (List.length a) /\ a' = update_nth (Z.to_nat i) v a.
Proof.
  unfold store. destruct (in_bounds a i) eqn:E; [|discriminate].
  intros [= <-]. apply in_bounds_iff in E. auto.
Qed.

Lemma store_length a i v a' :
  store a i v = Some a' -> List.length a' = List.length a.
Proof.
  intros H. apply store_Some in H as [_ ->]. apply length_update_nth.
Qed.

Lemma nth_error_update_nth_eq n v a :
  (n < List.length a)%nat -> nth_error (update_nth n v a) n = Some v.
Proof.
  revert n; induction a as [|h t IH]; intros [|n]; simpl; intros H;
    try lia; auto. apply IH. lia.
Qed.

Lemma load_in_bounds a i :
  0 <= i < Z.of_nat (List.length a) ->
  exists v, load a i = Some v /\ nth_error a (Z.to_nat i) = Some v.
Proof.
  intros H. unfold load.
  destruct (in_bounds a i) eqn:E.
  - destruct (nth_error a (Z.to_nat i)) as [v|] eqn:N; eauto.
    apply nth_error_None in N. lia.
  - apply in_bounds_iff in H. congruence.
Qed.

Lemma load_store_eq a i v a' :
  store a i v = Some a' -> load a' i = Some v.
Proof.
  intros H. pose proof (store_length _ _ _ _ H) as L.
  apply store_Some in H as [B ->].
  unfold load. replace (in_bounds _ i) with true.
  - apply nth_error_update_nth_eq. lia.
  - symmetry. apply in_bounds_iff. rewrite length_update_nth. lia.
Qed.

End ArrayFacts.

(** The summing loop reads slots [i .. i+n-1] and adds them from the left. *)
Lemma sum_loop_spec n : forall history i sum,
  0 <= i -> i + Z.of_nat n <= Z.of_nat (List.length history) ->
  sum_loop history i n sum =
  Some (fold_left F32.add (firstn n (skipn (Z.to_nat i) history)) sum).
Proof.
  induction n as [|n IH]; intros history i sum Hi Hn.
  - reflexivity.
  - cbn [sum_loop].
    destruct (load_in_bounds history i) as (v & -> & Hv); [lia|].
    rewrite IH by lia.
    replace (Z.to_nat (i + 1)) with (S (Z.to_nat i)) by lia.
    assert (E : skipn (Z.to_nat i) history = v :: skipn (S (Z.to_nat i)) history).
    { clear -Hv. revert Hv. generalize (Z.to_nat i) as k.
      induction history as [|h t IHt]; intros [|k]; simpl; try discriminate.
      - intros [= ->]. reflexivity.
      - intros H. rewrite (IHt k H). destruct t; reflexivity. }
    rewrite E. reflexivity.
Qed.

Lemma sum_history_full history :
  Z.of_nat (List.length history) = HISTORY_SIZE ->
  sum_history history = Some (float_sum history).
Proof.
  intros L. unfold sum_history. rewrite sum_loop_spec; unfold HISTORY_SIZE in *; try lia.
  simpl skipn. rewrite firstn_all2 by lia. reflexivity.
Qed.

(** ** Well-formed states are kept *)

Lemma well_formed_iff g :
  well_formed g = true <->
  Z.of_nat (List.length (distanceHistory g)) = HISTORY_SIZE
  /\ Z.of_nat (List.length (forceHistory g)) = HISTORY_SIZE
  /\ Z.of_nat (List.length (payloadBuffer g)) = 8
  /\ 0 <= distanceHistoryIndex g < HISTORY_SIZE
  /\ 0 <= forceHistoryIndex g < HISTORY_SIZE
  /\ (state g = READING_PAYLOAD -> 0 <= bufferIndex g < 8).
Proof.
  unfold well_formed. rewrite !andb_true_iff, !Z.eqb_eq, !Z.leb_le, !Z.ltb_lt.
  destruct (state g); rewrite ?andb_true_iff, ?Z.leb_le, ?Z.ltb_lt;
    intuition (try discriminate; try lia).
Qed.

Lemma well_formed_initial : well_formed initial = true.
Proof. reflexivity. Qed.

Lemma frame_measurement_total p :
  Z.of_nat (List.length p) = 8 -> exists r, frame_measurement p = Some r.
Proof.
  intros L. unfold frame_measurement.
  destruct (load_in_bounds p 5) as (p5 & -> & _); [lia|].
  destruct (load_in_bounds p 6) as (p6 & -> & _); [lia|].
  destruct (load_in_bounds p 7) as (p7 & -> & _); [lia|].
  destruct (load_in_bounds p 1) as (p1 & -> & _); [lia|].
  destruct (load_in_bounds p 2) as (p2 & -> & _); [lia|].
  destruct (load_in_bounds p 3) as (p3 & -> & _); [lia|].
  destruct (load_in_bounds p 4) as (p4 & -> & _); [lia|].
  destruct (negb _ && _ && _); eauto.
Qed.

Lemma history_index_next i :
  0 <= (i + 1) mod HISTORY_SIZE < HISTORY_SIZE.
Proof. apply Z.mod_pos_bound. reflexivity. Qed.

Lemma window_push_total history index v :
  Z.of_nat (List.length history) = HISTORY_SIZE ->
  0 <= index < HISTORY_SIZE ->
  exists h,
    store history index v = Some h
    /\ Z.of_nat (List.length h) = HISTORY_SIZE
    /\ sum_history h = Some (float_sum h).
Proof.
  intros L I.
  rewrite (store_in_bounds history index v) by lia.
  eexists; split; [reflexivity|].
  rewrite length_update_nth. split; [exact L|].
  apply sum_history_full. rewrite length_update_nth. exact L.
Qed.

Lemma processForceSensor_total adc g :
  well_formed g = true ->
  exists g', processForceSensor adc g = Some g' /\ well_formed g' = true.
Proof.
  intros W. apply well_formed_iff in W as (Ld & Lf & Lp & Id & If & Ib).
  unfold processForceSensor.
  destruct (update (forceKalman g) _) as [kf kalmanForce].
  destruct (window_push_total (forceHistory g) (forceHistoryIndex g) kalmanForce)
    as (h & -> & Lh & ->); auto.
  eexists; split; [reflexivity|].
  apply well_formed_iff; cbn. pose proof (history_index_next (forceHistoryIndex g)).
  auto 10.
Qed.

Lemma deliver_distance_total z g :
  well_formed g = true ->
  exists g', deliver_distance z g = Some g' /\ well_formed g' = true
             /\ state g' = state g /\ payloadBuffer g' = payloadBuffer g
             /\ bufferIndex g' = bufferIndex g.
Proof.
  intros W. apply well_formed_iff in W as (Ld & Lf & Lp & Id & If & Ib).
  unfold deliver_distance.
  destruct (update (distanceKalman g) z) as [kf kalmanDist].
  destruct (window_push_total (distanceHistory g) (distanceHistoryIndex g) kalmanDist)
    as (h & -> & Lh & ->); auto.
  eexists; split; [reflexivity|]. cbn.
  split; [|auto].
  apply well_formed_iff; cbn. pose proof (history_index_next (distanceHistoryIndex g)).
  auto 10.
Qed.

(** What the accepted-frame branch writes: the filter has had one call
    with the measurement, the value it returned is in the slot at the old
    index, the index has advanced and the stabilized distance is the mean
    of the window as it then stands. *)
Lemma deliver_distance_effect z g gd :
  well_formed g = true ->
  deliver_distance z g = Some gd ->
  distanceKalman gd = fst (update (distanceKalman g) z)
  /\ distanceHistory gd
     = update_nth (Z.to_nat (distanceHistoryIndex g))
         (snd (update (distanceKalman g) z)) (distanceHistory g)
  /\ distanceHistoryIndex gd = (distanceHistoryIndex g + 1) mod HISTORY_SIZE
  /\ stable_distance_mm gd = mean20 (distanceHistory gd).
Proof.
  intros W. apply well_formed_iff in W as (Ld & _ & _ & Id & _).
  unfold deliver_distance.
  destruct (update (distanceKalman g) z) as [kf kv]. cbn [fst snd].
  rewrite (store_in_bounds (distanceHistory g) (distanceHistoryIndex g) kv)
    by lia.
  rewrite sum_history_full by (rewrite length_update_nth; exact Ld).
  intros [= <-]. repeat split.
Qed.

Lemma well_formed_set_decoder s p i g :
  well_formed g = true ->
  Z.of_nat (List.length p) = 8 ->
  (s = READING_PAYLOAD -> 0 <= i < 8) ->
  well_formed (set_decoder s p i g) = true.
Proof.
  intros W Lp Hi. apply well_formed_iff in W as (Ld & Lf & _ & Id & If & _).
  apply well_formed_iff; cbn. auto 10.
Qed.

Lemma decode_byte_total b g :
  well_formed g = true ->
  exists g', decode_byte b g = Some g' /\ well_formed g' = true.
Proof.
  intros W. pose proof W as W0.
  apply well_formed_iff in W0 as (Ld & Lf & Lp & Id & If & Ib).
  unfold decode_byte. destruct (state g) eqn:S.
  - destruct (Byte.eqb b xac); eexists; split; try reflexivity; auto.
    apply well_formed_set_decoder; auto. discriminate.
  - eexists; split; [reflexivity|].
    apply well_formed_set_decoder; auto. lia.
  - specialize (Ib eq_refl).
    rewrite (store_in_bounds (payloadBuffer g) (bufferIndex g) b) by lia.
    set (p := update_nth _ b _).
    assert (Lp' : Z.of_nat (List.length p) = 8)
      by (unfold p; rewrite length_update_nth; exact Lp).
    destruct (8 <=? bufferIndex g + 1) eqn:E.
    + destruct (frame_measurement_total p Lp') as ([z|] & ->).
      * destruct (deliver_distance_total z g W) as (g' & -> & W' & _).
        eexists; split; [reflexivity|].
        apply well_formed_set_decoder; auto. discriminate.
      * eexists; split; [reflexivity|].
        apply well_formed_set_decoder; auto. discriminate.
    + eexists; split; [reflexivity|].
      apply well_formed_set_decoder; auto. apply Z.leb_gt in E. lia.
Qed.

Lemma well_formed_sendAllData adc g :
  well_formed (fst (sendAllData adc g)) = well_formed g.
Proof.
  unfold sendAllData.
  destruct (negb (bufferIsFull g)); [|reflexivity].
  destruct (_ || _); reflexivity.
Qed.

Lemma loop_total i g :
  well_formed g = true ->
  exists g' out, loop i g = Some (g', out) /\ well_formed g' = true.
Proof.
  intros W. unfold loop, processDistanceSensor.
  assert (D : exists g1, match ir i with
                         | Some b => decode_byte b g
                         | None => Some g
                         end = Some g1 /\ well_formed g1 = true).
  { destruct (ir i) as [b|]; [apply decode_byte_total; exact W | eauto]. }
  destruct D as (g1 & -> & W1).
  destruct (processForceSensor_total (force_adc i) g1 W1) as (g2 & -> & W2).
  destruct (tick_due i g2).
  - destruct (sendAllData _ _) as [g3 out] eqn:E.
    exists g3, out. split; [reflexivity|].
    change g3 with (fst (g3, out)). rewrite <- E.
    rewrite well_formed_sendAllData. exact W2.
  - eauto.
Qed.

Lemma run_total ins : forall g,
  well_formed g = true ->
  exists g' out, run ins g = Some (g', out) /\ well_formed g' = true.
Proof.
  induction ins as [|i rest IH]; intros g W; cbn [run].
  - eauto.
  - destruct (loop_total i g W) as (g1 & out1 & -> & W1).
    destruct (IH g1 W1) as (g2 & out2 & -> & W2). eauto.
Qed.

(** ** C10: every array access is inside its array *)

(** C10. From power-up and on any inputs the sketch never reads or writes
    outside an array: every pass of [loop] is defined, and the state it
    leaves has both history indices in [0, 20) and, while a payload is
    being read, the payload index in [0, 8). The writes of the next pass
    use exactly these indices, and the payload index is 0 on each entry
    into payload reading. *)
Theorem C10_writes_in_bounds :
  (forall ins, exists g out,
      run ins initial = Some (g, out)
      /\ 0 <= forceHistoryIndex g < HISTORY_SIZE
      /\ 0 <= distanceHistoryIndex g < HISTORY_SIZE
      /\ Z.of_nat (List.length (forceHistory g)) = HISTORY_SIZE
      /\ Z.of_nat (List.length (distanceHistory g)) = HISTORY_SIZE
      /\ Z.of_nat (List.length (payloadBuffer g)) = 8
      /\ (state g = READING_PAYLOAD -> 0 <= bufferIndex g < 8))
  /\ (forall b g g',
        decode_byte b g = Some g' ->
        state g <> READING_PAYLOAD -> state g' = READING_PAYLOAD ->
        bufferIndex g' = 0).
Proof.
  split.
  - intros ins.
    destruct (run_total ins initial well_formed_initial) as (g & out & R & W).
    exists g, out. split; [exact R|].
    apply well_formed_iff in W. tauto.
  - intros b g g' D N S. unfold decode_byte in D.
    destruct (state g) eqn:E; [| |congruence].
    + destruct (Byte.eqb b xac); injection D as <-; cbn in S; congruence.
    + injection D as <-. reflexivity.
Qed.

(** ** C5: one call of the filter *)

(** C5. [update z] on a filter (Q, R, P, K, x) computes, in this order,
    P1 = P + Q, K1 = P1 / (P1 + R), x1 = x + K1 * (z - x) and
    P2 = (1 - K1) * P1; it leaves the filter (Q, R, P2, K1, x1) and returns
    x1. Q and R are not changed, and nothing but the filter is touched. *)
Theorem C5_update_steps (f : SimpleKalmanFilter) (z : float) :
  let P1 := F32.add (kP f) (kQ f) in
  let K1 := F32.div P1 (F32.add P1 (kR f)) in
  let x1 := F32.add (kx f) (F32.mul K1 (F32.sub z (kx f))) in
  let P2 := F32.mul (F32.sub F32.one K1) P1 in
  update f z = (mkKalman (kQ f) (kR f) P2 K1 x1, x1)
  /\ kQ (fst (update f z)) = kQ f
  /\ kR (fst (update f z)) = kR f
  /\ snd (update f z) = kx (fst (update f z)).
Proof. cbv zeta. repeat split. Qed.

(** ** The decoder, byte by byte *)

Lemma byte_eqb_true_iff (a b : byte) : Byte.eqb a b = true <-> a = b.
Proof. split; [apply Byte.byte_dec_bl | apply Byte.byte_dec_lb]. Qed.

Lemma byte_eqb_false_iff (a b : byte) : Byte.eqb a b = false <-> a <> b.
Proof.
  split; [apply Byte.eqb_false|].
  intros N. destruct (Byte.eqb a b) eqn:E; [|reflexivity].
  apply byte_eqb_true_iff in E. contradiction.
Qed.

Lemma deliver_distance_frame z g g' :
  deliver_distance z g = Some g' ->
  force_channel g' = force_channel g
  /\ bufferIsFull g' = bufferIsFull g
  /\ lastSendTime g' = lastSendTime g
  /\ state g' = state g
  /\ payloadBuffer g' = payloadBuffer g
  /\ bufferIndex g' = bufferIndex g.
Proof.
  unfold deliver_distance.
  destruct (update _ z) as [kf kd].
  destruct (store _ _ _) as [h|]; [|discriminate].
  destruct (sum_history h); [|discriminate].
  intros [= <-]. repeat split.
Qed.

(** What one byte does to the two channels: the distance channel changes
    only by the delivery of [measurement_on], the force channel never. *)
Lemma decode_byte_channels b g g' :
  decode_byte b g = Some g' ->
  force_channel g' = force_channel g
  /\ bufferIsFull g' = bufferIsFull g
  /\ lastSendTime g' = lastSendTime g
  /\ match measurement_on b g with
     | Some z =>
         exists gd, deliver_distance z g = Some gd
                    /\ distance_channel g' = distance_channel gd
     | None => distance_channel g' = distance_channel g
     end.
Proof.
  unfold decode_byte, measurement_on.
  destruct (state g).
  - destruct (Byte.eqb b xac); intros [= <-]; repeat split.
  - intros [= <-]; repeat split.
  - destruct (store _ _ b) as [p|]; [|discriminate].
    destruct (8 <=? bufferIndex g + 1).
    + destruct (frame_measurement p) as [[z|]|]; [| |discriminate].
      * destruct (deliver_distance z g) as [gd|] eqn:D; [|discriminate].
        intros [= <-].
        destruct (deliver_distance_frame _ _ _ D) as (F & B & L & _).
        repeat split; auto. exists gd. split; reflexivity.
      * intros [= <-]; repeat split.
    + intros [= <-]; repeat split.
Qed.

Lemma list_length_8 {A} (l : list A) :
  Z.of_nat (List.length l) = 8 ->
  exists a0 a1 a2 a3 a4 a5 a6 a7, l = [a0; a1; a2; a3; a4; a5; a6; a7].
Proof.
  intros L.
  do 8 (destruct l as [|? l]; [cbn in L; lia|]).
  destruct l; [|cbn in L; lia]. eauto 10.
Qed.

(** After the two sync bytes and seven payload bytes the decoder waits for
    the eighth, and no channel has been touched. *)
Lemma feed_sync_and_seven g p0 p1 p2 p3 p4 p5 p6 :
  well_formed g = true -> state g = WAITING_FOR_AC ->
  exists q7,
    feed [xac; xca; p0; p1; p2; p3; p4; p5; p6] g =
    Some (set_decoder READING_PAYLOAD [p0; p1; p2; p3; p4; p5; p6; q7] 7 g).
Proof.
  intros W S. apply well_formed_iff in W as (_ & _ & Lp & _).
  destruct (list_length_8 _ Lp) as (a0 & a1 & a2 & a3 & a4 & a5 & a6 & a7 & E).
  exists a7. destruct g; cbn in S, E; subst.
  reflexivity.
Qed.

(** The payload test, read off the eight bytes. *)
Lemma frame_measurement_eight p0 p1 p2 p3 p4 p5 p6 p7 :
  frame_measurement [p0; p1; p2; p3; p4; p5; p6; p7] =
  Some (if negb (Byte.eqb p5 x00) && Byte.eqb p6 xdc && Byte.eqb p7 xcd
        then Some (F32.div (F32.of_int (raw_dist_of p1 p2 p3 p4))
                           (F32.of_int 100))
        else None).
Proof.
  set (p := [p0; p1; p2; p3; p4; p5; p6; p7]).
  unfold frame_measurement.
  change (load p 5) with (Some p5). change (load p 6) with (Some p6).
  change (load p 7) with (Some p7). change (load p 1) with (Some p1).
  change (load p 2) with (Some p2). change (load p 3) with (Some p3).
  change (load p 4) with (Some p4).
  cbv beta iota.
  destruct (negb (Byte.eqb p5 x00) && Byte.eqb p6 xdc && Byte.eqb p7 xcd);
    reflexivity.
Qed.

Lemma frame_valid_iff (p5 p6 p7 : byte) :
  negb (Byte.eqb p5 x00) && Byte.eqb p6 xdc && Byte.eqb p7 xcd = true
  <-> p5 <> x00 /\ p6 = xdc /\ p7 = xcd.
Proof.
  rewrite !andb_true_iff, negb_true_iff, byte_eqb_false_iff, !byte_eqb_true_iff.
  tauto.
Qed.

(** *** The raw distance is the big-endian reading of four bytes *)

Lemma byte_val_range b : 0 <= byte_val b < 256.
Proof.
  unfold byte_val. pose proof (Byte.to_N_bounded b). lia.
Qed.

Lemma lor_shiftl_add hi lo n :
  0 <= n -> 0 <= lo < 2 ^ n ->
  Z.lor (Z.shiftl hi n) lo = hi * 2 ^ n + lo.
Proof.
  intros Hn Hlo. rewrite Z.shiftl_mul_pow2 by exact Hn.
  rewrite <- Z.add_lor_land.
  assert (L : Z.land (hi * 2 ^ n) lo = 0).
  { apply Z.bits_inj'. intros k Hk.
    rewrite Z.land_spec, Z.bits_0.
    destruct (Z_lt_le_dec k n) as [Lt|Ge].
    - rewrite Z.mul_pow2_bits_low by lia. reflexivity.
    - rewrite <- (Z.mod_small lo (2 ^ n)) by lia.
      rewrite Z.mod_pow2_bits_high by lia. apply andb_false_r. }
  rewrite L. lia.
Qed.

Lemma raw_dist_big_endian p1 p2 p3 p4 :
  raw_dist_of p1 p2 p3 p4 = to_long (big_endian_32 p1 p2 p3 p4).
Proof.
  unfold raw_dist_of, big_endian_32.
  pose proof (byte_val_range p1). pose proof (byte_val_range p2).
  pose proof (byte_val_range p3). pose proof (byte_val_range p4).
  rewrite (lor_shiftl_add (byte_val p1) (Z.shiftl (byte_val p2) 16) 24);
    [|lia|rewrite Z.shiftl_mul_pow2; lia].
  rewrite (Z.shiftl_mul_pow2 (byte_val p2)) by lia.
  replace (byte_val p1 * 2 ^ 24 + byte_val p2 * 2 ^ 16)
    with ((byte_val p1 * 2 ^ 8 + byte_val p2) * 2 ^ 16) by lia.
  rewrite <- (Z.shiftl_mul_pow2 _ 16) by lia.
  rewrite (lor_shiftl_add _ (Z.shiftl (byte_val p3) 8) 16);
    [|lia|rewrite Z.shiftl_mul_pow2; lia].
  rewrite (Z.shiftl_mul_pow2 (byte_val p3)) by lia.
  replace ((byte_val p1 * 2 ^ 8 + byte_val p2) * 2 ^ 16 + byte_val p3 * 2 ^ 8)
    with (((byte_val p1 * 2 ^ 8 + byte_val p2) * 2 ^ 8 + byte_val p3) * 2 ^ 8)
    by lia.
  rewrite <- (Z.shiftl_mul_pow2 _ 8) by lia.
  rewrite lor_shiftl_add by lia.
  f_equal. rewrite Z.shiftl_mul_pow2 by lia. lia.
Qed.

Lemma deliver_distance_set_decoder z s p i g :
  deliver_distance z (set_decoder s p i g) =
  option_map (set_decoder s p i) (deliver_distance z g).
Proof.
  unfold deliver_distance. cbn [distanceKalman distanceHistory
    distanceHistoryIndex set_decoder].
  destruct (update (distanceKalman g) z) as [kf kd].
  destruct (store _ _ _) as [h|]; [|reflexivity].
  destruct (sum_history h); reflexivity.
Qed.

(** The eighth payload byte, from the state that [feed_sync_and_seven]
    reaches. *)
Lemma eighth_byte g p0 p1 p2 p3 p4 p5 p6 q7 p7 :
  let g9 := set_decoder READING_PAYLOAD [p0; p1; p2; p3; p4; p5; p6; q7] 7 g in
  let p := [p0; p1; p2; p3; p4; p5; p6; p7] in
  let z := F32.div (F32.of_int (raw_dist_of p1 p2 p3 p4)) (F32.of_int 100) in
  let ok := negb (Byte.eqb p5 x00) && Byte.eqb p6 xdc && Byte.eqb p7 xcd in
  measurement_on p7 g9 = (if ok then Some z else None)
  /\ decode_byte p7 g9 =
     if ok then option_map (set_decoder WAITING_FOR_AC p 8) (deliver_distance z g)
     else Some (set_decoder WAITING_FOR_AC p 8 g).
Proof.
  intros g9 p z ok. subst g9.
  unfold measurement_on, decode_byte.
  cbn [state payloadBuffer bufferIndex set_decoder].
  change (store _ 7 p7) with (Some p). change (8 <=? 7 + 1) with true.
  cbv beta iota. unfold p at 1 2. rewrite frame_measurement_eight.
  fold ok. fold z. fold p. destruct ok; cbv beta iota.
  - split; [reflexivity|].
    rewrite deliver_distance_set_decoder.
    destruct (deliver_distance z g) as [gd|]; reflexivity.
  - split; reflexivity.
Qed.

(** ** C1: a complete frame *)

(** C1. From sync search, after 0xAC, 0xCA and eight payload bytes
    p0 .. p7: the first nine bytes deliver nothing; the tenth byte makes
    the decoder hand a measurement to the distance channel if and only if
    p5 is not 0x00, p6 is 0xDC and p7 is 0xCD; the measurement is the
    32-bit (two's complement) big-endian integer p1 p2 p3 p4, converted to
    float and divided by 100.0. The distance channel has then received
    it: the distance filter has had one [update] call with the
    measurement, the value that call returned is in the history slot at
    the old index, the index has advanced by one modulo 20 and the
    stabilized distance is the mean of the window; the channel is the one
    that [deliver_distance] produces. Otherwise the distance channel is as
    before; in both cases the decoder is back in sync search. *)
Theorem C1_frame_decoder (g : globals) (p0 p1 p2 p3 p4 p5 p6 p7 : byte) :
  well_formed g = true ->
  state g = WAITING_FOR_AC ->
  exists g9 g10,
    feed [xac; xca; p0; p1; p2; p3; p4; p5; p6] g = Some g9
    /\ distance_channel g9 = distance_channel g
    /\ processDistanceSensor (Some p7) g9 = Some g10
    /\ state g10 = WAITING_FOR_AC
    /\ ((exists z, measurement_on p7 g9 = Some z)
        <-> p5 <> x00 /\ p6 = xdc /\ p7 = xcd)
    /\ (forall z, measurement_on p7 g9 = Some z ->
          z = F32.div (F32.of_int (to_long (big_endian_32 p1 p2 p3 p4)))
                      (F32.of_int 100)
          /\ (exists gd, deliver_distance z g = Some gd
                         /\ distance_channel g10 = distance_channel gd)
          /\ distanceKalman g10 = fst (update (distanceKalman g) z)
          /\ distanceHistory g10
             = update_nth (Z.to_nat (distanceHistoryIndex g))
                 (snd (update (distanceKalman g) z)) (distanceHistory g)
          /\ distanceHistoryIndex g10
             = (distanceHistoryIndex g + 1) mod HISTORY_SIZE
          /\ stable_distance_mm g10 = mean20 (distanceHistory g10))
    /\ (measurement_on p7 g9 = None ->
          distance_channel g10 = distance_channel g).
Proof.
  intros W S.
  destruct (feed_sync_and_seven g p0 p1 p2 p3 p4 p5 p6 W S) as (q7 & F).
  destruct (eighth_byte g p0 p1 p2 p3 p4 p5 p6 q7 p7) as (M & D).
  rewrite <- raw_dist_big_endian.
  set (g9 := set_decoder _ _ 7 g) in *.
  set (z0 := F32.div _ _) in *.
  pose proof (frame_valid_iff p5 p6 p7) as V.
  destruct (negb (Byte.eqb p5 x00) && Byte.eqb p6 xdc && Byte.eqb p7 xcd).
  - destruct (deliver_distance_total z0 g W) as (gd & Dd & _).
    pose proof (deliver_distance_effect z0 g gd W Dd) as (Ek & Eh & Ei & Es).
    rewrite Dd in D. cbn [option_map] in D.
    exists g9, (set_decoder WAITING_FOR_AC [p0; p1; p2; p3; p4; p5; p6; p7] 8 gd).
    split; [exact F|]. split; [reflexivity|]. split; [exact D|].
    split; [reflexivity|]. split; [|split].
    + split; [intros _; apply V; reflexivity | eauto].
    + intros z Hz. rewrite M in Hz. injection Hz as <-.
      split; [reflexivity|].
      split; [exists gd; split; [exact Dd | reflexivity]|].
      split; [exact Ek|]. split; [exact Eh|]. split; [exact Ei | exact Es].
    + rewrite M. discriminate.
  - exists g9, (set_decoder WAITING_FOR_AC [p0; p1; p2; p3; p4; p5; p6; p7] 8 g).
    split; [exact F|]. split; [reflexivity|]. split; [exact D|].
    split; [reflexivity|]. split; [|split].
    + split.
      * intros (z & Hz). rewrite M in Hz. discriminate.
      * intros HV. apply V in HV. discriminate.
    + intros z Hz. rewrite M in Hz. discriminate.
    + intros _. reflexivity.
Qed.

Lemma deliveries_sync_and_seven g p0 p1 p2 p3 p4 p5 p6 :
  well_formed g = true -> state g = WAITING_FOR_AC ->
  deliveries [xac; xca; p0; p1; p2; p3; p4; p5; p6] g = [].
Proof.
  intros W S. apply well_formed_iff in W as (_ & _ & Lp & _).
  destruct (list_length_8 _ Lp) as (a0 & a1 & a2 & a3 & a4 & a5 & a6 & a7 & E).
  destruct g; cbn in S, E; subst.
  reflexivity.
Qed.

Lemma feed_app bs1 : forall bs2 g,
  feed (bs1 ++ bs2) g =
  match feed bs1 g with Some g1 => feed bs2 g1 | None => None end.
Proof.
  induction bs1 as [|b rest IH]; intros bs2 g; cbn [feed app]; [reflexivity|].
  destruct (processDistanceSensor (Some b) g); [apply IH | reflexivity].
Qed.

Lemma deliveries_app bs1 : forall bs2 g,
  deliveries (bs1 ++ bs2) g =
  deliveries bs1 g
  ++ match feed bs1 g with Some g1 => deliveries bs2 g1 | None => [] end.
Proof.
  induction bs1 as [|b rest IH]; intros bs2 g; cbn [deliveries feed app].
  - reflexivity.
  - destruct (processDistanceSensor (Some b) g) as [g1|].
    + rewrite IH, app_assoc. reflexivity.
    + rewrite !app_nil_r. reflexivity.
Qed.

(** ** C3: the example frame *)

(** C3, as the specification words it, fails: the nine bytes
    0xAC 0xCA 0x00 0x00 0x27 0x10 0x01 0xDC 0xCD hold only seven payload
    bytes. From power-up they deliver no measurement, the distance channel
    is untouched and the decoder is still reading the payload, waiting for
    the eighth byte. *)
Lemma C3_nine_bytes_deliver_nothing :
  deliveries example_frame initial = []
  /\ exists g,
       feed example_frame initial = Some g
       /\ distance_channel g = distance_channel initial
       /\ state g = READING_PAYLOAD
       /\ bufferIndex g = 7.
Proof.
  split; [vm_compute; reflexivity|].
  exists (set_decoder READING_PAYLOAD [x00; x00; x27; x10; x01; xdc; xcd; x00]
            7 initial).
  split; [vm_compute; reflexivity|].
  split; [reflexivity|]. split; reflexivity.
Qed.

(** C3, amended. With one more payload byte [b] in front of the four
    distance bytes (payload[0], which the decoder ignores), the ten bytes
    0xAC 0xCA b 0x00 0x00 0x27 0x10 0x01 0xDC 0xCD fed from sync search
    deliver exactly one measurement, 100.0 (the raw distance 10000
    divided by 100), and the distance channel has received it: the
    distance filter has had one [update] call with 100.0, the value that
    call returned is in the history slot at the old index, the index has
    advanced by one modulo 20 and the stabilized distance is the mean of
    the window; the channel is the one that [deliver_distance] produces
    from 100.0. *)
Theorem C3_example_frame_with_header (g : globals) (b : byte) :
  well_formed g = true ->
  state g = WAITING_FOR_AC ->
  raw_dist_of x00 x00 x27 x10 = 10000
  /\ deliveries (example_frame_with b) g = [F32.of_int 100]
  /\ exists g10 gd,
       feed (example_frame_with b) g = Some g10
       /\ deliver_distance (F32.of_int 100) g = Some gd
       /\ distance_channel g10 = distance_channel gd
       /\ state g10 = WAITING_FOR_AC
       /\ distanceKalman g10 = fst (update (distanceKalman g) (F32.of_int 100))
       /\ distanceHistory g10
          = update_nth (Z.to_nat (distanceHistoryIndex g))
              (snd (update (distanceKalman g) (F32.of_int 100)))
              (distanceHistory g)
       /\ distanceHistoryIndex g10
          = (distanceHistoryIndex g + 1) mod HISTORY_SIZE
       /\ stable_distance_mm g10 = mean20 (distanceHistory g10).
Proof.
  intros W S. split; [reflexivity|].
  change (example_frame_with b)
    with ([xac; xca; b; x00; x00; x27; x10; x01; xdc] ++ [xcd]).
  rewrite deliveries_app, feed_app.
  rewrite deliveries_sync_and_seven by assumption.
  destruct (feed_sync_and_seven g b x00 x00 x27 x10 x01 xdc W S) as (q7 & ->).
  destruct (eighth_byte g b x00 x00 x27 x10 x01 xdc q7 xcd) as (M & D).
  cbn [deliveries feed processDistanceSensor app].
  rewrite M, D.
  change (negb (Byte.eqb x01 x00) && Byte.eqb xdc xdc && Byte.eqb xcd xcd)
    with true.
  change (F32.div (F32.of_int (raw_dist_of x00 x00 x27 x10)) (F32.of_int 100))
    with (F32.of_int 100).
  destruct (deliver_distance_total (F32.of_int 100) g W) as (gd & Dd & _).
  pose proof (deliver_distance_effect (F32.of_int 100) g gd W Dd)
    as (Ek & Eh & Ei & Es).
  rewrite Dd. cbn [option_map]. split; [reflexivity|].
  eexists _, gd. split; [reflexivity|]. split; [reflexivity|].
  split; [reflexivity|]. split; [reflexivity|].
  split; [exact Ek|]. split; [exact Eh|]. split; [exact Ei | exact Es].
Qed.

(** ** What each function leaves alone *)

Lemma processForceSensor_frame adc g g' :
  processForceSensor adc g = Some g' ->
  distance_channel g' = distance_channel g
  /\ bufferIsFull g' = bufferIsFull g
  /\ lastSendTime g' = lastSendTime g
  /\ state g' = state g
  /\ payloadBuffer g' = payloadBuffer g
  /\ bufferIndex g' = bufferIndex g
  /\ forceHistoryIndex g' = (forceHistoryIndex g + 1) mod HISTORY_SIZE.
Proof.
  unfold processForceSensor.
  destruct (update _ _) as [kf kv].
  destruct (store _ _ _) as [h|]; [|discriminate].
  destruct (sum_history h); [|discriminate].
  intros [= <-]. repeat split.
Qed.

Lemma deliver_distance_index z g g' :
  deliver_distance z g = Some g' ->
  distanceHistoryIndex g' = (distanceHistoryIndex g + 1) mod HISTORY_SIZE.
Proof.
  unfold deliver_distance.
  destruct (update _ _) as [kf kv].
  destruct (store _ _ _) as [h|]; [|discriminate].
  destruct (sum_history h); [|discriminate].
  intros [= <-]. reflexivity.
Qed.

Lemma processDistanceSensor_channels ir0 g g' :
  processDistanceSensor ir0 g = Some g' ->
  force_channel g' = force_channel g
  /\ bufferIsFull g' = bufferIsFull g
  /\ lastSendTime g' = lastSendTime g
  /\ match ir0 with
     | Some b =>
         match measurement_on b g with
         | Some z =>
             exists gd, deliver_distance z g = Some gd
                        /\ distance_channel g' = distance_channel gd
         | None => distance_channel g' = distance_channel g
         end
     | None => distance_channel g' = distance_channel g
     end.
Proof.
  destruct ir0 as [b|]; cbn [processDistanceSensor].
  - apply decode_byte_channels.
  - intros [= <-]. repeat split.
Qed.

Lemma sendAllData_cases adc g :
  (bufferIsFull g = false
   /\ sendAllData adc g =
      (set_bufferIsFull
         ((HISTORY_SIZE - 1 <=? distanceHistoryIndex g)
          || (HISTORY_SIZE - 1 <=? forceHistoryIndex g)) g, []))
  \/ (bufferIsFull g = true
      /\ sendAllData adc g =
         (g, record_calls (stable_force_N g) (stable_distance_mm g)
               (processPressureSensor adc))).
Proof.
  unfold sendAllData. destruct (bufferIsFull g) eqn:B; cbn [negb].
  - right. auto.
  - left. split; [reflexivity|].
    destruct (_ || _); [reflexivity|].
    destruct g; cbn in B; subst; reflexivity.
Qed.

(** One pass of [loop], taken apart. *)
Lemma loop_inv i g g' out :
  loop i g = Some (g', out) ->
  exists g1 g2,
    processDistanceSensor (ir i) g = Some g1
    /\ processForceSensor (force_adc i) g1 = Some g2
    /\ ((tick_due i g2 = false /\ g' = g2 /\ out = [])
        \/ (tick_due i g2 = true
            /\ sendAllData (pressure_adc i)
                 (set_lastSendTime (to_ulong (millis_stamp i)) g2)
               = (g', out))).
Proof.
  unfold loop.
  destruct (processDistanceSensor (ir i) g) as [g1|] eqn:D; [|discriminate].
  destruct (processForceSensor (force_adc i) g1) as [g2|] eqn:F; [|discriminate].
  destruct (tick_due i g2) eqn:T; intros E; exists g1, g2.
  - split; [reflexivity|]. split; [exact F|]. right.
    split; [exact T|]. congruence.
  - split; [reflexivity|]. split; [exact F|]. left.
    inversion E; subst. auto.
Qed.

(** What one pass does to the flag, the distance channel and the
    output. *)
Lemma loop_effect i g g' out :
  loop i g = Some (g', out) ->
  (if delivers i g
   then exists z gd, deliver_distance z g = Some gd
                     /\ distance_channel g' = distance_channel gd
   else distance_channel g' = distance_channel g)
  /\ forceHistoryIndex g' = (forceHistoryIndex g + 1) mod HISTORY_SIZE
  /\ ((out = [] /\ (bufferIsFull g = true -> bufferIsFull g' = true))
      \/ (bufferIsFull g = true /\ bufferIsFull g' = true
          /\ out = record_calls (stable_force_N g') (stable_distance_mm g')
                     (processPressureSensor (pressure_adc i)))).
Proof.
  intros L. apply loop_inv in L as (g1 & g2 & D & F & T).
  apply processDistanceSensor_channels in D as (Df & Db & Dl & Dd).
  apply processForceSensor_frame in F as (Fd & Fb & Fl & Fs & Fp & Fi & Fx).
  assert (Hd : distance_channel g2 = distance_channel g' /\
          forceHistoryIndex g2 = forceHistoryIndex g' /\
          ((out = [] /\ (bufferIsFull g2 = true -> bufferIsFull g' = true))
           \/ (bufferIsFull g2 = true /\ bufferIsFull g' = true
               /\ out = record_calls (stable_force_N g') (stable_distance_mm g')
                          (processPressureSensor (pressure_adc i))))).
  { destruct T as [(_ & -> & ->) | (_ & S)]; [auto|].
    destruct (sendAllData_cases (pressure_adc i)
                (set_lastSendTime (to_ulong (millis_stamp i)) g2))
      as [(B & E) | (B & E)]; rewrite E in S; inversion S; subst; cbn in *.
    - split; [reflexivity|]. split; [reflexivity|]. left. split; [reflexivity|].
      congruence.
    - auto 10. }
  destruct Hd as (Hd & Hi & Ho).
  split; [|split].
  - unfold delivers. destruct (ir i) as [b|].
    + destruct (measurement_on b g) as [z|].
      * destruct Dd as (gd & Dd & Dc). exists z, gd. split; [exact Dd|]. congruence.
      * congruence.
    + congruence.
  - rewrite <- Hi, Fx. f_equal. f_equal.
    unfold force_channel in Df. congruence.
  - rewrite Fb, Db in Ho. exact Ho.
Qed.

(** ** Output of a run *)

Lemma records_record_calls f d p out :
  records (record_calls f d p ++ out) = (f, d, p) :: records out.
Proof. reflexivity. Qed.

Lemma loop_output i g g' out :
  loop i g = Some (g', out) ->
  out = []
  \/ (bufferIsFull g = true
      /\ out = record_calls (stable_force_N g') (stable_distance_mm g')
                 (processPressureSensor (pressure_adc i))).
Proof.
  intros L. apply loop_effect in L as (_ & _ & [(-> & _) | (B & _ & ->)]); auto.
Qed.

Lemma loop_keeps_streaming i g g' out :
  loop i g = Some (g', out) -> bufferIsFull g = true -> bufferIsFull g' = true.
Proof.
  intros L B. apply loop_effect in L as (_ & _ & [(_ & H) | (_ & H & _)]); auto.
Qed.

Lemma run_keeps_streaming ins : forall g g' out,
  run ins g = Some (g', out) -> bufferIsFull g = true -> bufferIsFull g' = true.
Proof.
  induction ins as [|i rest IH]; intros g g' out R B; cbn [run] in R.
  - injection R as <- <-. exact B.
  - destruct (loop i g) as [[g1 out1]|] eqn:L; [|discriminate].
    destruct (run rest g1) as [[g2 out2]|] eqn:R2; [|discriminate].
    injection R as <- <-.
    eapply IH; [exact R2|]. eapply loop_keeps_streaming; eauto.
Qed.

(** The sensors do not touch [lastSendTime], so whether the tick is due can
    be read off the state at the start of the pass. *)
Lemma tick_due_after_sensors i g g1 g2 :
  processDistanceSensor (ir i) g = Some g1 ->
  processForceSensor (force_adc i) g1 = Some g2 ->
  tick_due i g2 = tick_due i g.
Proof.
  intros D F.
  apply processDistanceSensor_channels in D as (_ & _ & Dl & _).
  apply processForceSensor_frame in F as (_ & _ & Fl & _).
  unfold tick_due. rewrite Fl, Dl. reflexivity.
Qed.

Lemma loop_tick i g g' out :
  loop i g = Some (g', out) ->
  (tick_due i g = false -> out = [] /\ bufferIsFull g' = bufferIsFull g)
  /\ (tick_due i g = true -> bufferIsFull g = true ->
      out = record_calls (stable_force_N g') (stable_distance_mm g')
              (processPressureSensor (pressure_adc i)))
  /\ (tick_due i g = true -> bufferIsFull g = false ->
      out = []
      /\ bufferIsFull g' =
         (HISTORY_SIZE - 1 <=? distanceHistoryIndex g')
         || (HISTORY_SIZE - 1 <=? forceHistoryIndex g')).
Proof.
  intros L. apply loop_inv in L as (g1 & g2 & D & F & T).
  rewrite <- (tick_due_after_sensors i g g1 g2 D F).
  apply processDistanceSensor_channels in D as (_ & Db & _).
  apply processForceSensor_frame in F as (_ & Fb & _).
  assert (B2 : bufferIsFull g2 = bufferIsFull g) by congruence.
  destruct T as [(T & -> & ->) | (T & S)]; rewrite T.
  - repeat split; auto; discriminate.
  - split; [discriminate|].
    destruct (sendAllData_cases (pressure_adc i)
                (set_lastSendTime (to_ulong (millis_stamp i)) g2))
      as [(B & E) | (B & E)]; rewrite E in S; inversion S; subst; cbn in *.
    + split; intros _ B'; [congruence|]. auto.
    + split; intros _ B'; [reflexivity|congruence].
Qed.

(** ** C7: streaming is final, and every streaming tick prints one record *)

(** C7. Once [bufferIsFull] is set it stays set over any further passes,
    and every later pass on which the tick is due prints exactly the five
    calls of one record: the stabilized force with 2 digits, a comma, the
    stabilized distance with 2 digits, a comma, and the pressure sampled
    on that pass with 3 digits, ended by [println]. A pass on which the
    tick is not due prints nothing. *)
Theorem C7_streaming_is_final
  (printFloat : float -> nat -> string)
  (ins : list loop_input) (i : loop_input)
  (g g1 g2 : globals) (out1 out2 : list serial_call) :
  bufferIsFull g = true ->
  run ins g = Some (g1, out1) ->
  loop i g1 = Some (g2, out2) ->
  bufferIsFull g1 = true
  /\ bufferIsFull g2 = true
  /\ (tick_due i g1 = true ->
      out2 = record_calls (stable_force_N g2) (stable_distance_mm g2)
               (processPressureSensor (pressure_adc i))
      /\ render printFloat out2 =
         record_line printFloat (stable_force_N g2) (stable_distance_mm g2)
           (mapFloat (F32.of_int (pressure_adc i)) F32.zero (F32.of_int 1023)
              F32.zero (F32.of_int 1))
      /\ List.length (records out2) = 1%nat)
  /\ (tick_due i g1 = false -> out2 = []).
Proof.
  intros B R L.
  assert (B1 : bufferIsFull g1 = true) by (eapply run_keeps_streaming; eauto).
  split; [exact B1|].
  split; [eapply loop_keeps_streaming; eauto|].
  destruct (loop_tick _ _ _ _ L) as (Tn & Ty & _).
  split.
  - intros T. rewrite (Ty T B1). repeat split.
  - intros T. apply Tn. exact T.
Qed.

(** ** C8: what a byte can and cannot change *)

Lemma run_no_delivery ins : forall g g' out,
  run ins g = Some (g', out) ->
  distance_writes ins g = 0%nat ->
  distance_channel g' = distance_channel g
  /\ Forall (fun r => snd (fst r) = stable_distance_mm g) (records out).
Proof.
  induction ins as [|i rest IH]; intros g g' out R W; cbn [run] in R.
  - injection R as <- <-. split; [reflexivity|constructor].
  - cbn [distance_writes] in W.
    destruct (loop i g) as [[g1 out1]|] eqn:L; [|discriminate].
    destruct (run rest g1) as [[g2 out2]|] eqn:R2; [|discriminate].
    injection R as <- <-.
    destruct (delivers i g) eqn:Dv; [lia|]. cbn in W.
    destruct (IH _ _ _ R2 W) as (C2 & F2).
    pose proof (loop_effect _ _ _ _ L) as (C1 & _). rewrite Dv in C1.
    assert (S1 : stable_distance_mm g1 = stable_distance_mm g)
      by (unfold distance_channel in C1; congruence).
    split; [congruence|].
    rewrite S1 in F2.
    destruct (loop_output _ _ _ _ L) as [-> | (_ & ->)]; [exact F2|].
    rewrite records_record_calls. constructor; [exact S1 | exact F2].
Qed.

(** C8. A call of [processDistanceSensor] that does not complete a valid
    frame (no byte, or a byte on which [measurement_on] is [None]) leaves
    the whole distance channel as it was: filter, history, index and
    stabilized value. If no valid frame arrives during a run from
    power-up, the stabilized distance is still -1.0 and every record
    printed carries -1.0 in its distance field. No call of
    [processDistanceSensor] changes the force channel. *)
Theorem C8_distance_channel_frame :
  (forall ir0 g g',
      processDistanceSensor ir0 g = Some g' ->
      (forall b, ir0 = Some b -> measurement_on b g = None) ->
      distance_channel g' = distance_channel g)
  /\ (forall ins g out,
        sketch ins = Some (g, out) ->
        distance_writes ins initial = 0%nat ->
        distance_channel g = distance_channel initial
        /\ stable_distance_mm g = F32.of_int (-1)
        /\ Forall (fun r => snd (fst r) = F32.of_int (-1)) (records out))
  /\ (forall ir0 g g',
        processDistanceSensor ir0 g = Some g' ->
        force_channel g' = force_channel g).
Proof.
  split; [|split].
  - intros ir0 g g' D N.
    apply processDistanceSensor_channels in D as (_ & _ & _ & D).
    destruct ir0 as [b|]; [|exact D].
    rewrite (N b eq_refl) in D. exact D.
  - intros ins g out S W. unfold sketch in S. cbn [setup] in S.
    destruct (run ins initial) as [[g' out']|] eqn:R; [|discriminate].
    injection S as <- <-.
    destruct (run_no_delivery _ _ _ _ R W) as (C & F).
    split; [exact C|]. split.
    + unfold distance_channel in C. injection C as _ _ _ ->. reflexivity.
    + exact F.
  - intros ir0 g g' D.
    apply processDistanceSensor_channels in D as (F & _). exact F.
Qed.

(** ** Counting the writes *)

Lemma delivers_index i g g' out :
  loop i g = Some (g', out) ->
  distanceHistoryIndex g' =
  if delivers i g
  then (distanceHistoryIndex g + 1) mod HISTORY_SIZE
  else distanceHistoryIndex g.
Proof.
  intros L. apply loop_effect in L as (D & _).
  destruct (delivers i g).
  - destruct D as (z & gd & Dd & C).
    apply deliver_distance_index in Dd.
    unfold distance_channel in C. congruence.
  - unfold distance_channel in D. congruence.
Qed.

Lemma succ_mod n : (n mod HISTORY_SIZE + 1) mod HISTORY_SIZE = (n + 1) mod HISTORY_SIZE.
Proof. unfold HISTORY_SIZE. rewrite Z.add_mod_idemp_l by lia. reflexivity. Qed.

(** The indices are the numbers of writes modulo 20, and nothing is printed
    and the flag is not set before one of the counts has reached 19. Here
    [nf] and [nd] count the writes before the run. *)
Lemma run_counts ins : forall g g' out nf nd,
  run ins g = Some (g', out) ->
  forceHistoryIndex g = nf mod HISTORY_SIZE ->
  distanceHistoryIndex g = nd mod HISTORY_SIZE ->
  0 <= nf -> 0 <= nd ->
  (bufferIsFull g = true -> 19 <= nf \/ 19 <= nd) ->
  let nf' := nf + Z.of_nat (force_writes ins) in
  let nd' := nd + Z.of_nat (distance_writes ins g) in
  forceHistoryIndex g' = nf' mod HISTORY_SIZE
  /\ distanceHistoryIndex g' = nd' mod HISTORY_SIZE
  /\ (bufferIsFull g' = true -> 19 <= nf' \/ 19 <= nd')
  /\ (out <> [] -> 19 <= nf' \/ 19 <= nd').
Proof.
  unfold force_writes.
  induction ins as [|i rest IH]; intros g g' out nf nd R If Id Pf Pd B;
    cbn [run] in R; cbn [distance_writes List.length].
  - injection R as <- <-. cbn. rewrite !Z.add_0_r. intuition congruence.
  - destruct (loop i g) as [[g1 out1]|] eqn:L; [|discriminate].
    destruct (run rest g1) as [[g2 out2]|] eqn:R2; [|discriminate].
    injection R as <- <-.
    pose proof (loop_effect _ _ _ _ L) as (_ & Fi & _).
    pose proof (delivers_index _ _ _ _ L) as Di.
    pose proof (loop_tick _ _ _ _ L) as (Tn & Ty & Tb).
    pose proof (loop_output _ _ _ _ L) as O.
    set (k := if delivers i g then 1 else 0) in *.
    assert (Hk : 0 <= k <= 1) by (unfold k; destruct (delivers i g); lia).
    assert (If1 : forceHistoryIndex g1 = (nf + 1) mod HISTORY_SIZE)
      by (rewrite Fi, If; apply succ_mod).
    assert (Id1 : distanceHistoryIndex g1 = (nd + k) mod HISTORY_SIZE).
    { rewrite Di, Id. unfold k. destruct (delivers i g).
      - apply succ_mod.
      - rewrite Z.add_0_r. reflexivity. }
    assert (B1 : bufferIsFull g1 = true -> 19 <= nf + 1 \/ 19 <= nd + k).
    { intros B1. destruct (bufferIsFull g) eqn:Bg.
      - specialize (B eq_refl). lia.
      - destruct (tick_due i g) eqn:T.
        + destruct (Tb eq_refl eq_refl) as (_ & E). rewrite B1 in E.
          symmetry in E. apply orb_true_iff in E.
          rewrite !Z.leb_le, If1, Id1 in E. unfold HISTORY_SIZE in E.
          destruct E as [E|E]; [right|left].
          * pose proof (Z.mod_le (nd + k) 20). lia.
          * pose proof (Z.mod_le (nf + 1) 20). lia.
        + destruct (Tn eq_refl) as (_ & E). congruence. }
    specialize (IH g1 g2 out2 (nf + 1) (nd + k) R2 If1 Id1
                  ltac:(lia) ltac:(lia) B1).
    cbv zeta in IH. destruct IH as (F2 & D2 & B2 & O2).
    replace (nf + Z.of_nat (S (List.length rest)))
      with (nf + 1 + Z.of_nat (List.length rest)) by lia.
    replace (nd + Z.of_nat ((if delivers i g then 1 else 0)
                            + distance_writes rest g1))
      with (nd + k + Z.of_nat (distance_writes rest g1))
      by (unfold k; destruct (delivers i g); lia).
    split; [exact F2|]. split; [exact D2|]. split; [exact B2|].
    intros N. destruct out1 as [|c out1].
    + apply O2. exact N.
    + destruct O as [O | (Bg & _)]; [discriminate|].
      specialize (B Bg). lia.
Qed.


(** ** C6: what has been written before the first record *)



(** ** C2: leaving the buffering state *)

(** What [sendAllData] does while buffering: it prints nothing, and it
    sets the flag exactly when one of the two write indices is 19 or
    more at that moment. *)
Lemma sendAllData_buffering adc g :
  bufferIsFull g = false ->
  snd (sendAllData adc g) = []
  /\ (bufferIsFull (fst (sendAllData adc g)) = true
      <-> 19 <= distanceHistoryIndex g \/ 19 <= forceHistoryIndex g).
Proof.
  intros B.
  destruct (sendAllData_cases adc g) as [(_ & ->) | (B' & _)]; [|congruence].
  cbn. split; [reflexivity|].
  rewrite orb_true_iff, !Z.leb_le. unfold HISTORY_SIZE. lia.
Qed.

(** A tick while buffering, in terms of the writes so far: the flag is
    set exactly when the number of writes into one of the windows, this
    pass included, is 19 modulo 20. *)
Lemma buffering_tick_sets_flag_iff ins g out i g' out' :
  run ins initial = Some (g, out) ->
  loop i g = Some (g', out') ->
  bufferIsFull g = false ->
  tick_due i g = true ->
  out' = []
  /\ (bufferIsFull g' = true <->
      (Z.of_nat (force_writes ins) + 1) mod HISTORY_SIZE = 19
      \/ (Z.of_nat (distance_writes ins initial)
          + (if delivers i g then 1 else 0)) mod HISTORY_SIZE = 19).
Proof.
  intros R L B T.
  destruct (run_counts ins initial g out 0 0 R eq_refl eq_refl
              ltac:(lia) ltac:(lia) ltac:(discriminate)) as (If & Id & _).
  cbn [Z.add] in If, Id.
  pose proof (loop_effect _ _ _ _ L) as (_ & Fi & _).
  pose proof (delivers_index _ _ _ _ L) as Di.
  destruct (loop_tick _ _ _ _ L) as (_ & _ & Tb).
  destruct (Tb T B) as (-> & E). split; [reflexivity|].
  set (k := if delivers i g then 1 else 0).
  assert (F' : forceHistoryIndex g'
               = (Z.of_nat (force_writes ins) + 1) mod HISTORY_SIZE)
    by (rewrite Fi, If; apply succ_mod).
  assert (D' : distanceHistoryIndex g'
               = (Z.of_nat (distance_writes ins initial) + k) mod HISTORY_SIZE).
  { rewrite Di, Id. unfold k. destruct (delivers i g); [apply succ_mod|].
    rewrite Z.add_0_r. reflexivity. }
  rewrite E, orb_true_iff, !Z.leb_le, F', D'.
  pose proof (Z.mod_pos_bound (Z.of_nat (force_writes ins) + 1) HISTORY_SIZE
                ltac:(reflexivity)).
  pose proof (Z.mod_pos_bound (Z.of_nat (distance_writes ins initial) + k)
                HISTORY_SIZE ltac:(reflexivity)).
  unfold HISTORY_SIZE in *. lia.
Qed.

(** C2 at a failing input. On [twenty_then_tick] the force window has been
    written 21 times when the first tick comes, its index has wrapped to
    1, and the scheduler stays in the buffering state. *)
Lemma C2_twenty_writes_still_buffering :
  match run twenty_then_tick initial with
  | Some (g, out) =>
      force_writes twenty_then_tick = 21%nat
      /\ tick_due (pass_at 100) initial = true
      /\ forceHistoryIndex g = 1
      /\ bufferIsFull g = false
      /\ out = []
  | None => False
  end.
Proof.
  vm_compute. repeat split.
Qed.

(** ** C4: the stabilized reading is the mean of the whole window *)

Lemma update_nth_app {A} (pre : list A) x post v :
  update_nth (List.length pre) v (pre ++ x :: post) = pre ++ v :: post.
Proof. induction pre as [|h t IH]; cbn; [reflexivity|]. rewrite IH. reflexivity. Qed.

Lemma window_push_at pre x post v :
  Z.of_nat (List.length (pre ++ x :: post)) = HISTORY_SIZE ->
  window_push (pre ++ x :: post) (Z.of_nat (List.length pre)) v =
  Some (pre ++ v :: post,
        (Z.of_nat (List.length pre) + 1) mod HISTORY_SIZE,
        mean20 (pre ++ v :: post)).
Proof.
  intros L. unfold window_push.
  assert (L' : List.length (pre ++ v :: post) = List.length (pre ++ x :: post))
    by (rewrite !length_app; reflexivity).
  rewrite store_in_bounds
    by (rewrite length_app in *; cbn [List.length] in *; lia).
  rewrite Nat2Z.id, update_nth_app.
  rewrite sum_history_full by (rewrite L'; exact L).
  reflexivity.
Qed.

(** Pushing the values [vs] one after the other overwrites as many slots,
    starting at the index, and the reading is the mean of the window as it
    then stands. *)
Lemma window_push_all_at vs : forall pre rest s,
  Z.of_nat (List.length (pre ++ rest)) = HISTORY_SIZE ->
  (List.length vs <= List.length rest)%nat ->
  vs <> [] ->
  window_push_all vs (pre ++ rest, Z.of_nat (List.length pre), s) =
  Some (pre ++ vs ++ skipn (List.length vs) rest,
        Z.of_nat (List.length pre + List.length vs) mod HISTORY_SIZE,
        mean20 (pre ++ vs ++ skipn (List.length vs) rest)).
Proof.
  induction vs as [|v vs IH]; intros pre rest s L Le N; [contradiction|].
  destruct rest as [|x post]; [cbn in Le; lia|].
  cbn [window_push_all]. rewrite window_push_at by exact L.
  destruct vs as [|v' vs'].
  - cbn [window_push_all List.length skipn app].
    rewrite Nat2Z.inj_add. reflexivity.
  - assert (E : pre ++ v :: post = (pre ++ [v]) ++ post)
      by (rewrite <- app_assoc; reflexivity).
    assert (I : (Z.of_nat (List.length pre) + 1) mod HISTORY_SIZE
                = Z.of_nat (List.length (pre ++ [v]))).
    { rewrite length_app in *. cbn [List.length] in *.
      unfold HISTORY_SIZE in *. rewrite Z.mod_small; lia. }
    rewrite I, E.
    rewrite IH; [| |cbn [List.length] in *; lia|discriminate].
    + rewrite <- !app_assoc. cbn [app skipn].
      rewrite length_app. cbn [List.length].
      replace (List.length pre + 1 + S (List.length vs'))%nat
        with (List.length pre + S (S (List.length vs')))%nat by lia.
      reflexivity.
    + rewrite <- E. rewrite !length_app in *. exact L.
Qed.

Lemma add_zero_l_same v : F32.same_number (F32.add F32.zero v) v.
Proof.
  destruct v as [[|]| | |]; cbn;
    try (left; reflexivity); right; eauto.
Qed.

Lemma add_zero_l_not_neg_zero v :
  F32.add F32.zero v <> S754_zero true.
Proof. destruct v as [[|]|[|]| |[|] m e]; cbn; discriminate. Qed.

Lemma add_zero_r w : w <> S754_zero true -> F32.add w F32.zero = w.
Proof. destruct w as [[|]|[|]| |[|] m e]; cbn; congruence. Qed.

Lemma fold_add_zeros n : forall w,
  w <> S754_zero true ->
  fold_left F32.add (repeat F32.zero n) w = w.
Proof.
  induction n as [|n IH]; intros w N; cbn [repeat fold_left]; [reflexivity|].
  rewrite add_zero_r by exact N. apply IH. exact N.
Qed.

Lemma div_same_number a b c :
  F32.same_number a b -> F32.same_number (F32.div a c) (F32.div b c).
Proof.
  intros [-> | (s & t & -> & ->)]; [left; reflexivity|].
  destruct c as [u|u| |u m e]; cbn; try (left; reflexivity); right; eauto.
Qed.

Lemma float_sum_cons v l :
  float_sum (v :: l) = fold_left F32.add l (F32.add F32.zero v).
Proof. reflexivity. Qed.

(** The reading after one value in a fresh window. *)
Lemma mean20_single v :
  F32.same_number (mean20 (v :: repeat F32.zero 19))
                  (F32.div v (F32.of_int HISTORY_SIZE)).
Proof.
  unfold mean20. rewrite float_sum_cons.
  rewrite fold_add_zeros by apply add_zero_l_not_neg_zero.
  apply div_same_number, add_zero_l_same.
Qed.

(** Both channels push through the window in the same way. *)
Lemma processForceSensor_window adc g g' :
  processForceSensor adc g = Some g' ->
  window_push (forceHistory g) (forceHistoryIndex g)
    (snd (update (forceKalman g)
            (mapFloat (F32.of_int adc) F32.zero (F32.of_int 1023)
                      F32.zero (F32.of_int 200))))
  = Some (forceHistory g', forceHistoryIndex g', stable_force_N g').
Proof.
  unfold processForceSensor, window_push.
  destruct (update _ _) as [kf kv]. cbn [snd].
  destruct (store _ _ _) as [h|]; [|discriminate].
  destruct (sum_history h); [|discriminate].
  intros [= <-]. reflexivity.
Qed.

Lemma deliver_distance_window z g g' :
  deliver_distance z g = Some g' ->
  window_push (distanceHistory g) (distanceHistoryIndex g)
    (snd (update (distanceKalman g) z))
  = Some (distanceHistory g', distanceHistoryIndex g', stable_distance_mm g').
Proof.
  unfold deliver_distance, window_push.
  destruct (update _ _) as [kf kv]. cbn [snd].
  destruct (store _ _ _) as [h|]; [|discriminate].
  destruct (sum_history h); [|discriminate].
  intros [= <-]. reflexivity.
Qed.

Lemma window_push_mean history index v h i s :
  window_push history index v = Some (h, i, s) ->
  Z.of_nat (List.length history) = HISTORY_SIZE ->
  s = mean20 h /\ Z.of_nat (List.length h) = HISTORY_SIZE
  /\ load h index = Some v.
Proof.
  unfold window_push. intros W L.
  destruct (store history index v) as [h'|] eqn:S; [|discriminate].
  pose proof (store_length _ _ _ _ S) as L'.
  rewrite sum_history_full in W by (rewrite L'; exact L).
  injection W as <- <- <-.
  split; [reflexivity|]. split; [rewrite L'; exact L|].
  eapply load_store_eq; eauto.
Qed.

(** C4. In a well-formed state, a push by either channel leaves as
    stabilized reading the sum of all 20 slots of its history, added from
    slot 0 upwards starting at 0.0, divided by 20; both channels push by
    [window_push]. After exactly 20 pushes into a fresh window the window
    holds exactly the 20 values pushed and the reading is their mean.
    After a single push of [v] into a fresh window the other 19 slots are
    still zero and the reading is the number v / 20. *)
Theorem C4_window_mean
  (g : globals) (adc : Z) (z : float) (vs : list float) (v s0 : float) :
  well_formed g = true ->
  List.length vs = 20%nat ->
  (exists g',
      processForceSensor adc g = Some g'
      /\ window_push (forceHistory g) (forceHistoryIndex g)
           (snd (update (forceKalman g)
                   (mapFloat (F32.of_int adc) F32.zero (F32.of_int 1023)
                             F32.zero (F32.of_int 200))))
         = Some (forceHistory g', forceHistoryIndex g', stable_force_N g')
      /\ Z.of_nat (List.length (forceHistory g')) = 20
      /\ stable_force_N g' =
         F32.div (fold_left F32.add (forceHistory g') F32.zero) (F32.of_int 20))
  /\ (exists g',
        deliver_distance z g = Some g'
        /\ window_push (distanceHistory g) (distanceHistoryIndex g)
             (snd (update (distanceKalman g) z))
           = Some (distanceHistory g', distanceHistoryIndex g',
                   stable_distance_mm g')
        /\ Z.of_nat (List.length (distanceHistory g')) = 20
        /\ stable_distance_mm g' =
           F32.div (fold_left F32.add (distanceHistory g') F32.zero)
                   (F32.of_int 20))
  /\ window_push_all vs (fresh_window, 0, s0) = Some (vs, 0, mean20 vs)
  /\ (exists s,
        window_push fresh_window 0 v = Some (v :: repeat F32.zero 19, 1, s)
        /\ s = mean20 (v :: repeat F32.zero 19)
        /\ F32.same_number s (F32.div v (F32.of_int 20))).
Proof.
  intros W Lvs. pose proof W as W0.
  apply well_formed_iff in W0 as (Ld & Lf & _).
  split; [|split; [|split]].
  - destruct (processForceSensor_total adc g W) as (g' & P & _).
    exists g'. split; [exact P|].
    pose proof (processForceSensor_window _ _ _ P) as Wp.
    split; [exact Wp|].
    destruct (window_push_mean _ _ _ _ _ _ Wp Lf) as (-> & L & _).
    split; [exact L | reflexivity].
  - destruct (deliver_distance_total z g W) as (g' & P & _).
    exists g'. split; [exact P|].
    pose proof (deliver_distance_window _ _ _ P) as Wp.
    split; [exact Wp|].
    destruct (window_push_mean _ _ _ _ _ _ Wp Ld) as (-> & L & _).
    split; [exact L | reflexivity].
  - pose proof (window_push_all_at vs [] fresh_window s0) as H.
    cbn [app List.length] in H. change (Z.of_nat 0) with 0 in H.
    rewrite H;
      [| reflexivity
       | rewrite Lvs; change (List.length fresh_window) with 20%nat; lia
       | intros ->; discriminate].
    rewrite Lvs. change (skipn 20 fresh_window) with (@nil float).
    rewrite app_nil_r. reflexivity.
  - exists (mean20 (v :: repeat F32.zero 19)).
    split; [|split; [reflexivity | apply mean20_single]].
    apply (window_push_at [] F32.zero (repeat F32.zero 19) v). reflexivity.
Qed.


(** * Rounding in binary32

    What follows is about [SpecFloat]'s rounding: a right shift to the
    exponent that the format prescribes, rounding to nearest even, and a
    second shift in case the rounding carried into a new digit. The facts
    needed are that the result never crosses a number of the format that
    bounds the exact value from above or from below. *)

(** ** Number of binary digits *)

Lemma digits2_pos_bounds (p : positive) :
  2 ^ (Zpos (digits2_pos p) - 1) <= Zpos p < 2 ^ Zpos (digits2_pos p).
Proof.
  induction p as [p IH|p IH|]; cbn [digits2_pos].
  - rewrite Pos2Z.inj_succ. change (Zpos p~1) with (2 * Zpos p + 1).
    set (d := Zpos (digits2_pos p)) in *.
    assert (E1 : 2 ^ d = 2 * 2 ^ (d - 1))
      by (rewrite <- Z.pow_succ_r by lia; f_equal; lia).
    replace (Z.succ d - 1) with d by lia.
    rewrite Z.pow_succ_r by lia. lia.
  - rewrite Pos2Z.inj_succ. change (Zpos p~0) with (2 * Zpos p).
    set (d := Zpos (digits2_pos p)) in *.
    assert (E1 : 2 ^ d = 2 * 2 ^ (d - 1))
      by (rewrite <- Z.pow_succ_r by lia; f_equal; lia).
    replace (Z.succ d - 1) with d by lia.
    rewrite Z.pow_succ_r by lia. lia.
  - cbn. lia.
Qed.

Lemma Zdigits2_nonneg m : 0 <= Zdigits2 m.
Proof. destruct m; cbn; lia. Qed.

Lemma Zdigits2_bounds m :
  0 < m -> 2 ^ (Zdigits2 m - 1) <= m < 2 ^ Zdigits2 m.
Proof.
  destruct m as [|p|p]; try lia. intros _. apply digits2_pos_bounds.
Qed.

Lemma Zdigits2_pos m : 0 < m -> 0 < Zdigits2 m.
Proof. destruct m; cbn; lia. Qed.

(** [m < 2^k] bounds the digits by [k], and [2^k <= m] needs more than [k]. *)
Lemma Zdigits2_le_of_lt_pow m k :
  0 <= m -> 0 <= k -> m < 2 ^ k -> Zdigits2 m <= k.
Proof.
  intros Hm Hk H.
  destruct (Z.eq_dec m 0) as [->|N]; [cbn; lia|].
  destruct (Zdigits2_bounds m ltac:(lia)) as (L & _).
  destruct (Z_le_gt_dec (Zdigits2 m) k) as [|G]; [assumption|].
  assert (2 ^ k <= 2 ^ (Zdigits2 m - 1)) by (apply Z.pow_le_mono_r; lia).
  lia.
Qed.

Lemma Zdigits2_gt_of_pow_le m k :
  0 <= k -> 2 ^ k <= m -> k < Zdigits2 m.
Proof.
  intros Hk H.
  assert (0 < m) by (pose proof (Z.pow_pos_nonneg 2 k); lia).
  destruct (Zdigits2_bounds m ltac:(lia)) as (_ & U).
  destruct (Z_lt_le_dec k (Zdigits2 m)) as [|G]; [assumption|].
  assert (2 ^ Zdigits2 m <= 2 ^ k) by (apply Z.pow_le_mono_r; lia).
  lia.
Qed.

Lemma Zdigits2_mono a b : 0 <= a <= b -> Zdigits2 a <= Zdigits2 b.
Proof.
  intros H.
  destruct (Z.eq_dec b 0) as [->|N].
  - replace a with 0 by lia. lia.
  - destruct (Zdigits2_bounds b ltac:(lia)) as (_ & U).
    apply Zdigits2_le_of_lt_pow; try lia. apply Zdigits2_nonneg.
Qed.

Lemma Zdigits2_mul_pow2 m k :
  0 < m -> 0 <= k -> Zdigits2 (m * 2 ^ k) = Zdigits2 m + k.
Proof.
  intros Hm Hk.
  destruct (Zdigits2_bounds m Hm) as (L & U).
  pose proof (Zdigits2_pos m Hm) as P.
  pose proof (Z.pow_pos_nonneg 2 k ltac:(lia) Hk) as Pk.
  apply Z.le_antisymm.
  - apply Zdigits2_le_of_lt_pow; try nia.
    rewrite Z.pow_add_r by lia. nia.
  - assert (Zdigits2 m + k - 1 < Zdigits2 (m * 2 ^ k)); [|lia].
    apply Zdigits2_gt_of_pow_le; [lia|].
    replace (Zdigits2 m + k - 1) with (Zdigits2 m - 1 + k) by lia.
    rewrite Z.pow_add_r by lia. nia.
Qed.

Lemma Zdigits2_div_pow2 m n :
  0 <= m -> 0 <= n -> n < Zdigits2 m -> Zdigits2 (m / 2 ^ n) = Zdigits2 m - n.
Proof.
  intros Hm Hn H.
  assert (0 < m) by (destruct m; cbn in H; lia).
  destruct (Zdigits2_bounds m ltac:(lia)) as (L & U).
  pose proof (Z.pow_pos_nonneg 2 n ltac:(lia) Hn) as Pn.
  apply Z.le_antisymm.
  - apply Zdigits2_le_of_lt_pow; try lia.
    + apply Z.div_pos; lia.
    + apply Z.div_lt_upper_bound; [lia|].
      rewrite <- Z.pow_add_r by lia. replace (n + (Zdigits2 m - n)) with (Zdigits2 m) by lia.
      exact (proj2 (conj L U)).
  - assert (Zdigits2 m - n - 1 < Zdigits2 (m / 2 ^ n)); [|lia].
    apply Zdigits2_gt_of_pow_le; [lia|].
    apply Z.div_le_lower_bound; [lia|].
    rewrite <- Z.pow_add_r by lia. replace (n + (Zdigits2 m - n - 1)) with (Zdigits2 m - 1) by lia.
    exact L.
Qed.

(** ** Shifting a mantissa to the right *)

Lemma iter_pos_eq {A} (f : A -> A) p : forall x, iter_pos f p x = Pos.iter f x p.
Proof.
  induction p as [p IH|p IH|]; intros x; cbn [iter_pos Pos.iter].
  - rewrite !IH, !Pos.iter_swap. reflexivity.
  - rewrite !IH. reflexivity.
  - reflexivity.
Qed.

Lemma shr_1_m mrs : 0 <= shr_m mrs -> shr_m (shr_1 mrs) = shr_m mrs / 2.
Proof.
  destruct mrs as [m r s]. cbn [shr_m]. intros H.
  rewrite <- Z.div2_div.
  destruct m as [|[p|p|]|p]; try reflexivity; lia.
Qed.

Lemma shr_m_iter p : forall mrs,
  0 <= shr_m mrs -> shr_m (Pos.iter shr_1 mrs p) = shr_m mrs / 2 ^ Zpos p.
Proof.
  induction p as [|p IH] using Pos.peano_ind; intros mrs H.
  - cbn [Pos.iter]. rewrite shr_1_m by exact H. reflexivity.
  - rewrite Pos.iter_succ, shr_1_m.
    + rewrite IH by exact H. rewrite Pos2Z.inj_succ, Z.pow_succ_r by lia.
      rewrite Z.div_div by (try apply Z.pow_pos_nonneg; lia).
      f_equal. lia.
    + rewrite IH by exact H. apply Z.div_pos; [exact H|].
      apply Z.pow_pos_nonneg; lia.
Qed.

Lemma shr_1_exact mrs :
  shr_r mrs = false -> shr_s mrs = false -> 0 <= shr_m mrs ->
  shr_m mrs mod 2 = 0 ->
  shr_r (shr_1 mrs) = false /\ shr_s (shr_1 mrs) = false.
Proof.
  destruct mrs as [m r s]. cbn [shr_m shr_r shr_s]. intros -> -> H E.
  destruct m as [|[p|p|]|p]; cbn; auto; try lia.
  - rewrite Pos2Z.inj_xI in E. rewrite Z.add_comm, Z.mul_comm, Z.mod_add in E by lia.
    discriminate.
  - discriminate.
Qed.

Lemma shr_iter_exact p : forall mrs,
  shr_r mrs = false -> shr_s mrs = false -> 0 <= shr_m mrs ->
  shr_m mrs mod 2 ^ Zpos p = 0 ->
  shr_r (Pos.iter shr_1 mrs p) = false /\ shr_s (Pos.iter shr_1 mrs p) = false.
Proof.
  induction p as [|p IH] using Pos.peano_ind; intros mrs R S H E.
  - cbn [Pos.iter]. apply shr_1_exact; auto.
  - rewrite Pos.iter_succ_r.
    rewrite Pos2Z.inj_succ, Z.pow_succ_r in E by lia.
    assert (P : 0 < 2 ^ Zpos p) by (apply Z.pow_pos_nonneg; lia).
    apply Z.mod_divide in E; [|lia]. destruct E as (k & E).
    assert (E2 : shr_m mrs mod 2 = 0).
    { rewrite E. replace (k * (2 * 2 ^ Zpos p)) with (k * 2 ^ Zpos p * 2) by lia.
      apply Z.mod_mul. lia. }
    destruct (shr_1_exact mrs R S H E2) as (R1 & S1).
    apply IH; auto.
    + rewrite shr_1_m by exact H. apply Z.div_pos; lia.
    + rewrite shr_1_m by exact H. rewrite E.
      replace (k * (2 * 2 ^ Zpos p)) with (k * 2 ^ Zpos p * 2) by lia.
      rewrite Z.div_mul by lia. apply Z.mod_mul. lia.
Qed.

Lemma shr_record_of_loc_m m l : shr_m (shr_record_of_loc m l) = m.
Proof. destruct l as [|[| |]]; reflexivity. Qed.

Lemma loc_of_shr_record_of_loc m l :
  loc_of_shr_record (shr_record_of_loc m l) = l.
Proof. destruct l as [|[| |]]; reflexivity. Qed.

Lemma round_nearest_even_bounds m l :
  m <= round_nearest_even m l <= m + 1.
Proof.
  destruct l as [|[| |]]; cbn; try lia. destruct (Z.even m); lia.
Qed.

Lemma round_nearest_even_exact m : round_nearest_even m loc_Exact = m.
Proof. reflexivity. Qed.

Section Rounding.
Variables prec emax : Z.
Hypothesis prec_pos : 0 < prec.
Hypothesis prec_lt_emax : prec < emax.

Lemma fexp_spec e : fexp prec emax e = Z.max (e - prec) (emin prec emax).
Proof. reflexivity. Qed.

Lemma fexp_mono a b : a <= b -> fexp prec emax a <= fexp prec emax b.
Proof. rewrite !fexp_spec. lia. Qed.

(** The right shift of [shr_fexp], spelled out: by [n] positions when
    [n = fexp prec emax (digits m + e) - e] is positive, and not at all otherwise. *)
Lemma shr_fexp_shape m e l :
  0 <= m ->
  let n := fexp prec emax (Zdigits2 m + e) - e in
  (n <= 0 -> shr_fexp prec emax m e l = (shr_record_of_loc m l, e))
  /\ (0 < n ->
      exists mrs,
        shr_fexp prec emax m e l = (mrs, e + n)
        /\ shr_m mrs = m / 2 ^ n
        /\ (l = loc_Exact -> m mod 2 ^ n = 0 ->
            loc_of_shr_record mrs = loc_Exact)).
Proof.
  intros Hm n. unfold shr_fexp. fold n. unfold shr.
  destruct n as [|p|p] eqn:E.
  - split; [reflexivity | lia].
  - split; [lia|]. intros _.
    eexists. split; [reflexivity|].
    rewrite iter_pos_eq. split.
    + rewrite shr_m_iter; rewrite shr_record_of_loc_m; [reflexivity | exact Hm].
    + intros -> D.
      destruct (shr_iter_exact p (shr_record_of_loc m loc_Exact)) as (R & S);
        cbn [shr_record_of_loc shr_r shr_s shr_m]; auto.
      destruct (Pos.iter shr_1 _ p) as [m' r' s'].
      cbn [shr_r shr_s] in R, S. subst. reflexivity.
  - split; [reflexivity | lia].
Qed.

Lemma pow2_pos k : 0 <= k -> 0 < 2 ^ k.
Proof. intros H. apply Z.pow_pos_nonneg; lia. Qed.

Lemma shr_fexp_digits m e l mrs e' :
  0 <= m ->
  shr_fexp prec emax m e l = (mrs, e') ->
  0 <= shr_m mrs /\ Zdigits2 (shr_m mrs) <= prec
  /\ emin prec emax <= e' /\ e <= e' /\ shr_m mrs <= m.
Proof.
  intros Hm E.
  destruct (shr_fexp_shape m e l Hm) as (S0 & S1). cbv zeta in S0, S1.
  pose proof (fexp_spec (Zdigits2 m + e)) as F.
  pose proof (Zdigits2_nonneg m) as Dm.
  destruct (Z_le_gt_dec (fexp prec emax (Zdigits2 m + e) - e) 0) as [L|G].
  - rewrite (S0 L) in E. injection E as <- <-.
    rewrite shr_record_of_loc_m. repeat split; lia.
  - destruct (S1 ltac:(lia)) as (mrs1 & E1 & M1 & _).
    rewrite E1 in E. injection E as <- <-.
    set (n := fexp prec emax (Zdigits2 m + e) - e) in *.
    pose proof (pow2_pos n ltac:(lia)) as Pn.
    assert (0 <= m / 2 ^ n) by (apply Z.div_pos; lia).
    assert (m / 2 ^ n <= m).
    { apply Z.div_le_upper_bound; [lia|]. nia. }
    rewrite M1. repeat split; try lia.
    destruct (Z_lt_le_dec n (Zdigits2 m)) as [Ln|Gn].
    + rewrite Zdigits2_div_pow2 by lia. lia.
    + replace (m / 2 ^ n) with 0; [cbn; lia|].
      symmetry. apply Z.div_small. split; [lia|].
      destruct (Z.eq_dec m 0) as [->|N]; [lia|].
      destruct (Zdigits2_bounds m ltac:(lia)) as (_ & U).
      assert (2 ^ Zdigits2 m <= 2 ^ n) by (apply Z.pow_le_mono_r; lia).
      lia.
Qed.

(** An upper bound that the format can represent survives the shift: if
    the number [m * 2^e], with its location, is at most [my * 2^ey], then
    so is the truncated number, and where they are equal nothing was cut
    off. *)
Lemma shr_fexp_upper m e l my ey mrs e' :
  0 <= m -> e <= ey -> 0 < my -> Zdigits2 my <= prec ->
  emin prec emax <= ey ->
  (m < my * 2 ^ (ey - e) \/ (m = my * 2 ^ (ey - e) /\ l = loc_Exact)) ->
  shr_fexp prec emax m e l = (mrs, e') ->
  e <= e' <= ey
  /\ (shr_m mrs < my * 2 ^ (ey - e')
      \/ (shr_m mrs = my * 2 ^ (ey - e')
          /\ loc_of_shr_record mrs = loc_Exact)).
Proof.
  intros Hm He Hmy Dy Ey B E.
  destruct (shr_fexp_shape m e l Hm) as (S0 & S1). cbv zeta in S0, S1.
  destruct (Z_le_gt_dec (fexp prec emax (Zdigits2 m + e) - e) 0) as [L|G].
  - rewrite (S0 L) in E. injection E as <- <-.
    rewrite shr_record_of_loc_m, loc_of_shr_record_of_loc.
    split; [lia | exact B].
  - destruct (S1 ltac:(lia)) as (mrs1 & E1 & M1 & X1).
    rewrite E1 in E. injection E as <- <-.
    set (n := fexp prec emax (Zdigits2 m + e) - e) in *.
    assert (Hc : e + n <= ey).
    { assert (Dm : Zdigits2 m <= Zdigits2 my + (ey - e)).
      { rewrite <- Zdigits2_mul_pow2 by lia.
        apply Zdigits2_mono. destruct B as [B|(B & _)]; lia. }
      unfold n. pose proof (fexp_spec (Zdigits2 m + e)). lia. }
    split; [lia|].
    pose proof (pow2_pos n ltac:(lia)) as Pn.
    assert (Sp : my * 2 ^ (ey - e) = my * 2 ^ (ey - (e + n)) * 2 ^ n).
    { rewrite <- Z.mul_assoc, <- Z.pow_add_r by lia. do 2 f_equal. lia. }
    rewrite M1. destruct B as [B|(B & ->)].
    + left. apply Z.div_lt_upper_bound; [lia|]. lia.
    + right. rewrite B, Sp. split.
      * apply Z.div_mul. lia.
      * apply X1; [reflexivity|]. rewrite B, Sp. apply Z.mod_mul. lia.
Qed.

(** A lower bound that the format can represent survives the shift.
    Values are counted in units of [2^e0]. *)
Lemma shr_fexp_lower m e l e0 my ey mrs e' :
  0 <= m -> e0 <= e -> e0 <= ey -> 0 < my -> Zdigits2 my <= prec ->
  emin prec emax <= ey ->
  my * 2 ^ (ey - e0) <= m * 2 ^ (e - e0) ->
  shr_fexp prec emax m e l = (mrs, e') ->
  e <= e' /\ my * 2 ^ (ey - e0) <= shr_m mrs * 2 ^ (e' - e0).
Proof.
  intros Hm He0 Hey Hmy Dy Ey B E.
  destruct (shr_fexp_shape m e l Hm) as (S0 & S1). cbv zeta in S0, S1.
  destruct (Z_le_gt_dec (fexp prec emax (Zdigits2 m + e) - e) 0) as [L|G].
  - rewrite (S0 L) in E. injection E as <- <-.
    rewrite shr_record_of_loc_m. split; [lia | exact B].
  - destruct (S1 ltac:(lia)) as (mrs1 & E1 & M1 & _).
    rewrite E1 in E. injection E as <- <-.
    set (n := fexp prec emax (Zdigits2 m + e) - e) in *.
    split; [lia|]. rewrite M1.
    pose proof (pow2_pos n ltac:(lia)) as Pn.
    pose proof (pow2_pos (e - e0) ltac:(lia)) as Pe.
    pose proof (pow2_pos (ey - e0) ltac:(lia)) as Py.
    assert (Se : 2 ^ (e + n - e0) = 2 ^ n * 2 ^ (e - e0)).
    { rewrite <- Z.pow_add_r by lia. f_equal. lia. }
    rewrite Se.
    destruct (Z_le_gt_dec (e + n) ey) as [Le|Gt].
    + (* the bound lies on the coarser grid *)
      assert (Sy : 2 ^ (ey - e0) = 2 ^ (ey - (e + n)) * (2 ^ n * 2 ^ (e - e0))).
      { rewrite <- !Z.pow_add_r by lia. f_equal. lia. }
      rewrite Sy in *.
      assert (my * 2 ^ (ey - (e + n)) * 2 ^ n <= m) by nia.
      assert (my * 2 ^ (ey - (e + n)) <= m / 2 ^ n)
        by (apply Z.div_le_lower_bound; lia).
      nia.
    + (* the truncated mantissa has all [prec] digits *)
      assert (Hn : n = Zdigits2 m - prec).
      { unfold n in *. pose proof (fexp_spec (Zdigits2 m + e)). lia. }
      assert (Hd : Zdigits2 (m / 2 ^ n) = prec).
      { rewrite Zdigits2_div_pow2; lia. }
      assert (Hp : 0 < m / 2 ^ n).
      { destruct (Z.eq_dec (m / 2 ^ n) 0) as [Z0|]; [rewrite Z0 in Hd; cbn in Hd; lia|].
        assert (0 <= m / 2 ^ n) by (apply Z.div_pos; lia). lia. }
      destruct (Zdigits2_bounds _ Hp) as (Lo & _). rewrite Hd in Lo.
      destruct (Z.eq_dec my 0) as [|Ny]; [lia|].
      destruct (Zdigits2_bounds my Hmy) as (_ & Uy).
      assert (2 ^ Zdigits2 my <= 2 ^ prec) by (apply Z.pow_le_mono_r; lia).
      assert (Sy : 2 ^ prec * 2 ^ (ey - e0) <= 2 ^ (prec - 1) * (2 ^ n * 2 ^ (e - e0))).
      { rewrite <- !Z.pow_add_r by lia. apply Z.pow_le_mono_r; lia. }
      nia.
Qed.

(** ** The rounding function *)

Lemma binary_round_aux_unfold s m e l :
  binary_round_aux prec emax s m e l =
  match shr_fexp prec emax m e l with
  | (mrs1, e1) =>
      match shr_fexp prec emax
              (round_nearest_even (shr_m mrs1) (loc_of_shr_record mrs1))
              e1 loc_Exact with
      | (mrs2, e2) =>
          match shr_m mrs2 with
          | Z0 => S754_zero s
          | Zpos m2 =>
              if e2 <=? emax - prec then S754_finite s m2 e2
              else S754_infinity s
          | Zneg _ => S754_nan
          end
      end
  end.
Proof.
  unfold binary_round_aux.
  destruct (shr_fexp prec emax m e l) as [mrs1 e1].
  destruct (shr_fexp prec emax _ e1 loc_Exact) as [mrs2 e2].
  reflexivity.
Qed.

(** The result of rounding a non-negative mantissa has the sign asked
    for, is never a NaN, and when finite has at most [prec] digits and an
    exponent of the format. *)
Lemma binary_round_aux_shape s m e l :
  0 <= m ->
  match binary_round_aux prec emax s m e l with
  | S754_zero s' => s' = s
  | S754_infinity s' => s' = s
  | S754_finite s' m' e' =>
      s' = s /\ Zdigits2 (Zpos m') <= prec
      /\ emin prec emax <= e' <= emax - prec
  | S754_nan => False
  end.
Proof.
  intros Hm. rewrite binary_round_aux_unfold.
  destruct (shr_fexp prec emax m e l) as [mrs1 e1] eqn:E1.
  destruct (shr_fexp_digits _ _ _ _ _ Hm E1) as (M1 & _).
  pose proof (round_nearest_even_bounds (shr_m mrs1) (loc_of_shr_record mrs1)) as R.
  assert (H2 : 0 <= round_nearest_even (shr_m mrs1) (loc_of_shr_record mrs1))
    by lia.
  destruct (shr_fexp prec emax _ e1 loc_Exact) as [mrs2 e2] eqn:E2.
  destruct (shr_fexp_digits _ _ _ _ _ H2 E2) as (M2 & D2 & Em & _).
  destruct (shr_m mrs2) as [|m2|m2]; [reflexivity| |lia].
  destruct (e2 <=? emax - prec) eqn:Le; [|reflexivity].
  apply Z.leb_le in Le. auto.
Qed.

(** Rounding does not cross a bound above that the format represents. *)
Lemma binary_round_aux_upper s m e l my ey :
  0 <= m -> e <= ey -> 0 < my -> Zdigits2 my <= prec ->
  emin prec emax <= ey <= emax - prec ->
  (m < my * 2 ^ (ey - e) \/ (m = my * 2 ^ (ey - e) /\ l = loc_Exact)) ->
  match binary_round_aux prec emax s m e l with
  | S754_zero s' => s' = s
  | S754_finite s' m' e' =>
      s' = s /\ e' <= ey /\ Zpos m' <= my * 2 ^ (ey - e')
      /\ Zdigits2 (Zpos m') <= prec /\ emin prec emax <= e'
  | _ => False
  end.
Proof.
  intros Hm He Hmy Dy Ey B. rewrite binary_round_aux_unfold.
  destruct (shr_fexp prec emax m e l) as [mrs1 e1] eqn:E1.
  destruct (shr_fexp_digits _ _ _ _ _ Hm E1) as (M1 & _).
  destruct (shr_fexp_upper _ _ _ my ey _ _ Hm He Hmy Dy (proj1 Ey) B E1)
    as (He1 & B1).
  pose proof (round_nearest_even_bounds (shr_m mrs1) (loc_of_shr_record mrs1)) as R.
  assert (B2 : round_nearest_even (shr_m mrs1) (loc_of_shr_record mrs1)
               < my * 2 ^ (ey - e1)
               \/ (round_nearest_even (shr_m mrs1) (loc_of_shr_record mrs1)
                   = my * 2 ^ (ey - e1) /\ loc_Exact = loc_Exact)).
  { destruct B1 as [B1|(B1 & X)].
    - destruct (Z.eq_dec (round_nearest_even (shr_m mrs1) (loc_of_shr_record mrs1))
                         (my * 2 ^ (ey - e1))); [right; auto | left; lia].
    - right. rewrite X, round_nearest_even_exact. auto. }
  assert (H2 : 0 <= round_nearest_even (shr_m mrs1) (loc_of_shr_record mrs1))
    by lia.
  destruct (shr_fexp prec emax _ e1 loc_Exact) as [mrs2 e2] eqn:E2.
  destruct (shr_fexp_digits _ _ _ _ _ H2 E2) as (M2 & D2 & Em & _).
  destruct (shr_fexp_upper _ _ _ my ey _ _ H2 (proj2 He1) Hmy Dy
              (proj1 Ey) B2 E2) as (He2 & B3).
  destruct (shr_m mrs2) as [|m2|m2]; [reflexivity| |lia].
  replace (e2 <=? emax - prec) with true by (symmetry; apply Z.leb_le; lia).
  split; [reflexivity|]. split; [lia|].
  split; [destruct B3 as [B3|(B3 & _)]; lia|]. split; [exact D2 | exact Em].
Qed.

(** Rounding does not cross a bound below that the format represents.
    Values are counted in units of [2^e0]. *)
Lemma binary_round_aux_lower s m e l e0 my ey :
  0 <= m -> e0 <= e -> e0 <= ey -> 0 < my -> Zdigits2 my <= prec ->
  emin prec emax <= ey ->
  my * 2 ^ (ey - e0) <= m * 2 ^ (e - e0) ->
  match binary_round_aux prec emax s m e l with
  | S754_infinity s' => s' = s
  | S754_finite s' m' e' =>
      s' = s /\ e0 <= e' /\ my * 2 ^ (ey - e0) <= Zpos m' * 2 ^ (e' - e0)
      /\ Zdigits2 (Zpos m') <= prec
      /\ emin prec emax <= e' <= emax - prec
  | _ => False
  end.
Proof.
  intros Hm He0 Hey Hmy Dy Ey B. rewrite binary_round_aux_unfold.
  destruct (shr_fexp prec emax m e l) as [mrs1 e1] eqn:E1.
  destruct (shr_fexp_digits _ _ _ _ _ Hm E1) as (M1 & _).
  destruct (shr_fexp_lower _ _ _ e0 my ey _ _ Hm He0 Hey Hmy Dy Ey B E1)
    as (He1 & B1).
  pose proof (round_nearest_even_bounds (shr_m mrs1) (loc_of_shr_record mrs1)) as R.
  pose proof (pow2_pos (e1 - e0) ltac:(lia)) as P1.
  assert (H2 : 0 <= round_nearest_even (shr_m mrs1) (loc_of_shr_record mrs1))
    by lia.
  assert (He01 : e0 <= e1) by lia.
  assert (B1' : my * 2 ^ (ey - e0)
                <= round_nearest_even (shr_m mrs1) (loc_of_shr_record mrs1)
                   * 2 ^ (e1 - e0)) by nia.
  destruct (shr_fexp prec emax _ e1 loc_Exact) as [mrs2 e2] eqn:E2.
  destruct (shr_fexp_digits _ _ _ _ _ H2 E2) as (M2 & D2 & Em & _).
  destruct (shr_fexp_lower _ _ _ e0 my ey _ _ H2 He01 Hey Hmy Dy
              Ey B1' E2) as (He2 & B2).
  pose proof (pow2_pos (ey - e0) ltac:(lia)) as Py.
  destruct (shr_m mrs2) as [|m2|m2]; [nia| |lia].
  destruct (e2 <=? emax - prec) eqn:Le; [|reflexivity].
  apply Z.leb_le in Le. repeat split; auto; lia.
Qed.

(** ** Comparing values with different exponents *)

Lemma vle_intro m1 e1 m2 e2 e0 :
  e0 <= e1 -> e0 <= e2 ->
  m1 * 2 ^ (e1 - e0) <= m2 * 2 ^ (e2 - e0) -> vle m1 e1 m2 e2.
Proof.
  intros H1 H2 H. unfold vle.
  set (c := Z.min e1 e2).
  pose proof (pow2_pos (c - e0) ltac:(lia)) as Pc.
  replace (e1 - e0) with (e1 - c + (c - e0)) in H by lia.
  replace (e2 - e0) with (e2 - c + (c - e0)) in H by lia.
  rewrite !Z.pow_add_r in H by lia. nia.
Qed.

Lemma vle_elim m1 e1 m2 e2 e0 :
  e0 <= e1 -> e0 <= e2 ->
  vle m1 e1 m2 e2 -> m1 * 2 ^ (e1 - e0) <= m2 * 2 ^ (e2 - e0).
Proof.
  intros H1 H2 H. unfold vle in H.
  set (c := Z.min e1 e2) in *.
  pose proof (pow2_pos (c - e0) ltac:(lia)) as Pc.
  replace (e1 - e0) with (e1 - c + (c - e0)) by lia.
  replace (e2 - e0) with (e2 - c + (c - e0)) by lia.
  rewrite !Z.pow_add_r by lia. nia.
Qed.

(** ** Aligning and rounding *)

Lemma pos_iter_xO m d : Zpos (Pos.iter xO m d) = Zpos m * 2 ^ Zpos d.
Proof.
  induction d as [|d IH] using Pos.peano_ind.
  - cbn [Pos.iter]. change (Zpos m~0) with (2 * Zpos m). change (2 ^ 1) with 2. lia.
  - rewrite Pos.iter_succ. change (Zpos (Pos.iter xO m d)~0) with (2 * Zpos (Pos.iter xO m d)).
    rewrite IH, Pos2Z.inj_succ, Z.pow_succ_r by lia. lia.
Qed.

Lemma shl_align_spec mx ex ex' :
  snd (shl_align mx ex ex') = Z.min ex ex'
  /\ Zpos (fst (shl_align mx ex ex')) = Zpos mx * 2 ^ (ex - Z.min ex ex').
Proof.
  unfold shl_align. destruct (ex' - ex) as [|d|d] eqn:E; cbn [fst snd].
  - replace (Z.min ex ex') with ex by lia. rewrite Z.sub_diag. cbn. lia.
  - replace (Z.min ex ex') with ex by lia. rewrite Z.sub_diag. cbn. lia.
  - replace (Z.min ex ex') with ex' by lia.
    rewrite pos_iter_xO. split; [reflexivity|]. do 2 f_equal. lia.
Qed.

Lemma binary_round_unfold s mx ex :
  binary_round prec emax s mx ex =
  binary_round_aux prec emax s
    (Zpos (fst (shl_align mx ex (fexp prec emax (Zpos (digits2_pos mx) + ex)))))
    (snd (shl_align mx ex (fexp prec emax (Zpos (digits2_pos mx) + ex))))
    loc_Exact.
Proof.
  unfold binary_round. destruct (shl_align mx ex _). reflexivity.
Qed.

Lemma binary_round_lower s mx ex my ey :
  0 < my -> Zdigits2 my <= prec -> emin prec emax <= ey ->
  vle my ey (Zpos mx) ex ->
  match binary_round prec emax s mx ex with
  | S754_infinity s' => s' = s
  | S754_finite s' m' e' =>
      s' = s /\ vle my ey (Zpos m') e'
      /\ Zdigits2 (Zpos m') <= prec
      /\ emin prec emax <= e' <= emax - prec
  | _ => False
  end.
Proof.
  intros Hmy Dy Ey V. rewrite binary_round_unfold.
  destruct (shl_align_spec mx ex (fexp prec emax (Zpos (digits2_pos mx) + ex)))
    as (Ez & Mz).
  set (mz := fst (shl_align _ _ _)) in *. set (ez := snd (shl_align _ _ _)) in *.
  set (e0 := Z.min ez ey).
  assert (B : my * 2 ^ (ey - e0) <= Zpos mz * 2 ^ (ez - e0)).
  { rewrite Mz, <- Z.mul_assoc, <- Z.pow_add_r by lia.
    replace (ex - Z.min ex _ + (ez - e0)) with (ex - e0) by lia.
    apply vle_elim; [lia|lia|exact V]. }
  pose proof (binary_round_aux_lower s (Zpos mz) ez loc_Exact e0 my ey
                ltac:(lia) ltac:(lia) ltac:(lia) Hmy Dy Ey B) as R.
  destruct (binary_round_aux prec emax s (Zpos mz) ez loc_Exact)
    as [s'|s'| |s' m' e']; auto.
  destruct R as (-> & He & Bm & D & E).
  split; [reflexivity|]. split; [|split; [exact D | exact E]].
  eapply vle_intro; [| |exact Bm]; lia.
Qed.

Lemma binary_round_upper s mx ex my ey :
  0 < my -> Zdigits2 my <= prec ->
  emin prec emax <= ey <= emax - prec ->
  vle (Zpos mx) ex my ey ->
  match binary_round prec emax s mx ex with
  | S754_zero s' => s' = s
  | S754_finite s' m' e' =>
      s' = s /\ e' <= ey /\ Zpos m' <= my * 2 ^ (ey - e')
      /\ Zdigits2 (Zpos m') <= prec /\ emin prec emax <= e'
  | _ => False
  end.
Proof.
  intros Hmy Dy Ey V. rewrite binary_round_unfold.
  destruct (shl_align_spec mx ex (fexp prec emax (Zpos (digits2_pos mx) + ex)))
    as (Ez & Mz).
  set (mz := fst (shl_align _ _ _)) in *. set (ez := snd (shl_align _ _ _)) in *.
  (* the aligned exponent is not above that of the bound *)
  assert (Hz : ez <= ey).
  { destruct (Z_le_gt_dec ex ey) as [|G]; [lia|].
    assert (B0 : Zpos mx * 2 ^ (ex - ey) <= my).
    { pose proof (vle_elim (Zpos mx) ex my ey ey ltac:(lia) ltac:(lia) V) as H.
      rewrite Z.sub_diag in H. change (2 ^ 0) with 1 in H. lia. }
    assert (Zdigits2 (Zpos mx) + (ex - ey) <= Zdigits2 my).
    { rewrite <- Zdigits2_mul_pow2 by lia. apply Zdigits2_mono.
      pose proof (pow2_pos (ex - ey) ltac:(lia)). nia. }
    change (Zdigits2 (Zpos mx)) with (Zpos (digits2_pos mx)) in *.
    pose proof (fexp_spec (Zpos (digits2_pos mx) + ex)). lia. }
  assert (B : Zpos mz <= my * 2 ^ (ey - ez)).
  { pose proof (vle_elim (Zpos mx) ex my ey ez ltac:(lia) ltac:(lia) V) as H.
    rewrite Mz. replace (Z.min ex _) with ez by lia. exact H. }
  apply binary_round_aux_upper; try lia.
  destruct (Z.eq_dec (Zpos mz) (my * 2 ^ (ey - ez))); [right; auto | left; lia].
Qed.

(** ** Sum and quotient of two positive finite numbers *)

Lemma SFadd_finite_pos mx ex my ey :
  Zdigits2 (Zpos mx) <= prec -> emin prec emax <= ex ->
  match SFadd prec emax (S754_finite false mx ex) (S754_finite false my ey) with
  | S754_infinity s => s = false
  | S754_finite s m e =>
      s = false /\ vle (Zpos mx) ex (Zpos m) e
      /\ Zdigits2 (Zpos m) <= prec
      /\ emin prec emax <= e <= emax - prec
  | _ => False
  end.
Proof.
  intros Dx Ex.
  set (ez := Z.min ex ey).
  change (SFadd prec emax (S754_finite false mx ex) (S754_finite false my ey))
    with (binary_round prec emax false
            (fst (shl_align mx ex ez) + fst (shl_align my ey ez)) ez).
  destruct (shl_align_spec mx ex ez) as (_ & Ma).
  apply binary_round_lower; try lia.
  apply (vle_intro _ _ _ _ ez); try lia.
  rewrite Z.sub_diag, Pos2Z.inj_add, Ma.
  replace (Z.min ex ez) with ez by lia. lia.
Qed.

Lemma new_location_zero n : new_location n 0 = loc_Exact.
Proof.
  unfold new_location, new_location_even, new_location_odd.
  destruct (Z.even n); reflexivity.
Qed.

Lemma Zdigits2_pow2 k : 0 <= k -> Zdigits2 (2 ^ k) = k + 1.
Proof.
  intros Hk. pose proof (pow2_pos k Hk).
  apply Z.le_antisymm.
  - apply Zdigits2_le_of_lt_pow; try lia.
    rewrite Z.pow_add_r by lia. change (2 ^ 1) with 2. lia.
  - assert (k < Zdigits2 (2 ^ k)); [|lia].
    apply Zdigits2_gt_of_pow_le; lia.
Qed.

(** The quotient of a positive finite number by one that is not smaller
    is at most one: a zero, or a finite number [m * 2^e] with
    [e <= 1 - prec] and [m * 2^e <= 1]. *)
Lemma SFdiv_finite_pos mx ex my ey :
  vle (Zpos mx) ex (Zpos my) ey ->
  match SFdiv prec emax (S754_finite false mx ex) (S754_finite false my ey) with
  | S754_zero s => s = false
  | S754_finite s m e =>
      s = false /\ e <= 1 - prec /\ Zpos m <= 2 ^ (- e)
      /\ Zdigits2 (Zpos m) <= prec /\ emin prec emax <= e
  | _ => False
  end.
Proof.
  intros V.
  unfold SFdiv, SFdiv_core_binary. cbn [xorb].
  set (d1 := Zdigits2 (Zpos mx)). set (d2 := Zdigits2 (Zpos my)).
  set (e' := Z.min (fexp prec emax (d1 + ex - (d2 + ey))) (ex - ey)).
  set (sh := ex - ey - e').
  set (m' := match sh with
             | 0 => Zpos mx
             | Zpos _ => Z.shiftl (Zpos mx) sh
             | Zneg _ => 0
             end).
  assert (Hsh : 0 <= sh) by (unfold sh, e'; lia).
  assert (Hm' : m' = Zpos mx * 2 ^ sh).
  { unfold m'. destruct sh as [|p|p] eqn:E; [cbn; lia| |lia].
    rewrite Z.shiftl_mul_pow2 by lia. reflexivity. }
  clearbody m'.
  (* magnitudes *)
  set (e0 := Z.min ex ey).
  pose proof (vle_elim (Zpos mx) ex (Zpos my) ey e0 ltac:(lia) ltac:(lia) V) as V0.
  assert (Hmag : d1 + ex <= d2 + ey).
  { assert (Zdigits2 (Zpos mx * 2 ^ (ex - e0)) <= Zdigits2 (Zpos my * 2 ^ (ey - e0))).
    { apply Zdigits2_mono. pose proof (pow2_pos (ex - e0) ltac:(lia)). nia. }
    rewrite !Zdigits2_mul_pow2 in H by lia. unfold d1, d2. lia. }
  assert (He' : e' <= 1 - prec).
  { unfold e'. pose proof (fexp_spec (d1 + ex - (d2 + ey))).
    unfold emin in *. lia. }
  (* the quotient is at most 2^(-e') *)
  assert (Hq : m' <= Zpos my * 2 ^ (- e')).
  { pose proof (pow2_pos (ex - e0) ltac:(lia)) as P1.
    pose proof (pow2_pos (ey - e0) ltac:(lia)) as P2.
    pose proof (pow2_pos (- e') ltac:(lia)) as P3.
    assert (E : m' * 2 ^ (ey - e0) = Zpos mx * 2 ^ (ex - e0) * 2 ^ (- e')).
    { rewrite Hm', <- !Z.mul_assoc, <- !Z.pow_add_r by lia.
      do 2 f_equal. unfold sh. lia. }
    nia. }
  destruct (Z.div_eucl m' (Zpos my)) as [q r] eqn:DE.
  assert (Hqr : q = m' / Zpos my /\ r = m' mod Zpos my).
  { unfold Z.div, Z.modulo. rewrite DE. auto. }
  destruct Hqr as (-> & ->).
  pose proof (pow2_pos (- e') ltac:(lia)) as P3.
  assert (Hm0 : 0 <= m') by (rewrite Hm'; pose proof (pow2_pos sh Hsh); nia).
  pose proof (binary_round_aux_upper false (m' / Zpos my) e'
                (new_location (Zpos my) (m' mod Zpos my))
                (2 ^ (prec - 1)) (1 - prec)) as U.
  assert (S1 : 2 ^ (prec - 1) * 2 ^ (1 - prec - e') = 2 ^ (- e')).
  { rewrite <- Z.pow_add_r by lia. f_equal. lia. }
  rewrite S1 in U.
  specialize (U ltac:(apply Z.div_pos; lia) ltac:(lia)
                (pow2_pos (prec - 1) ltac:(lia))).
  rewrite Zdigits2_pow2 in U by lia.
  specialize (U ltac:(lia) ltac:(unfold emin; lia)).
  assert (B : m' / Zpos my < 2 ^ (- e')
              \/ (m' / Zpos my = 2 ^ (- e')
                  /\ new_location (Zpos my) (m' mod Zpos my) = loc_Exact)).
  { destruct (Z.eq_dec m' (Zpos my * 2 ^ (- e'))) as [E|N].
    - right. rewrite E, Z.mul_comm. rewrite Z.div_mul, Z.mod_mul by lia.
      split; [reflexivity | apply new_location_zero].
    - left. apply Z.div_lt_upper_bound; lia. }
  specialize (U B).
  destruct (binary_round_aux prec emax false _ e' _) as [s|s| |s m e]; auto.
  destruct U as (-> & He & Hm & D & E).
  split; [reflexivity|]. split; [lia|]. split; [|split; [exact D | exact E]].
  assert (S2 : 2 ^ (prec - 1) * 2 ^ (1 - prec - e) = 2 ^ (- e)).
  { rewrite <- Z.pow_add_r by lia. f_equal. lia. }
  lia.
Qed.
End Rounding.

(** * The filter in binary32 *)

Lemma leb_zero_shape x : F32.leb F32.zero x = true <-> nonneg_shape x.
Proof. destruct x as [[|]|[|]| |[|] m e]; cbn; intuition discriminate. Qed.

Lemma ltb_zero_shape x : F32.ltb F32.zero x = true <-> pos_shape x.
Proof. destruct x as [[|]|[|]| |[|] m e]; cbn; intuition discriminate. Qed.

Lemma representable_finite s m e :
  representable (S754_finite s m e) = true <->
  Zdigits2 (Zpos m) <= 24 /\ -149 <= e <= 104.
Proof.
  unfold representable. rewrite !andb_true_iff, !Z.leb_le.
  change (emin F32.prec F32.emax) with (-149).
  change (F32.emax - F32.prec) with 104. change F32.prec with 24. tauto.
Qed.

Lemma small_shape_elim x :
  small_shape x ->
  nonneg_shape x /\ is_finite x = true /\ representable x = true.
Proof.
  destruct x as [s|s| |[|] m e]; cbn [nonneg_shape is_finite small_shape];
    try tauto.
  intros H. repeat split. apply representable_finite. exact H.
Qed.

Lemma f32_prec_pos : 0 < 24.
Proof. lia. Qed.

Lemma f32_prec_lt_emax : 24 < 128.
Proof. lia. Qed.

(** The sum of two non-negative numbers of the format, when finite. *)
Lemma add_small x y :
  nonneg_shape x -> nonneg_shape y ->
  representable x = true -> representable y = true ->
  is_finite (F32.add x y) = true ->
  small_shape (F32.add x y).
Proof.
  intros Nx Ny Rx Ry F.
  destruct x as [sx|[|]| |[|] mx ex]; try contradiction;
    destruct y as [sy|[|]| |[|] my ey]; try contradiction;
    try discriminate F.
  - destruct sx, sy; exact I.
  - apply representable_finite in Ry. exact Ry.
  - apply representable_finite in Rx. exact Rx.
  - apply representable_finite in Rx. destruct Rx as (Dx & Ex).
    pose proof (SFadd_finite_pos 24 128 f32_prec_pos mx ex my ey Dx
                  ltac:(change (emin 24 128) with (-149); lia)) as A.
    unfold F32.add, F32.prec, F32.emax in *.
    destruct (SFadd 24 128 _ _) as [s|s| |s m e]; try contradiction;
      try discriminate F.
    destruct A as (-> & _ & D & E).
    change (emin 24 128) with (-149) in E. change (128 - 24) with 104 in E.
    cbn. auto.
Qed.

(** Adding a positive number of the format gives a positive number that
    is not smaller. *)
Lemma add_pos_below x y :
  small_shape x -> pos_shape y -> representable y = true ->
  pos_shape (F32.add x y) /\ below x (F32.add x y).
Proof.
  intros Sx Py Ry.
  destruct x as [sx|sx| |[|] mx ex]; try contradiction;
    destruct y as [sy|[|]| |[|] my ey]; try contradiction;
    try (split; exact I).
  destruct Sx as (Dx & Ex).
  pose proof (SFadd_finite_pos 24 128 f32_prec_pos mx ex my ey Dx
                ltac:(change (emin 24 128) with (-149); lia)) as A.
  unfold F32.add, F32.prec, F32.emax.
  destruct (SFadd 24 128 _ _) as [s|s| |s m e]; try contradiction.
  - subst s. split; exact I.
  - destruct A as (-> & V & _). split; [exact I | exact V].
Qed.

(** The gain: a small number divided by a positive one that is not
    smaller. *)
Lemma div_unit x y :
  small_shape x -> pos_shape y -> below x y ->
  unit_shape (F32.div x y).
Proof.
  intros Sx Py B.
  destruct x as [sx|sx| |[|] mx ex]; try contradiction;
    destruct y as [sy|[|]| |[|] my ey]; try contradiction;
    try exact I.
  pose proof (SFdiv_finite_pos 24 128 f32_prec_pos f32_prec_lt_emax mx ex my ey B) as D.
  unfold F32.div, F32.prec, F32.emax.
  destruct (SFdiv 24 128 _ _) as [s|s| |s m e]; try contradiction.
  - exact I.
  - destruct D as (-> & He & Hm & Dm & Em).
    change (emin 24 128) with (-149) in Em.
    unfold unit_shape. repeat split; lia.
Qed.

Lemma one_eq : F32.one = S754_finite false 8388608 (-23).
Proof. reflexivity. Qed.

Lemma unit_shape_one : unit_shape F32.one.
Proof.
  rewrite one_eq. unfold unit_shape. change (2 ^ (- -23)) with 8388608.
  change (Zdigits2 8388608) with 24. repeat split; lia.
Qed.

(** Comparisons read off the shape. *)
Lemma unit_shape_leb x :
  unit_shape x -> F32.leb F32.zero x = true /\ F32.leb x F32.one = true.
Proof.
  intros U. split.
  - apply leb_zero_shape. destruct x as [s|s| |[|] m e]; try contradiction; exact I.
  - rewrite one_eq.
    destruct x as [s|s| |[|] m e]; try contradiction; [reflexivity|].
    destruct U as (He & Hm & _).
    unfold F32.leb, SFleb, SFcompare.
    destruct (Z.compare_spec e (-23)) as [E|L|G]; [|reflexivity|lia].
    subst e. change (2 ^ (- -23)) with 8388608 in Hm.
    change (Pos.compare_cont Eq m 8388608) with (Pos.compare m 8388608).
    destruct (Pos.compare_spec m 8388608) as [| |G]; try reflexivity. lia.
Qed.

(** [1 - K] for a gain of at most one. *)
Lemma sub_one_unit x : unit_shape x -> unit_shape (F32.sub F32.one x).
Proof.
  intros U. rewrite one_eq.
  destruct x as [s|s| |[|] m e]; try contradiction.
  - change (F32.sub (S754_finite false 8388608 (-23)) (S754_zero s))
      with (S754_finite false 8388608 (-23)).
    rewrite <- one_eq. apply unit_shape_one.
  - destruct U as (He & Hm & Dm & Em).
    unfold F32.sub, SFsub, F32.prec, F32.emax. cbn [cond_Zopp].
    replace (Z.min (-23) e) with e by lia.
    destruct (shl_align_spec 8388608 (-23) e) as (_ & Mo).
    destruct (shl_align_spec m e e) as (_ & Mk).
    replace (Z.min (-23) e) with e in Mo by lia.
    replace (Z.min e e) with e in Mk by lia.
    rewrite Z.sub_diag in Mk. change (2 ^ 0) with 1 in Mk.
    rewrite Mo, Mk, Z.mul_1_r.
    assert (S1 : 8388608 * 2 ^ (-23 - e) = 2 ^ (- e)).
    { change 8388608 with (2 ^ 23). rewrite <- Z.pow_add_r by lia. f_equal. lia. }
    rewrite S1.
    destruct (2 ^ (- e) - Zpos m) as [|d|d] eqn:D; [exact I| |lia].
    cbn [binary_normalize].
    pose proof (binary_round_upper 24 128 f32_prec_pos false d e 8388608 (-23)
                  ltac:(lia) ltac:(cbn; lia)
                  ltac:(change (emin 24 128) with (-149); lia)) as R.
    assert (V : vle (Zpos d) e 8388608 (-23)).
    { apply (vle_intro _ _ _ _ e); try lia.
      rewrite Z.sub_diag, S1. change (2 ^ 0) with 1. lia. }
    specialize (R V).
    destruct (binary_round 24 128 false d e) as [s'|s'| |s' m' e'];
      try contradiction.
    + exact I.
    + destruct R as (-> & He' & Hm' & Dm' & Em').
      change (emin 24 128) with (-149) in Em'.
      assert (S2 : 8388608 * 2 ^ (-23 - e') = 2 ^ (- e')).
      { change 8388608 with (2 ^ 23). rewrite <- Z.pow_add_r by lia. f_equal. lia. }
      unfold unit_shape. repeat split; lia.
Qed.

(** [a * x] for [a] at most one: not above [x]. *)
Lemma mul_unit_le a x :
  unit_shape a -> small_shape x ->
  small_shape (F32.mul a x) /\ F32.leb (F32.mul a x) x = true.
Proof.
  intros Ua Sx.
  destruct a as [sa|sa| |[|] ma ea]; try contradiction;
    destruct x as [sx|sx| |[|] mx ex]; try contradiction;
    try (split; [exact I | reflexivity]).
  destruct Ua as (Hea & Hma & _). destruct Sx as (Dx & Ex).
  unfold F32.mul, SFmul, F32.prec, F32.emax. cbn [xorb].
  pose proof (binary_round_aux_upper 24 128 f32_prec_pos false
                (Zpos (ma * mx)) (ea + ex) loc_Exact (Zpos mx) ex
                ltac:(lia) ltac:(lia) ltac:(lia) Dx
                ltac:(change (emin 24 128) with (-149); lia)) as U.
  assert (B : Zpos (ma * mx) < Zpos mx * 2 ^ (ex - (ea + ex))
              \/ (Zpos (ma * mx) = Zpos mx * 2 ^ (ex - (ea + ex))
                  /\ loc_Exact = loc_Exact)).
  { replace (ex - (ea + ex)) with (- ea) by lia.
    rewrite Pos2Z.inj_mul.
    destruct (Z.eq_dec (Zpos ma * Zpos mx) (Zpos mx * 2 ^ (- ea)));
      [right; auto | left; nia]. }
  specialize (U B).
  destruct (binary_round_aux 24 128 false _ _ _) as [s|s| |s m e];
    try contradiction.
  - subst s. split; [exact I | reflexivity].
  - destruct U as (-> & He & Hm & Dm & Em).
    change (emin 24 128) with (-149) in Em.
    split; [unfold small_shape; repeat split; lia|].
    unfold F32.leb, SFleb, SFcompare.
    destruct (Z.compare_spec e ex) as [E|L|G]; [|reflexivity|lia].
    subst e. rewrite Z.sub_diag in Hm. change (2 ^ 0) with 1 in Hm.
    change (Pos.compare_cont Eq m mx) with (Pos.compare m mx).
    destruct (Pos.compare_spec m mx) as [| |G]; try reflexivity. lia.
Qed.

Lemma update_fields f z :
  let P1 := F32.add (kP f) (kQ f) in
  let K1 := F32.div P1 (F32.add P1 (kR f)) in
  kQ (fst (update f z)) = kQ f
  /\ kR (fst (update f z)) = kR f
  /\ kK (fst (update f z)) = K1
  /\ kP (fst (update f z)) = F32.mul (F32.sub F32.one K1) P1.
Proof. cbv zeta. repeat split. Qed.

Lemma filter_ok_iff f :
  filter_ok f = true <->
  representable (kQ f) = true /\ representable (kR f) = true
  /\ representable (kP f) = true
  /\ F32.leb F32.zero (kQ f) = true /\ F32.ltb F32.zero (kR f) = true
  /\ F32.leb F32.zero (kP f) = true /\ is_finite (kP f) = true
  /\ F32.leb F32.zero (kK f) = true /\ F32.leb (kK f) F32.one = true.
Proof. unfold filter_ok. rewrite !andb_true_iff. tauto. Qed.

(** One call keeps the filter in order, provided P + Q does not
    overflow, and the new P is not above P + Q. *)
Lemma update_keeps_filter_ok f z :
  filter_ok f = true ->
  is_finite (F32.add (kP f) (kQ f)) = true ->
  filter_ok (fst (update f z)) = true
  /\ F32.leb (kP (fst (update f z))) (F32.add (kP f) (kQ f)) = true.
Proof.
  intros Ok Fin.
  apply filter_ok_iff in Ok as (RQ & RR & RP & NQ & PR & NP & FP & _ & _).
  destruct (update_fields f z) as (EQ & ER & EK & EP). cbv zeta in EK, EP.
  apply leb_zero_shape in NQ, NP. apply ltb_zero_shape in PR.
  pose proof (add_small _ _ NP NQ RP RQ Fin) as S1.
  destruct (add_pos_below _ _ S1 PR RR) as (Ps & Bs).
  pose proof (div_unit _ _ S1 Ps Bs) as UK.
  pose proof (sub_one_unit _ UK) as Ua.
  destruct (mul_unit_le _ _ Ua S1) as (S2 & L2).
  destruct (small_shape_elim _ S2) as (N2 & F2 & R2).
  destruct (unit_shape_leb _ UK) as (K0 & K1).
  split.
  - apply filter_ok_iff. rewrite EQ, ER, EK, EP.
    apply leb_zero_shape in N2, NQ. apply ltb_zero_shape in PR.
    repeat split; assumption.
  - rewrite EP. exact L2.
Qed.

Lemma add_zero_finite x s :
  is_finite x = true -> is_finite (F32.add x (S754_zero s)) = true.
Proof. destruct x as [[|]|[|]| |[|] m e], s; intros F; try discriminate F; reflexivity. Qed.

Lemma updates_keep_filter_ok zs : forall f,
  filter_ok f = true -> no_overflow f zs = true ->
  filter_ok (updates f zs) = true
  /\ kQ (updates f zs) = kQ f /\ kR (updates f zs) = kR f.
Proof.
  induction zs as [|z rest IH]; intros f Ok No; cbn [updates no_overflow] in *.
  - auto.
  - apply andb_true_iff in No as (Fin & No).
    destruct (update_keeps_filter_ok f z Ok Fin) as (Ok1 & _).
    destruct (IH _ Ok1 No) as (Ok2 & EQ & ER).
    destruct (update_fields f z) as (EQ1 & ER1 & _).
    split; [exact Ok2|]. split; congruence.
Qed.

Lemma static_filter_no_overflow zs : forall f s,
  filter_ok f = true -> kQ f = S754_zero s -> no_overflow f zs = true.
Proof.
  induction zs as [|z rest IH]; intros f s Ok Q0; cbn [no_overflow]; [reflexivity|].
  assert (Fin : is_finite (F32.add (kP f) (kQ f)) = true).
  { rewrite Q0. apply add_zero_finite.
    apply filter_ok_iff in Ok. tauto. }
  rewrite Fin. cbn [andb].
  destruct (update_keeps_filter_ok f z Ok Fin) as (Ok1 & _).
  apply (IH _ s Ok1).
  destruct (update_fields f z) as (EQ1 & _). congruence.
Qed.

(** C9, amended. Take a filter in order: Q, R and P are binary32 numbers
    with Q >= 0, R > 0 and P >= 0 finite, and K in [0, 1] (K = 0 after
    construction). Over any sequence of [update] calls in which the sum
    P + Q that opens each call stays finite, every call leaves P >= 0
    finite and 0 <= K <= 1, with Q and R unchanged. When Q = 0 no call can
    overflow, so the bounds then hold always. *)
Theorem C9_filter_bounds (f : SimpleKalmanFilter) (zs : list float) :
  filter_ok f = true ->
  (no_overflow f zs = true ->
   let f' := updates f zs in
   F32.leb F32.zero (kP f') = true
   /\ F32.leb F32.zero (kK f') = true
   /\ F32.leb (kK f') F32.one = true
   /\ kQ f' = kQ f /\ kR f' = kR f
   /\ filter_ok f' = true)
  /\ (kQ f = F32.zero -> no_overflow f zs = true).
Proof.
  intros Ok. split.
  - intros No. cbv zeta.
    destruct (updates_keep_filter_ok zs f Ok No) as (Ok' & EQ & ER).
    pose proof Ok' as Ok2. apply filter_ok_iff in Ok2. tauto.
  - intros Q0. apply (static_filter_no_overflow zs f false Ok Q0).
Qed.

(** C9, as the specification words it, fails in binary32: with
    R = 0.1 > 0 and Q = P = the largest finite float, all three valid
    numbers and Q, P >= 0, the sum P + Q overflows to infinity, the gain
    infinity / infinity is a NaN, and after the call neither 0 <= K, nor
    K <= 1, nor 0 <= P holds. *)
Lemma C9_overflow_breaks_the_gain :
  let f := newKalman max_float lit_0_1 max_float in
  F32.valid (kQ f) = true /\ F32.valid (kR f) = true /\ F32.valid (kP f) = true
  /\ F32.ltb F32.zero (kR f) = true
  /\ F32.leb F32.zero (kQ f) = true
  /\ F32.leb F32.zero (kP f) = true
  /\ kK (fst (update f F32.zero)) = S754_nan
  /\ F32.leb F32.zero (kK (fst (update f F32.zero))) = false
  /\ F32.leb (kK (fst (update f F32.zero))) F32.one = false
  /\ F32.leb F32.zero (kP (fst (update f F32.zero))) = false.
Proof. vm_compute. repeat split. Qed.



(** ** The filters of the sketch *)

Lemma float_eqb_eq x y : float_eqb x y = true -> x = y.
Proof.
  destruct x as [s|s| |s m e], y as [t|t| |t n f]; cbn; try discriminate.
  - intros H. apply Bool.eqb_prop in H. congruence.
  - intros H. apply Bool.eqb_prop in H. congruence.
  - reflexivity.
  - rewrite !andb_true_iff. intros ((H1 & H2) & H3).
    apply Bool.eqb_prop in H1. apply Pos.eqb_eq in H2. apply Z.eqb_eq in H3.
    congruence.
Qed.

(** The thirty-one values are closed under a further call, and from each
    of them P + Q is finite. *)
Lemma sketch_P_values_closed p :
  In p sketch_P_values ->
  In (next_P p) sketch_P_values
  /\ is_finite (F32.add p lit_0_01) = true.
Proof.
  intros H.
  assert (C : forallb (fun p =>
                existsb (float_eqb (next_P p)) sketch_P_values
                && is_finite (F32.add p lit_0_01)) sketch_P_values = true)
    by (vm_compute; reflexivity).
  rewrite forallb_forall in C. specialize (C p H).
  apply andb_true_iff in C as (E & F). split; [|exact F].
  apply existsb_exists in E as (p' & I & Q). apply float_eqb_eq in Q.
  rewrite Q. exact I.
Qed.

Lemma update_next_P f z :
  kQ f = lit_0_01 -> kR f = lit_0_1 ->
  kP (fst (update f z)) = next_P (kP f).
Proof. intros Q R. unfold next_P, update. cbn. rewrite Q, R. reflexivity. Qed.

Lemma sketch_filter_no_overflow zs : forall f,
  kQ f = lit_0_01 -> kR f = lit_0_1 -> In (kP f) sketch_P_values ->
  no_overflow f zs = true.
Proof.
  induction zs as [|z rest IH]; intros f Q R I; cbn [no_overflow]; [reflexivity|].
  destruct (sketch_P_values_closed _ I) as (I' & F).
  rewrite Q, F. cbn [andb].
  apply IH.
  - exact Q.
  - exact R.
  - rewrite update_next_P by assumption. exact I'.
Qed.

Lemma valid_representable x : F32.valid x = true -> representable x = true.
Proof.
  destruct x as [s|s| |s m e]; try reflexivity.
  unfold F32.valid, valid_binary, bounded, canonical_mantissa, representable.
  rewrite !andb_true_iff, !Z.leb_le, Z.eqb_eq.
  intros (C & B). rewrite (fexp_spec F32.prec F32.emax) in C.
  change (Zdigits2 (Zpos m)) with (Zpos (digits2_pos m)).
  repeat split; lia.
Qed.

(** A filter fresh from the constructor is in order. *)
Lemma newKalman_ok q r p :
  representable q = true -> representable r = true -> representable p = true ->
  F32.leb F32.zero q = true -> F32.ltb F32.zero r = true ->
  F32.leb F32.zero p = true -> is_finite p = true ->
  filter_ok (newKalman q r p) = true.
Proof.
  intros. apply filter_ok_iff. cbn [newKalman kQ kR kP kK].
  repeat split; try assumption; reflexivity.
Qed.

(** Both filters of the sketch stay in order whatever they are fed: P
    settles after fewer than thirty calls, and P + Q never overflows. *)
Lemma sketch_filter_bounds zs :
  no_overflow sketch_filter zs = true
  /\ filter_ok (updates sketch_filter zs) = true.
Proof.
  assert (No : no_overflow sketch_filter zs = true).
  { apply sketch_filter_no_overflow; try reflexivity.
    left. reflexivity. }
  split; [exact No|].
  apply updates_keep_filter_ok; [|exact No].
  vm_compute. reflexivity.
Qed.

(** *** The filters along a run of the sketch *)

Lemma updates_snoc zs : forall f z,
  updates f (zs ++ [z]) = fst (update (updates f zs) z).
Proof.
  induction zs as [|z0 rest IH]; intros f z; cbn [updates app]; [reflexivity|].
  apply IH.
Qed.

Lemma processForceSensor_filter adc g g' :
  processForceSensor adc g = Some g' ->
  exists z, forceKalman g' = fst (update (forceKalman g) z).
Proof.
  unfold processForceSensor.
  destruct (update (forceKalman g) _) as [kf kv] eqn:U.
  destruct (store _ _ _) as [h|]; [|discriminate].
  destruct (sum_history h); [|discriminate].
  intros [= <-]. eexists. rewrite U. reflexivity.
Qed.

Lemma deliver_distance_filter z g g' :
  deliver_distance z g = Some g' ->
  distanceKalman g' = fst (update (distanceKalman g) z).
Proof.
  unfold deliver_distance.
  destruct (update (distanceKalman g) z) as [kf kv].
  destruct (store _ _ _) as [h|]; [|discriminate].
  destruct (sum_history h); [|discriminate].
  intros [= <-]. reflexivity.
Qed.

(** One pass calls the force filter once and the distance filter at most
    once. *)
Lemma loop_filters i g g' out :
  loop i g = Some (g', out) ->
  (exists z, forceKalman g' = fst (update (forceKalman g) z))
  /\ (distanceKalman g' = distanceKalman g
      \/ exists z, distanceKalman g' = fst (update (distanceKalman g) z)).
Proof.
  intros L. apply loop_inv in L as (g1 & g2 & D & F & T).
  pose proof (processForceSensor_filter _ _ _ F) as (zf & Ff).
  apply processForceSensor_frame in F as (Fd & _).
  apply processDistanceSensor_channels in D as (Df & _ & _ & Dd).
  assert (E : forceKalman g' = forceKalman g2
              /\ distanceKalman g' = distanceKalman g2).
  { destruct T as [(_ & -> & _) | (_ & S)]; [auto|].
    destruct (sendAllData_cases (pressure_adc i)
                (set_lastSendTime (to_ulong (millis_stamp i)) g2))
      as [(_ & E) | (_ & E)]; rewrite E in S; inversion S; subst; auto. }
  destruct E as (E1 & E2).
  unfold force_channel in Df. unfold distance_channel in Fd.
  split.
  - exists zf. rewrite E1, Ff. f_equal. f_equal. congruence.
  - rewrite E2. replace (distanceKalman g2) with (distanceKalman g1) by congruence.
    destruct (ir i) as [b|]; [|left; unfold distance_channel in Dd; congruence].
    destruct (measurement_on b g) as [z|].
    + destruct Dd as (gd & Dg & Dc). right. exists z.
      apply deliver_distance_filter in Dg.
      unfold distance_channel in Dc. congruence.
    + left. unfold distance_channel in Dd. congruence.
Qed.

Lemma run_filters ins : forall g g' out zf zd,
  run ins g = Some (g', out) ->
  forceKalman g = updates sketch_filter zf ->
  distanceKalman g = updates sketch_filter zd ->
  exists zf' zd',
    forceKalman g' = updates sketch_filter zf'
    /\ distanceKalman g' = updates sketch_filter zd'.
Proof.
  induction ins as [|i rest IH]; intros g g' out zf zd R Hf Hd; cbn [run] in R.
  - injection R as <- <-. eauto.
  - destruct (loop i g) as [[g1 out1]|] eqn:L; [|discriminate].
    destruct (run rest g1) as [[g2 out2]|] eqn:R2; [|discriminate].
    injection R as <- <-.
    destruct (loop_filters _ _ _ _ L) as ((z & Ff) & Fd).
    assert (Hf1 : forceKalman g1 = updates sketch_filter (zf ++ [z]))
      by (rewrite updates_snoc, <- Hf; exact Ff).
    destruct Fd as [Fd | (z' & Fd)].
    + apply (IH g1 g2 out2 (zf ++ [z]) zd R2 Hf1). congruence.
    + apply (IH g1 g2 out2 (zf ++ [z]) (zd ++ [z']) R2 Hf1).
      rewrite updates_snoc, <- Hd. exact Fd.
Qed.

(** In every state that the sketch reaches, on any inputs, both filters
    are in order: P >= 0 is finite and 0 <= K <= 1. *)
Lemma sketch_filters_in_order ins g out :
  sketch ins = Some (g, out) ->
  filter_ok (forceKalman g) = true /\ filter_ok (distanceKalman g) = true.
Proof.
  intros S. unfold sketch in S. cbn [setup] in S.
  destruct (run ins initial) as [[g' out']|] eqn:R; [|discriminate].
  injection S as <- <-.
  destruct (run_filters ins initial g' out' [] [] R eq_refl eq_refl)
    as (zf & zd & -> & ->).
  split; apply sketch_filter_bounds.
Qed.

(** * Further properties *)

(** ** The two analog scalings *)

Lemma adc_range_In adc : 0 <= adc <= 1023 -> In adc adc_range.
Proof.
  intros H. unfold adc_range. apply in_map_iff.
  exists (Z.to_nat adc). split; [lia|]. apply in_seq. lia.
Qed.

(** X1. For every reading 0..1023 of the pressure pin the pressure is a
    number between 0.0 and 1.0, it is exactly 0.0 at 0 and exactly 1.0 at
    1023, and a larger reading never gives a smaller pressure: each step
    of the reading strictly increases it. *)
Theorem pressure_in_unit_range (adc : Z) :
  0 <= adc <= 1023 ->
  F32.leb F32.zero (processPressureSensor adc) = true
  /\ F32.leb (processPressureSensor adc) F32.one = true
  /\ is_finite (processPressureSensor adc) = true
  /\ processPressureSensor 0 = F32.zero
  /\ processPressureSensor 1023 = F32.one
  /\ (adc < 1023 ->
      F32.ltb (processPressureSensor adc) (processPressureSensor (adc + 1)) = true).
Proof.
  intros H.
  assert (C : forallb (fun a =>
                F32.leb F32.zero (processPressureSensor a)
                && F32.leb (processPressureSensor a) F32.one
                && is_finite (processPressureSensor a)
                && ((1023 <=? a)
                    || F32.ltb (processPressureSensor a)
                               (processPressureSensor (a + 1))))
              adc_range = true) by (vm_compute; reflexivity).
  rewrite forallb_forall in C. specialize (C adc (adc_range_In adc H)).
  rewrite !andb_true_iff, orb_true_iff, Z.leb_le in C.
  destruct C as (((A & B) & F) & M).
  split; [exact A|]. split; [exact B|]. split; [exact F|].
  split; [vm_compute; reflexivity|]. split; [vm_compute; reflexivity|].
  intros L. destruct M as [M|M]; [lia | exact M].
Qed.

(** X2. For every reading 0..1023 of the force pin the value handed to
    the force filter is a number between 0.0 and 200.0, exactly 0.0 at 0
    and exactly 200.0 at 1023, strictly increasing with the reading. *)
Theorem rawForce_in_range (adc : Z) :
  0 <= adc <= 1023 ->
  F32.leb F32.zero (rawForce_of adc) = true
  /\ F32.leb (rawForce_of adc) (F32.of_int 200) = true
  /\ is_finite (rawForce_of adc) = true
  /\ rawForce_of 0 = F32.zero
  /\ rawForce_of 1023 = F32.of_int 200
  /\ (adc < 1023 -> F32.ltb (rawForce_of adc) (rawForce_of (adc + 1)) = true)
  /\ (forall g g', processForceSensor adc g = Some g' ->
        forceKalman g' = fst (update (forceKalman g) (rawForce_of adc))).
Proof.
  intros H.
  assert (C : forallb (fun a =>
                F32.leb F32.zero (rawForce_of a)
                && F32.leb (rawForce_of a) (F32.of_int 200)
                && is_finite (rawForce_of a)
                && ((1023 <=? a)
                    || F32.ltb (rawForce_of a) (rawForce_of (a + 1))))
              adc_range = true) by (vm_compute; reflexivity).
  rewrite forallb_forall in C. specialize (C adc (adc_range_In adc H)).
  rewrite !andb_true_iff, orb_true_iff, Z.leb_le in C.
  destruct C as (((A & B) & F) & M).
  split; [exact A|]. split; [exact B|]. split; [exact F|].
  split; [vm_compute; reflexivity|]. split; [vm_compute; reflexivity|].
  split.
  - intros L. destruct M as [M|M]; [lia | exact M].
  - intros g g'. unfold processForceSensor. fold (rawForce_of adc).
    destruct (update (forceKalman g) (rawForce_of adc)) as [kf kv].
    destruct (store _ _ _) as [h|]; [|discriminate].
    destruct (sum_history h); [|discriminate].
    intros [= <-]. reflexivity.
Qed.

(** ** The 100 ms tick *)

Lemma loop_lastSendTime i g g' out :
  loop i g = Some (g', out) ->
  lastSendTime g' =
  if tick_due i g then to_ulong (millis_stamp i) else lastSendTime g.
Proof.
  intros L. apply loop_inv in L as (g1 & g2 & D & F & T).
  rewrite <- (tick_due_after_sensors i g g1 g2 D F).
  apply processDistanceSensor_channels in D as (_ & _ & Dl & _).
  apply processForceSensor_frame in F as (_ & _ & Fl & _).
  destruct T as [(T & -> & _) | (T & S)]; rewrite T; [congruence|].
  destruct (sendAllData_cases (pressure_adc i)
              (set_lastSendTime (to_ulong (millis_stamp i)) g2))
    as [(_ & E) | (_ & E)]; rewrite E in S; inversion S; subst; reflexivity.
Qed.

Lemma to_ulong_range z : 0 <= to_ulong z < 2 ^ 32.
Proof. unfold to_ulong. apply Z.mod_pos_bound. reflexivity. Qed.

Lemma run_lastSendTime_range ins : forall g g' out,
  run ins g = Some (g', out) ->
  0 <= lastSendTime g < 2 ^ 32 -> 0 <= lastSendTime g' < 2 ^ 32.
Proof.
  induction ins as [|i rest IH]; intros g g' out R H; cbn [run] in R.
  - injection R as <- <-. exact H.
  - destruct (loop i g) as [[g1 out1]|] eqn:L; [|discriminate].
    destruct (run rest g1) as [[g2 out2]|] eqn:R2; [|discriminate].
    injection R as <- <-.
    apply (IH _ _ _ R2). rewrite (loop_lastSendTime _ _ _ _ L).
    destruct (tick_due i g); [apply to_ulong_range | exact H].
Qed.

(** X3. In every state the sketch reaches, the tick is due exactly when
    at least 100 ms have passed since the last stamp, the elapsed time
    being counted modulo 2^32: the test is right across the rollover of
    [millis()]. On a due tick the stamp becomes the second [millis()]
    reading, otherwise it is kept. *)
Theorem tick_due_iff_elapsed
  (ins : list loop_input) (g : globals) (out : list serial_call)
  (i : loop_input) (d : Z) :
  run ins initial = Some (g, out) ->
  0 <= d < 2 ^ 32 ->
  to_ulong (millis_test i) = to_ulong (lastSendTime g + d) ->
  tick_due i g = (SEND_INTERVAL <=? d)
  /\ forall g' out', loop i g = Some (g', out') ->
       lastSendTime g' =
       if SEND_INTERVAL <=? d then to_ulong (millis_stamp i) else lastSendTime g.
Proof.
  intros R Hd E.
  pose proof (run_lastSendTime_range ins initial g out R) as Hl.
  specialize (Hl ltac:(cbn; lia)).
  assert (T : tick_due i g = (SEND_INTERVAL <=? d)).
  { unfold tick_due. rewrite E. unfold to_ulong.
    rewrite Zminus_mod_idemp_l.
    replace (lastSendTime g + d - lastSendTime g) with d by lia.
    rewrite Z.mod_small by lia. reflexivity. }
  split; [exact T|].
  intros g' out' L. rewrite (loop_lastSendTime _ _ _ _ L), T. reflexivity.
Qed.

(** ** The shape of the output *)

Lemma calls_of_records_cons f d p rs :
  calls_of_records ((f, d, p) :: rs) = record_calls f d p ++ calls_of_records rs.
Proof. reflexivity. Qed.

Lemma run_output_shape ins : forall g g' out,
  run ins g = Some (g', out) ->
  out = calls_of_records (records out)
  /\ (List.length (records out) <= due_ticks ins g)%nat
  /\ (bufferIsFull g = true -> List.length (records out) = due_ticks ins g).
Proof.
  induction ins as [|i rest IH]; intros g g' out R; cbn [run] in R.
  - injection R as <- <-. cbn. auto.
  - cbn [due_ticks].
    destruct (loop i g) as [[g1 out1]|] eqn:L; [|discriminate].
    destruct (run rest g1) as [[g2 out2]|] eqn:R2; [|discriminate].
    injection R as <- <-.
    destruct (IH _ _ _ R2) as (S2 & Le2 & Eq2).
    destruct (loop_tick _ _ _ _ L) as (Tn & Ty & Tb).
    pose proof (loop_keeps_streaming _ _ _ _ L) as K.
    destruct (tick_due i g) eqn:T.
    + destruct (bufferIsFull g) eqn:B.
      * rewrite (Ty eq_refl eq_refl), records_record_calls,
          calls_of_records_cons, <- S2.
        split; [reflexivity|]. cbn [List.length]. split; [lia|].
        intros _. rewrite (Eq2 (K eq_refl)). reflexivity.
      * destruct (Tb eq_refl eq_refl) as (-> & _). cbn [app].
        split; [exact S2|]. split; [lia | discriminate].
    + destruct (Tn eq_refl) as (-> & E). cbn [app].
      split; [exact S2|]. split; [lia|].
      intros B. apply Eq2. congruence.
Qed.

(** X4. Whatever the inputs, everything a run prints after the readiness
    line is a sequence of whole records, each the five calls of
    [sendAllData]: no partial line is ever printed. *)
Theorem output_is_whole_records
  (ins : list loop_input) (g : globals) (out : list serial_call) :
  sketch ins = Some (g, out) ->
  out = println_str "Arduino is Ready" :: calls_of_records (records out).
Proof.
  intros S. unfold sketch in S. cbn [setup] in S.
  destruct (run ins initial) as [[g' out']|] eqn:R; [|discriminate].
  injection S as <- <-.
  destruct (run_output_shape _ _ _ _ R) as (E & _).
  cbn [app]. f_equal. exact E.
Qed.

(** X5. A run prints at most one record for each due tick, and once the
    scheduler streams it prints exactly one for each. *)
Theorem records_count_due_ticks
  (ins : list loop_input) (g g' : globals) (out : list serial_call) :
  run ins g = Some (g', out) ->
  (List.length (records out) <= due_ticks ins g)%nat
  /\ (bufferIsFull g = true -> List.length (records out) = due_ticks ins g).
Proof.
  intros R. destruct (run_output_shape _ _ _ _ R) as (_ & H). exact H.
Qed.

(** ** The decoder on noise *)

Lemma decode_byte_garbage b g :
  state g = WAITING_FOR_AC -> b <> xac ->
  decode_byte b g = Some g /\ measurement_on b g = None.
Proof.
  intros S N. unfold decode_byte, measurement_on. rewrite S.
  apply byte_eqb_false_iff in N. rewrite N. auto.
Qed.

Lemma feed_garbage bs : forall g,
  state g = WAITING_FOR_AC -> Forall (fun b => b <> xac) bs ->
  feed bs g = Some g /\ deliveries bs g = [].
Proof.
  induction bs as [|b rest IH]; intros g S F; cbn [feed deliveries].
  - auto.
  - inversion F as [|? ? Hb Hr]; subst.
    destruct (decode_byte_garbage b g S Hb) as (D & M).
    cbn [processDistanceSensor]. rewrite D, M.
    destruct (IH g S Hr) as (-> & ->). auto.
Qed.

(** X6. While the decoder searches for sync, bytes other than 0xAC
    change nothing at all, and a frame that follows any amount of such
    noise is decoded as if the noise had not been there. *)
Theorem noise_before_sync_is_skipped
  (g : globals) (noise frame : list byte) :
  state g = WAITING_FOR_AC ->
  Forall (fun b => b <> xac) noise ->
  feed noise g = Some g
  /\ deliveries noise g = []
  /\ feed (noise ++ frame) g = feed frame g
  /\ deliveries (noise ++ frame) g = deliveries frame g.
Proof.
  intros S F. destruct (feed_garbage noise g S F) as (Fe & De).
  rewrite feed_app, deliveries_app, Fe, De. auto.
Qed.

(** X7. A second 0xAC right after the first does not keep the decoder
    waiting for 0xCA: it falls back to sync search, so in
    0xAC 0xAC 0xCA the 0xCA is not taken as the second sync byte, and a
    frame that follows a stray 0xAC in this way is lost as long as its
    payload holds no 0xAC: nothing is delivered and no channel changes. *)
Theorem stray_sync_byte_loses_frame (g : globals) (payload : list byte) :
  state g = WAITING_FOR_AC ->
  Forall (fun b => b <> xac) payload ->
  deliveries ([xac; xac; xca] ++ payload) g = []
  /\ exists g',
       feed ([xac; xac; xca] ++ payload) g = Some g'
       /\ state g' = WAITING_FOR_AC
       /\ distance_channel g' = distance_channel g
       /\ force_channel g' = force_channel g.
Proof.
  intros S F.
  set (g3 := set_decoder WAITING_FOR_AC (payloadBuffer g) 0 g).
  assert (E3 : feed [xac; xac; xca] g = Some g3
               /\ deliveries [xac; xac; xca] g = []).
  { destruct g; cbn in S; subst. split; reflexivity. }
  destruct E3 as (Fe & De).
  destruct (feed_garbage payload g3 eq_refl F) as (Fp & Dp).
  rewrite deliveries_app, feed_app, Fe, De, Fp, Dp.
  split; [reflexivity|]. exists g3. repeat split.
Qed.

(** ** The raw distance *)

(** X8. The raw distance is the unsigned big-endian value of the four
    bytes when the first byte is below 0x80, and that value minus 2^32,
    a negative number, otherwise: the decoder reads distances from 2^31
    upwards as negative. It always lies in the range of a 32-bit
    [long]. *)
Theorem raw_dist_sign (p1 p2 p3 p4 : byte) :
  - 2 ^ 31 <= raw_dist_of p1 p2 p3 p4 < 2 ^ 31
  /\ (byte_val p1 < 128 ->
      raw_dist_of p1 p2 p3 p4 = big_endian_32 p1 p2 p3 p4)
  /\ (128 <= byte_val p1 ->
      raw_dist_of p1 p2 p3 p4 = big_endian_32 p1 p2 p3 p4 - 2 ^ 32
      /\ raw_dist_of p1 p2 p3 p4 < 0).
Proof.
  rewrite raw_dist_big_endian. unfold to_long, big_endian_32.
  pose proof (byte_val_range p1). pose proof (byte_val_range p2).
  pose proof (byte_val_range p3). pose proof (byte_val_range p4).
  set (v := byte_val p1 * 2 ^ 24 + byte_val p2 * 2 ^ 16 + byte_val p3 * 2 ^ 8
            + byte_val p4).
  assert (Hv : 0 <= v < 2 ^ 32) by (unfold v; lia).
  assert (Hlo : byte_val p1 < 128 -> v < 2 ^ 31) by (unfold v; lia).
  assert (Hhi : 128 <= byte_val p1 -> 2 ^ 31 <= v) by (unfold v; lia).
  clearbody v.
  split; [pose proof (Z.mod_pos_bound (v + 2 ^ 31) (2 ^ 32) ltac:(lia)); lia|].
  split.
  - intros L. rewrite Z.mod_small by (specialize (Hlo L); lia). lia.
  - intros G. specialize (Hhi G).
    replace (v + 2 ^ 31) with (v - 2 ^ 31 + 1 * 2 ^ 32) by lia.
    rewrite Z.mod_add by lia. rewrite Z.mod_small by lia. lia.
Qed.

(** ** The window slides *)

Lemma window_push_all_app vs1 : forall vs2 w,
  window_push_all (vs1 ++ vs2) w =
  match window_push_all vs1 w with
  | Some w1 => window_push_all vs2 w1
  | None => None
  end.
Proof.
  induction vs1 as [|v rest IH]; intros vs2 w; cbn [window_push_all app].
  - reflexivity.
  - destruct w as [[h i] s]. destruct (window_push h i v); [apply IH | reflexivity].
Qed.

(** Pushing keeps a window a window, and the index counts the pushes
    modulo 20. *)
Lemma window_push_all_total vs : forall h i s,
  Z.of_nat (List.length h) = HISTORY_SIZE -> 0 <= i < HISTORY_SIZE ->
  exists h' s',
    window_push_all vs (h, i, s)
    = Some (h', (i + Z.of_nat (List.length vs)) mod HISTORY_SIZE, s')
    /\ Z.of_nat (List.length h') = HISTORY_SIZE.
Proof.
  induction vs as [|v rest IH]; intros h i s L I; cbn [window_push_all List.length].
  - exists h, s. rewrite Z.add_0_r, Z.mod_small by exact I. auto.
  - unfold window_push.
    destruct (window_push_total h i v L I) as (h1 & -> & L1 & ->).
    destruct (IH h1 ((i + 1) mod HISTORY_SIZE)
                (F32.div (float_sum h1) (F32.of_int HISTORY_SIZE)) L1
                (history_index_next i)) as (h' & s' & E & L').
    exists h', s'. rewrite E. split; [|exact L'].
    do 3 f_equal. unfold HISTORY_SIZE.
    rewrite Z.add_mod_idemp_l by lia. f_equal. lia.
Qed.

(** Twenty pushes replace the whole window, whatever it held, and bring
    the index back to where it was. *)
Lemma window_push_20 h vs i s :
  Z.of_nat (List.length h) = HISTORY_SIZE ->
  List.length vs = 20%nat ->
  0 <= i < HISTORY_SIZE ->
  let k := Z.to_nat (HISTORY_SIZE - i) in
  window_push_all vs (h, i, s)
  = Some (skipn k vs ++ firstn k vs, i, mean20 (skipn k vs ++ firstn k vs)).
Proof.
  intros L Lv I k. unfold HISTORY_SIZE in L, I, k.
  set (pre := firstn (Z.to_nat i) h). set (rest := skipn (Z.to_nat i) h).
  assert (Eh : h = pre ++ rest) by (symmetry; apply firstn_skipn).
  assert (Lpre : List.length pre = Z.to_nat i)
    by (unfold pre; rewrite length_firstn; lia).
  assert (Lrest : List.length rest = k)
    by (unfold rest; rewrite length_skipn; lia).
  set (vs1 := firstn k vs). set (vs2 := skipn k vs).
  assert (Ev : vs = vs1 ++ vs2) by (symmetry; apply firstn_skipn).
  assert (L1 : List.length vs1 = k) by (unfold vs1; rewrite length_firstn; lia).
  assert (L2 : List.length vs2 = Z.to_nat i)
    by (unfold vs2; rewrite length_skipn; lia).
  rewrite Ev at 1. rewrite window_push_all_app.
  replace i with (Z.of_nat (List.length pre)) at 1 by lia.
  rewrite Eh.
  rewrite (window_push_all_at vs1 pre rest s);
    [| unfold HISTORY_SIZE; rewrite <- Eh; exact L | lia
     | intros E; rewrite E in L1; cbn in L1; lia].
  rewrite L1, <- Lrest, skipn_all, app_nil_r.
  replace (Z.of_nat (List.length pre + List.length rest) mod HISTORY_SIZE)
    with 0 by (unfold HISTORY_SIZE; rewrite Lpre, Lrest;
               replace (Z.of_nat (Z.to_nat i + k)) with (1 * 20) by lia;
               rewrite Z.mod_mul; lia).
  destruct vs2 as [|v2 vs2'] eqn:E2.
  - cbn [window_push_all app]. cbn [List.length] in L2.
    assert (i = 0) by lia. subst i.
    destruct pre; [|cbn in Lpre; lia]. reflexivity.
  - rewrite <- E2 in *.
    pose proof (window_push_all_at vs2 [] (pre ++ vs1)
                  (mean20 (pre ++ vs1))) as W.
    cbn [app List.length] in W. change (Z.of_nat 0) with 0 in W.
    rewrite W;
      [| unfold HISTORY_SIZE; rewrite length_app; lia
       | rewrite length_app; lia
       | rewrite E2; discriminate].
    rewrite L2, <- Lpre, skipn_app, skipn_all, Nat.sub_diag. cbn [skipn app].
    rewrite Lpre. unfold HISTORY_SIZE.
    rewrite Z.mod_small by lia. cbn [Nat.add]. rewrite Z2Nat.id by lia.
    reflexivity.
Qed.

(** X9. The window holds exactly the last 20 values pushed: after any
    number of pushes followed by 20 more, from any window of 20 slots,
    slot [(j + n) mod 20] holds the n-th of the last 20 values, [j] being
    the index before them; older values and the initial contents have no
    influence on the window or on the stabilized reading, which is the
    mean of the 20 slots added in slot order. *)
Theorem window_holds_last_20
  (h older vs : list float) (i : Z) (s : float) :
  Z.of_nat (List.length h) = HISTORY_SIZE ->
  0 <= i < HISTORY_SIZE ->
  List.length vs = 20%nat ->
  let j := (i + Z.of_nat (List.length older)) mod HISTORY_SIZE in
  let k := Z.to_nat (HISTORY_SIZE - j) in
  window_push_all (older ++ vs) (h, i, s)
  = Some (skipn k vs ++ firstn k vs, j, mean20 (skipn k vs ++ firstn k vs)).
Proof.
  intros L I Lv j k.
  rewrite window_push_all_app.
  destruct (window_push_all_total older h i s L I) as (h' & s' & -> & L').
  apply window_push_20; [exact L' | exact Lv |].
  apply Z.mod_pos_bound. reflexivity.
Qed.

(** ** The gain of the filter *)

Lemma updates_gain zs : forall zs' f f',
  List.length zs = List.length zs' ->
  kQ f = kQ f' -> kR f = kR f' -> kP f = kP f' -> kK f = kK f' ->
  kQ (updates f zs) = kQ f
  /\ kR (updates f zs) = kR f
  /\ kP (updates f zs) = kP (updates f' zs')
  /\ kK (updates f zs) = kK (updates f' zs').
Proof.
  induction zs as [|z rest IH]; intros [|z' rest'] f f' L Q R P K;
    try discriminate L; cbn [updates].
  - auto.
  - injection L as L.
    destruct (update_fields f z) as (Q1 & R1 & K1 & P1).
    destruct (update_fields f' z') as (Q2 & R2 & K2 & P2).
    cbv zeta in *.
    destruct (IH rest' (fst (update f z)) (fst (update f' z')) L)
      as (Q3 & R3 & P3 & K3); try congruence.
    split; [congruence|]. split; [congruence|]. split; assumption.
Qed.

(** X10. The covariance P and the gain K after a sequence of calls depend
    on the number of calls only, not on the measurements or on the
    estimate; Q and R are never changed. *)
Theorem gain_independent_of_measurements
  (f : SimpleKalmanFilter) (x' : float) (zs zs' : list float) :
  List.length zs = List.length zs' ->
  let f' := mkKalman (kQ f) (kR f) (kP f) (kK f) x' in
  kP (updates f zs) = kP (updates f' zs')
  /\ kK (updates f zs) = kK (updates f' zs')
  /\ kQ (updates f zs) = kQ f
  /\ kR (updates f zs) = kR f.
Proof.
  intros L f'.
  destruct (updates_gain zs zs' f f' L eq_refl eq_refl eq_refl eq_refl)
    as (Q & R & P & K).
  auto.
Qed.

Lemma update_next_K f z :
  kQ f = lit_0_01 -> kR f = lit_0_1 ->
  kK (fst (update f z)) = next_K (kP f).
Proof. intros Q R. unfold next_K, update. cbn. rewrite Q, R. reflexivity. Qed.

Lemma updates_P_iter zs : forall f,
  kQ f = lit_0_01 -> kR f = lit_0_1 ->
  kQ (updates f zs) = lit_0_01 /\ kR (updates f zs) = lit_0_1
  /\ kP (updates f zs) = Nat.iter (List.length zs) next_P (kP f).
Proof.
  induction zs as [|z rest IH]; intros f Q R; cbn [updates List.length].
  - auto.
  - destruct (update_fields f z) as (Q1 & R1 & _).
    destruct (IH (fst (update f z))) as (Q2 & R2 & P2); try congruence.
    split; [exact Q2|]. split; [exact R2|].
    rewrite P2, Nat.iter_succ_r, update_next_P by assumption. reflexivity.
Qed.

Lemma next_P_settled n : Nat.iter (27 + n) next_P lit_0_5 = steady_P.
Proof.
  induction n as [|n IH].
  - vm_compute. reflexivity.
  - rewrite Nat.add_succ_r, Nat.iter_succ, IH.
    vm_compute. reflexivity.
Qed.

Lemma sketch_filter_steady zs :
  (27 <= List.length zs)%nat ->
  kQ (updates sketch_filter zs) = lit_0_01
  /\ kR (updates sketch_filter zs) = lit_0_1
  /\ kP (updates sketch_filter zs) = steady_P
  /\ ((28 <= List.length zs)%nat -> kK (updates sketch_filter zs) = steady_K).
Proof.
  intros L.
  destruct (updates_P_iter zs sketch_filter eq_refl eq_refl) as (Q & R & P).
  split; [exact Q|]. split; [exact R|]. split.
  - rewrite P. replace (List.length zs) with (27 + (List.length zs - 27))%nat by lia.
    apply next_P_settled.
  - intros L28.
    destruct (exists_last (l := zs)) as (zs0 & z & E).
    { intros ->. cbn in L28. lia. }
    subst zs. rewrite length_app in L28. cbn [List.length] in L28.
    rewrite updates_snoc.
    destruct (updates_P_iter zs0 sketch_filter eq_refl eq_refl) as (Q0 & R0 & P0).
    rewrite update_next_K by assumption.
    rewrite P0.
    replace (List.length zs0) with (27 + (List.length zs0 - 27))%nat by lia.
    rewrite next_P_settled. vm_compute. reflexivity.
Qed.

(** X11. The filter that the sketch constructs settles: after 27 calls P
    has the value [steady_P] (about 0.027) and after 28 calls K has the
    value [steady_K] (about 0.270), whatever was measured, and they keep
    these values for ever. From then on a call is the exponential
    smoothing x := x + K * (z - x) with this fixed K. *)
Theorem sketch_filter_settles (zs : list float) (z : float) :
  (28 <= List.length zs)%nat ->
  let f := updates sketch_filter zs in
  kP f = steady_P /\ kK f = steady_K
  /\ kP (fst (update f z)) = steady_P
  /\ kK (fst (update f z)) = steady_K
  /\ snd (update f z) = F32.add (kx f) (F32.mul steady_K (F32.sub z (kx f))).
Proof.
  intros L f.
  destruct (sketch_filter_steady zs ltac:(lia)) as (Q & R & P & K).
  specialize (K L).
  destruct (sketch_filter_steady (zs ++ [z])) as (_ & _ & P' & K').
  { rewrite length_app. cbn [List.length]. lia. }
  rewrite updates_snoc in P', K'.
  specialize (K' ltac:(rewrite length_app; cbn [List.length]; lia)).
  fold f in P, K, P', K'.
  split; [exact P|]. split; [exact K|]. split; [exact P'|]. split; [exact K'|].
  rewrite <- K'. reflexivity.
Qed.

(** ** The covariance *)

Lemma leb_add_zero x p s :
  is_finite p = true ->
  F32.leb x (F32.add p (S754_zero s)) = true -> F32.leb x p = true.
Proof.
  destruct p as [t|t| |t m e]; try discriminate; intros _ H.
  - destruct x as [[|]|[|]| |[|] mx ex], t, s; cbn in *; congruence.
  - exact H.
Qed.

(** X12. A call never raises the covariance above the sum P + Q that
    opens it; with Q = 0 the covariance never grows at all. *)
Theorem covariance_never_grows (f : SimpleKalmanFilter) (z : float) :
  filter_ok f = true ->
  is_finite (F32.add (kP f) (kQ f)) = true ->
  F32.leb (kP (fst (update f z))) (F32.add (kP f) (kQ f)) = true
  /\ (forall s, kQ f = S754_zero s ->
        F32.leb (kP (fst (update f z))) (kP f) = true).
Proof.
  intros Ok Fin.
  destruct (update_keeps_filter_ok f z Ok Fin) as (_ & L).
  split; [exact L|].
  intros s Q0. rewrite Q0 in L.
  apply filter_ok_iff in Ok as (_ & _ & _ & _ & _ & _ & FP & _).
  exact (leb_add_zero _ _ _ FP L).
Qed.

(** ** Values that are not numbers *)

Lemma add_nan_l y : F32.add S754_nan y = S754_nan.
Proof. reflexivity. Qed.

Lemma add_nan_r x : F32.add x S754_nan = S754_nan.
Proof. destruct x as [[|]|[|]| |[|] m e]; reflexivity. Qed.

Lemma sub_nan_l y : F32.sub S754_nan y = S754_nan.
Proof. reflexivity. Qed.

Lemma sub_nan_r x : F32.sub x S754_nan = S754_nan.
Proof. destruct x as [[|]|[|]| |[|] m e]; reflexivity. Qed.

Lemma mul_nan_r x : F32.mul x S754_nan = S754_nan.
Proof. destruct x as [[|]|[|]| |[|] m e]; reflexivity. Qed.

Lemma div_nan_l y : F32.div S754_nan y = S754_nan.
Proof. reflexivity. Qed.

Lemma update_nan f z :
  kx f = S754_nan \/ z = S754_nan ->
  kx (fst (update f z)) = S754_nan /\ snd (update f z) = S754_nan.
Proof.
  intros H.
  assert (E : kx (fst (update f z))
              = F32.add (kx f)
                  (F32.mul (kK (fst (update f z))) (F32.sub z (kx f))))
    by reflexivity.
  assert (E' : snd (update f z) = kx (fst (update f z))) by reflexivity.
  rewrite E', E. destruct H as [-> | ->].
  - rewrite add_nan_l. auto.
  - rewrite sub_nan_l, mul_nan_r, add_nan_r. auto.
Qed.

Lemma fold_add_nan vs : fold_left F32.add vs S754_nan = S754_nan.
Proof.
  induction vs as [|v rest IH]; cbn [fold_left]; [reflexivity|].
  rewrite add_nan_l. exact IH.
Qed.

Lemma float_sum_nan vs : forall acc,
  In S754_nan vs -> fold_left F32.add vs acc = S754_nan.
Proof.
  induction vs as [|v rest IH]; intros acc I; [contradiction|].
  cbn [fold_left]. destruct I as [-> | I].
  - rewrite add_nan_r. apply fold_add_nan.
  - apply IH. exact I.
Qed.

(** X13. A NaN is never shaken off: a NaN measurement makes the estimate
    NaN, a NaN estimate stays NaN through every later call whatever is
    measured, and a window that holds a NaN has a NaN mean. *)
Theorem nan_is_permanent (f : SimpleKalmanFilter) (z : float) (zs : list float)
  (h : list float) :
  kx f = S754_nan \/ z = S754_nan ->
  kx (updates f (z :: zs)) = S754_nan
  /\ snd (update f z) = S754_nan
  /\ (In S754_nan h -> mean20 h = S754_nan).
Proof.
  intros H. split; [|split].
  - cbn [updates]. destruct (update_nan f z H) as (E & _).
    revert E. generalize (fst (update f z)). clear.
    induction zs as [|z' rest IH]; intros f E; cbn [updates]; [exact E|].
    apply IH. apply update_nan. left. exact E.
  - apply update_nan. exact H.
  - intros I. unfold mean20, float_sum. rewrite (float_sum_nan h _ I).
    apply div_nan_l.
Qed.

(** ** [mapFloat] on an empty input range *)

Lemma sub_same_zero a : is_finite a = true -> F32.sub a a = S754_zero false.
Proof.
  destruct a as [[|]|[|]| |s m e]; try discriminate; intros _; try reflexivity.
  unfold F32.sub, SFsub. cbv beta iota zeta.
  rewrite Z.sub_diag. reflexivity.
Qed.

(** X14. [mapFloat] does not guard its division: when the input range is
    empty, [in_min = in_max], the result is never a number, whatever the
    other arguments are. *)
Theorem mapFloat_empty_input_range (x a c d : float) :
  is_finite a = true ->
  is_finite (mapFloat x a a c d) = false.
Proof.
  intros F. unfold mapFloat. rewrite (sub_same_zero a F).
  destruct (F32.mul (F32.sub x a) (F32.sub d c)) as [[|]|[|]| |[|] m e];
    destruct c as [[|]|[|]| |[|] mc ec]; reflexivity.
Qed.

(** ** The two channels along a run *)

Lemma processForceSensor_channel adc g g' :
  processForceSensor adc g = Some g' ->
  force_channel_after [adc] (force_channel g) = Some (force_channel g').
Proof.
  unfold processForceSensor, force_channel_after, force_channel, window_push.
  fold (rawForce_of adc).
  destruct (update (forceKalman g) (rawForce_of adc)) as [kf kv].
  destruct (store _ _ _) as [h|]; [|discriminate].
  destruct (sum_history h); [|discriminate].
  intros [= <-]. reflexivity.
Qed.

Lemma loop_force_channel i g g' out :
  loop i g = Some (g', out) ->
  force_channel_after [force_adc i] (force_channel g) = Some (force_channel g').
Proof.
  intros L. apply loop_inv in L as (g1 & g2 & D & F & T).
  apply processDistanceSensor_channels in D as (Df & _).
  apply processForceSensor_channel in F. rewrite Df in F. rewrite F.
  destruct T as [(_ & -> & _) | (_ & S)]; [reflexivity|].
  destruct (sendAllData_cases (pressure_adc i)
              (set_lastSendTime (to_ulong (millis_stamp i)) g2))
    as [(_ & E) | (_ & E)]; rewrite E in S; inversion S; subst; reflexivity.
Qed.

Lemma force_channel_after_cons adc rest c :
  force_channel_after (adc :: rest) c =
  match force_channel_after [adc] c with
  | Some c1 => force_channel_after rest c1
  | None => None
  end.
Proof.
  destruct c as [[[k h] i] s]. cbn [force_channel_after].
  destruct (update k (rawForce_of adc)) as [k' v].
  destruct (window_push h i v) as [[[h' i'] s']|]; reflexivity.
Qed.

Lemma run_force_channel ins : forall g g' out,
  run ins g = Some (g', out) ->
  force_channel_after (map force_adc ins) (force_channel g)
  = Some (force_channel g').
Proof.
  induction ins as [|i rest IH]; intros g g' out R; cbn [run map] in *.
  - injection R as <- <-. reflexivity.
  - destruct (loop i g) as [[g1 out1]|] eqn:L; [|discriminate].
    destruct (run rest g1) as [[g2 out2]|] eqn:R2; [|discriminate].
    injection R as <- <-.
    rewrite force_channel_after_cons, (loop_force_channel _ _ _ _ L).
    exact (IH _ _ _ R2).
Qed.

Lemma force_channel_after_filter adcs : forall k h i s k' h' i' s',
  force_channel_after adcs (k, h, i, s) = Some (k', h', i', s') ->
  k' = updates k (map rawForce_of adcs).
Proof.
  induction adcs as [|adc rest IH]; intros k h i s k' h' i' s' E;
    cbn [force_channel_after map updates] in *.
  - congruence.
  - destruct (update k (rawForce_of adc)) as [k1 v] eqn:U.
    destruct (window_push h i v) as [[[h1 i1] s1]|]; [|discriminate].
    cbn [fst]. exact (IH _ _ _ _ _ _ _ _ E).
Qed.

(** X15. The force channel is a function of the force readings alone: the
    filter, the window, the index and the stabilized force after a run
    are what scaling, filtering and pushing the readings of the force pin
    one after the other give, whatever arrived on the infrared line,
    whatever the clock and the pressure pin read and whether records were
    printed. In particular the force filter has had exactly one call for
    each pass. *)
Theorem force_channel_of_run
  (ins : list loop_input) (g g' : globals) (out : list serial_call) :
  run ins g = Some (g', out) ->
  force_channel_after (map force_adc ins) (force_channel g)
  = Some (force_channel g')
  /\ forceKalman g'
     = updates (forceKalman g) (map rawForce_of (map force_adc ins)).
Proof.
  intros R. pose proof (run_force_channel _ _ _ _ R) as E.
  split; [exact E|].
  unfold force_channel in E.
  exact (force_channel_after_filter _ _ _ _ _ _ _ _ _ E).
Qed.

(** X16. Once the sketch has made 28 passes, the force filter runs with
    the settled covariance and gain, on any inputs. *)
Theorem force_filter_settled_after_28_passes
  (ins : list loop_input) (g : globals) (out : list serial_call) :
  sketch ins = Some (g, out) ->
  (28 <= List.length ins)%nat ->
  kP (forceKalman g) = steady_P /\ kK (forceKalman g) = steady_K.
Proof.
  intros S L. unfold sketch in S. cbn [setup] in S.
  destruct (run ins initial) as [[g' out']|] eqn:R; [|discriminate].
  injection S as <- <-.
  pose proof (run_force_channel _ _ _ _ R) as E.
  unfold force_channel in E.
  apply force_channel_after_filter in E.
  change (forceKalman initial) with sketch_filter in E.
  assert (L' : (28 <= List.length (map rawForce_of (map force_adc ins)))%nat)
    by (rewrite !length_map; exact L).
  assert (L27 : (27 <= List.length (map rawForce_of (map force_adc ins)))%nat)
    by lia.
  destruct (sketch_filter_steady _ L27) as (_ & _ & P & K).
  rewrite E. split; [exact P | exact (K L')].
Qed.

Lemma decode_byte_view b ga gb ga' :
  decoder_view ga = decoder_view gb ->
  decode_byte b ga = Some ga' ->
  exists gb', decode_byte b gb = Some gb' /\ decoder_view ga' = decoder_view gb'.
Proof.
  destruct ga, gb. unfold decoder_view, distance_channel.
  cbn [distanceKalman distanceHistory
       distanceHistoryIndex stable_distance_mm
       state payloadBuffer bufferIndex].
  intros [= -> -> -> -> -> -> ->].
  unfold decode_byte, deliver_distance, set_decoder.
  cbn [distanceKalman distanceHistory
       distanceHistoryIndex stable_distance_mm
       state payloadBuffer bufferIndex
       forceKalman forceHistory
       forceHistoryIndex stable_force_N
       bufferIsFull lastSendTime].
  match goal with |- context [match ?s with WAITING_FOR_AC => _ | _ => _ end] =>
    destruct s end.
  - destruct (Byte.eqb b xac); intros [= <-]; eexists; split; reflexivity.
  - intros [= <-]; eexists; split; reflexivity.
  - destruct (store _ _ b) as [p|]; [|discriminate].
    destruct (8 <=? _).
    + destruct (frame_measurement p) as [[z|]|]; [| |discriminate].
      * destruct (update _ z) as [kf kv].
        destruct (store _ _ kv) as [h|]; [|discriminate].
        destruct (sum_history h); [|discriminate].
        intros [= <-]; eexists; split; reflexivity.
      * intros [= <-]; eexists; split; reflexivity.
    + intros [= <-]; eexists; split; reflexivity.
Qed.

Lemma processForceSensor_view adc g g' :
  processForceSensor adc g = Some g' -> decoder_view g' = decoder_view g.
Proof.
  intros F. apply processForceSensor_frame in F as (D & _ & _ & S & P & I & _).
  unfold decoder_view. congruence.
Qed.

Lemma loop_view i g g' out :
  loop i g = Some (g', out) ->
  exists g1, processDistanceSensor (ir i) g = Some g1
             /\ decoder_view g' = decoder_view g1.
Proof.
  intros L. apply loop_inv in L as (g1 & g2 & D & F & T).
  exists g1. split; [exact D|].
  apply processForceSensor_view in F. rewrite <- F.
  destruct T as [(_ & -> & _) | (_ & S)]; [reflexivity|].
  destruct (sendAllData_cases (pressure_adc i)
              (set_lastSendTime (to_ulong (millis_stamp i)) g2))
    as [(_ & E) | (_ & E)]; rewrite E in S; inversion S; subst; reflexivity.
Qed.

Lemma run_view ins : forall g gb g' out,
  run ins g = Some (g', out) ->
  decoder_view g = decoder_view gb ->
  exists gf, feed (ir_bytes ins) gb = Some gf
             /\ decoder_view g' = decoder_view gf.
Proof.
  induction ins as [|i rest IH]; intros g gb g' out R V; cbn [run] in R.
  - injection R as <- <-. exists gb. split; [reflexivity | exact V].
  - destruct (loop i g) as [[g1 out1]|] eqn:L; [|discriminate].
    destruct (run rest g1) as [[g2 out2]|] eqn:R2; [|discriminate].
    injection R as <- <-.
    apply loop_view in L as (gd & D & V1).
    unfold ir_bytes. cbn [flat_map]. fold (ir_bytes rest).
    destruct (ir i) as [b|]; cbn [processDistanceSensor] in D.
    + destruct (decode_byte_view b g gb gd V D) as (gb1 & Db & Vb).
      cbn [app feed processDistanceSensor]. rewrite Db.
      apply (IH g1 gb1 g2 out2 R2). congruence.
    + injection D as <-. cbn [app].
      apply (IH g1 gb g2 out2 R2). congruence.
Qed.

(** X17. The distance side of a run is the decoder fed with the bytes
    that arrived, in order: the distance channel and the three statics of
    the decoder after the run are the ones that [processDistanceSensor]
    alone leaves on these bytes. Passes without a byte, the force and
    pressure readings, the clock and the printing do not enter. *)
Theorem distance_side_of_run
  (ins : list loop_input) (g g' : globals) (out : list serial_call) :
  run ins g = Some (g', out) ->
  exists gf,
    feed (ir_bytes ins) g = Some gf
    /\ distance_channel g' = distance_channel gf
    /\ state g' = state gf
    /\ payloadBuffer g' = payloadBuffer gf
    /\ bufferIndex g' = bufferIndex gf.
Proof.
  intros R. destruct (run_view ins g g g' out R eq_refl) as (gf & F & V).
  exists gf. split; [exact F|].
  split; [exact (f_equal (fun v => fst (fst (fst v))) V)|].
  split; [exact (f_equal (fun v => snd (fst (fst v))) V)|].
  split; [exact (f_equal (fun v => snd (fst v)) V)|].
  exact (f_equal snd V).
Qed.

(** ** The decoder cannot get stuck *)

Lemma decode_byte_state b g g' :
  decode_byte b g = Some g' ->
  match state g with
  | WAITING_FOR_AC =>
      state g' = if Byte.eqb b xac then WAITING_FOR_CA else WAITING_FOR_AC
  | WAITING_FOR_CA =>
      state g' = (if Byte.eqb b xca then READING_PAYLOAD else WAITING_FOR_AC)
      /\ bufferIndex g' = 0
  | READING_PAYLOAD =>
      state g' = (if 8 <=? bufferIndex g + 1
                  then WAITING_FOR_AC else READING_PAYLOAD)
      /\ bufferIndex g' = bufferIndex g + 1
  end.
Proof.
  unfold decode_byte. destruct (state g) eqn:St.
  - destruct (Byte.eqb b xac); intros [= <-]; [reflexivity | exact St].
  - intros [= <-]. split; reflexivity.
  - destruct (store _ _ b) as [p|]; [|discriminate].
    destruct (8 <=? bufferIndex g + 1).
    + destruct (frame_measurement p) as [[z|]|]; [| |discriminate].
      * destruct (deliver_distance z g) as [gd|]; [|discriminate].
        intros [= <-]. split; reflexivity.
      * intros [= <-]. split; reflexivity.
    + intros [= <-]. split; reflexivity.
Qed.

Lemma bytes_to_sync_step b g :
  well_formed g = true -> state g <> WAITING_FOR_AC ->
  exists g', decode_byte b g = Some g' /\ well_formed g' = true
             /\ 0 <= bytes_to_sync g' < bytes_to_sync g.
Proof.
  intros W N.
  destruct (decode_byte_total b g W) as (g' & D & W').
  exists g'. split; [exact D|]. split; [exact W'|].
  pose proof (decode_byte_state b g g' D) as S.
  apply well_formed_iff in W as (_ & _ & _ & _ & _ & WI).
  unfold bytes_to_sync. destruct (state g); [contradiction| |].
  - destruct S as (-> & E). rewrite E.
    destruct (Byte.eqb b xca); lia.
  - specialize (WI eq_refl). destruct S as (-> & E). rewrite E.
    destruct (8 <=? bufferIndex g + 1) eqn:C.
    + lia.
    + apply Z.leb_gt in C. lia.
Qed.

Lemma feed_resyncs (k : nat) : forall g bs,
  well_formed g = true ->
  bytes_to_sync g <= Z.of_nat k ->
  bytes_to_sync g <= Z.of_nat (List.length bs) ->
  exists n g',
    Z.of_nat n <= bytes_to_sync g
    /\ feed (firstn n bs) g = Some g'
    /\ state g' = WAITING_FOR_AC
    /\ well_formed g' = true.
Proof.
  induction k as [|k IH]; intros g bs W K L.
  - destruct (state g) eqn:St.
    + exists O, g. unfold bytes_to_sync. rewrite St. cbn. auto with zarith.
    + unfold bytes_to_sync in K. rewrite St in K. lia.
    + apply well_formed_iff in W as (_ & _ & _ & _ & _ & WI).
      specialize (WI St). unfold bytes_to_sync in K. rewrite St in K. lia.
  - destruct (state g) eqn:St.
    + exists O, g. unfold bytes_to_sync. rewrite St. cbn. auto with zarith.
    + destruct bs as [|b rest];
        [unfold bytes_to_sync in L; rewrite St in L; cbn [List.length] in L; lia|].
      destruct (bytes_to_sync_step b g W ltac:(congruence)) as (g1 & D & W1 & M).
      cbn [List.length] in L.
      destruct (IH g1 rest W1 ltac:(lia) ltac:(lia)) as (n & g' & Hn & F & S' & W').
      exists (S n), g'. split; [lia|].
      cbn [firstn feed processDistanceSensor]. rewrite D. auto.
    + pose proof W as W0.
      apply well_formed_iff in W0 as (_ & _ & _ & _ & _ & WI).
      specialize (WI St).
      destruct bs as [|b rest];
        [unfold bytes_to_sync in L; rewrite St in L; cbn [List.length] in L; lia|].
      destruct (bytes_to_sync_step b g W ltac:(congruence)) as (g1 & D & W1 & M).
      cbn [List.length] in L.
      destruct (IH g1 rest W1 ltac:(lia) ltac:(lia)) as (n & g' & Hn & F & S' & W').
      exists (S n), g'. split; [lia|].
      cbn [firstn feed processDistanceSensor]. rewrite D. auto.
Qed.

(** X18. The decoder cannot get stuck inside a frame: from any
    well-formed state and on any bytes whatever, it is searching for sync
    again after at most nine bytes, at most [8 - bufferIndex] of them
    when it is reading a payload. *)
Theorem decoder_resyncs (g : globals) (bs : list byte) :
  well_formed g = true ->
  (9 <= List.length bs)%nat ->
  exists n g',
    (n <= 9)%nat
    /\ Z.of_nat n <= bytes_to_sync g
    /\ feed (firstn n bs) g = Some g'
    /\ state g' = WAITING_FOR_AC
    /\ well_formed g' = true.
Proof.
  intros W L.
  assert (B : 0 <= bytes_to_sync g <= 9).
  { pose proof W as W0.
    apply well_formed_iff in W0 as (_ & _ & _ & _ & _ & WI).
    unfold bytes_to_sync. destruct (state g); [lia | lia |].
    specialize (WI eq_refl). lia. }
  destruct (feed_resyncs 9 g bs W ltac:(lia) ltac:(lia)) as (n & g' & Hn & R).
  exists n, g'. split; [lia|]. split; [exact Hn | exact R].
Qed.

(** ** Instances on concrete inputs *)

Lemma C1_frame_decoder_witness :
  well_formed initial = true
  /\ state initial = WAITING_FOR_AC
  /\ exists g9 g10,
       feed [xac; xca; x01; x00; x00; x27; x10; x01; xdc] initial = Some g9
       /\ processDistanceSensor (Some xcd) g9 = Some g10
       /\ state g10 = WAITING_FOR_AC
       /\ ((exists z, measurement_on xcd g9 = Some z)
           <-> x01 <> x00 /\ xdc = xdc /\ xcd = xcd)
       /\ measurement_on xcd g9 = Some (F32.of_int 100)
       /\ distanceKalman g10
          = fst (update (distanceKalman initial) (F32.of_int 100))
       /\ distanceHistoryIndex g10 = 1.
Proof.
  split; [reflexivity|]. split; [reflexivity|].
  destruct (C1_frame_decoder initial x01 x00 x00 x27 x10 x01 xdc xcd
              eq_refl eq_refl)
    as (g9 & g10 & F & _ & D & S & V & Z & _).
  assert (M : measurement_on xcd g9 = Some (F32.of_int 100)).
  { vm_compute in F. injection F as <-. vm_compute. reflexivity. }
  destruct (Z _ M) as (_ & _ & Ek & _ & Ei & _).
  exists g9, g10.
  split; [exact F|]. split; [exact D|]. split; [exact S|]. split; [exact V|].
  split; [exact M|]. split; [exact Ek | exact Ei].
Defined.

Lemma C3_example_frame_with_header_witness :
  well_formed initial = true
  /\ state initial = WAITING_FOR_AC
  /\ deliveries (example_frame_with x5a) initial = [F32.of_int 100]
  /\ exists g10,
       feed (example_frame_with x5a) initial = Some g10
       /\ distanceKalman g10
          = fst (update (distanceKalman initial) (F32.of_int 100))
       /\ distanceHistoryIndex g10 = 1.
Proof.
  split; [reflexivity|]. split; [reflexivity|].
  destruct (C3_example_frame_with_header initial x5a eq_refl eq_refl)
    as (_ & Dl & g10 & gd & F & _ & _ & _ & Ek & _ & Ei & _).
  split; [exact Dl|]. exists g10.
  split; [exact F|]. split; [exact Ek | exact Ei].
Defined.

Lemma C4_window_mean_witness :
  well_formed initial = true
  /\ List.length (repeat F32.one 20) = 20%nat
  /\ window_push_all (repeat F32.one 20) (fresh_window, 0, F32.zero)
     = Some (repeat F32.one 20, 0, mean20 (repeat F32.one 20))
  /\ exists s,
       window_push fresh_window 0 F32.one
       = Some (F32.one :: repeat F32.zero 19, 1, s)
       /\ F32.same_number s (F32.div F32.one (F32.of_int 20)).
Proof.
  split; [reflexivity|]. split; [reflexivity|].
  destruct (C4_window_mean initial 512 (F32.of_int 100) (repeat F32.one 20)
              F32.one F32.zero eq_refl eq_refl)
    as (_ & _ & A & s & P & _ & N).
  split; [exact A|]. exists s. split; [exact P | exact N].
Defined.


Lemma C7_streaming_is_final_witness :
  let g := set_bufferIsFull true initial in
  exists g2 out2,
    bufferIsFull g = true
    /\ run [] g = Some (g, [])
    /\ loop (pass_at 100) g = Some (g2, out2)
    /\ tick_due (pass_at 100) g = true
    /\ bufferIsFull g2 = true
    /\ List.length (records out2) = 1%nat.
Proof.
  intros g.
  destruct (loop (pass_at 100) g) as [[g2 out2]|] eqn:E;
    [|vm_compute in E; discriminate].
  exists g2, out2.
  split; [reflexivity|]. split; [reflexivity|]. split; [reflexivity|].
  split; [reflexivity|].
  destruct (C7_streaming_is_final (fun _ _ => EmptyString) [] (pass_at 100)
              g g g2 [] out2 eq_refl eq_refl E) as (_ & B2 & T & _).
  split; [exact B2|]. apply T. reflexivity.
Defined.

(** A frame whose last byte is not 0xCD is dropped with the distance
    channel untouched; the byte that completes a valid frame leaves the
    force channel alone; and a run without any frame prints its record
    with the distance -1.0. *)
Lemma C8_distance_channel_frame_witness :
  exists g9 g10 g10',
    feed [xac; xca; x01; x00; x00; x27; x10; x01; xdc] initial = Some g9
    /\ processDistanceSensor (Some x00) g9 = Some g10
    /\ measurement_on x00 g9 = None
    /\ state g9 = READING_PAYLOAD /\ state g10 = WAITING_FOR_AC
    /\ distance_channel g10 = distance_channel g9
    /\ processDistanceSensor (Some xcd) g9 = Some g10'
    /\ measurement_on xcd g9 = Some (F32.of_int 100)
    /\ force_channel g10' = force_channel g9
    /\ exists g out,
         sketch nineteen_then_tick = Some (g, out)
         /\ distance_writes nineteen_then_tick initial = 0%nat
         /\ List.length (records out) = 1%nat
         /\ stable_distance_mm g = F32.of_int (-1)
         /\ Forall (fun r => snd (fst r) = F32.of_int (-1)) (records out).
Proof.
  destruct C8_distance_channel_frame as (A & B & C).
  destruct (feed [xac; xca; x01; x00; x00; x27; x10; x01; xdc] initial)
    as [g9|] eqn:F; [|vm_compute in F; discriminate].
  destruct (processDistanceSensor (Some x00) g9) as [g10|] eqn:D;
    [|vm_compute in F; injection F as <-; vm_compute in D; discriminate].
  destruct (processDistanceSensor (Some xcd) g9) as [g10'|] eqn:D';
    [|vm_compute in F; injection F as <-; vm_compute in D'; discriminate].
  assert (M : measurement_on x00 g9 = None).
  { vm_compute in F. injection F as <-. vm_compute. reflexivity. }
  assert (M' : measurement_on xcd g9 = Some (F32.of_int 100)).
  { vm_compute in F. injection F as <-. vm_compute. reflexivity. }
  assert (S9 : state g9 = READING_PAYLOAD).
  { vm_compute in F. injection F as <-. reflexivity. }
  assert (S10 : state g10 = WAITING_FOR_AC).
  { vm_compute in F. injection F as <-. vm_compute in D.
    injection D as <-. reflexivity. }
  exists g9, g10, g10'.
  split; [reflexivity|]. split; [exact D|]. split; [exact M|].
  split; [exact S9|]. split; [exact S10|].
  split.
  { apply (A (Some x00) g9 g10 D). intros b [= <-]. exact M. }
  split; [exact D'|]. split; [exact M'|].
  split; [exact (C (Some xcd) g9 g10' D')|].
  destruct (sketch nineteen_then_tick) as [[g out]|] eqn:E;
    [|vm_compute in E; discriminate].
  assert (W0 : distance_writes nineteen_then_tick initial = 0%nat)
    by (vm_compute; reflexivity).
  assert (L1 : List.length (records out) = 1%nat).
  { vm_compute in E. injection E as <- <-. reflexivity. }
  destruct (B nineteen_then_tick g out E W0) as (_ & Sd & Fr).
  exists g, out.
  split; [reflexivity|]. split; [exact W0|]. split; [exact L1|].
  split; [exact Sd | exact Fr].
Defined.

Lemma C10_writes_in_bounds_witness :
  exists g out,
    run nineteen_then_tick initial = Some (g, out)
    /\ 0 <= forceHistoryIndex g < HISTORY_SIZE
    /\ 0 <= distanceHistoryIndex g < HISTORY_SIZE.
Proof.
  destruct (proj1 C10_writes_in_bounds nineteen_then_tick)
    as (g & out & R & F & D & _).
  exists g, out. auto.
Defined.

Lemma C9_filter_bounds_witness :
  let f := newKalman lit_0_01 lit_0_1 lit_0_5 in
  let zs := [F32.of_int 100; F32.of_int 50; F32.of_int 75] in
  filter_ok f = true
  /\ no_overflow f zs = true
  /\ F32.leb F32.zero (kK (updates f zs)) = true
  /\ F32.leb (kK (updates f zs)) F32.one = true
  /\ F32.leb F32.zero (kP (updates f zs)) = true.
Proof.
  intros f zs.
  assert (Ok : filter_ok f = true) by (vm_compute; reflexivity).
  assert (No : no_overflow f zs = true) by (vm_compute; reflexivity).
  split; [exact Ok|]. split; [exact No|].
  destruct (proj1 (C9_filter_bounds f zs Ok) No) as (P0 & K0 & K1 & _).
  auto.
Defined.

(** *** Further instances *)

Lemma pressure_in_unit_range_witness :
  0 <= 512 <= 1023
  /\ F32.leb F32.zero (processPressureSensor 512) = true
  /\ F32.leb (processPressureSensor 512) F32.one = true
  /\ F32.ltb (processPressureSensor 512) (processPressureSensor (512 + 1)) = true.
Proof.
  assert (H : 0 <= 512 <= 1023) by lia.
  split; [exact H|].
  destruct (pressure_in_unit_range 512 H) as (A & B & _ & _ & _ & M).
  split; [exact A|]. split; [exact B|]. apply M. lia.
Defined.

Lemma rawForce_in_range_witness :
  0 <= 512 <= 1023
  /\ F32.leb F32.zero (rawForce_of 512) = true
  /\ F32.leb (rawForce_of 512) (F32.of_int 200) = true
  /\ F32.ltb (rawForce_of 512) (rawForce_of (512 + 1)) = true.
Proof.
  assert (H : 0 <= 512 <= 1023) by lia.
  split; [exact H|].
  destruct (rawForce_in_range 512 H) as (A & B & _ & _ & _ & M & _).
  split; [exact A|]. split; [exact B|]. apply M. lia.
Defined.

(** The clock has rolled over between the stamp, 50 ms before 2^32, and
    the test, at 50 ms: 100 ms have passed and the tick is due. *)
Lemma tick_due_iff_elapsed_witness :
  let late := mkInput None 512 4294967246 4294967246 300 in
  exists g out,
    run [late] initial = Some (g, out)
    /\ lastSendTime g = 4294967246
    /\ 0 <= 100 < 2 ^ 32
    /\ to_ulong (millis_test (pass_at 50)) = to_ulong (lastSendTime g + 100)
    /\ tick_due (pass_at 50) g = true.
Proof.
  intros late.
  destruct (run [late] initial) as [[g out]|] eqn:E;
    [|vm_compute in E; discriminate].
  exists g, out. split; [reflexivity|].
  assert (T : lastSendTime g = 4294967246).
  { vm_compute in E. injection E as <- <-. reflexivity. }
  assert (D : 0 <= 100 < 2 ^ 32) by lia.
  assert (M : to_ulong (millis_test (pass_at 50))
              = to_ulong (lastSendTime g + 100))
    by (rewrite T; reflexivity).
  split; [exact T|]. split; [exact D|]. split; [exact M|].
  exact (proj1 (tick_due_iff_elapsed [late] g out (pass_at 50) 100 E D M)).
Defined.

Lemma output_is_whole_records_witness :
  exists g out,
    sketch nineteen_then_tick = Some (g, out)
    /\ out = println_str "Arduino is Ready" :: calls_of_records (records out).
Proof.
  destruct (sketch nineteen_then_tick) as [[g out]|] eqn:E;
    [|vm_compute in E; discriminate].
  exists g, out. split; [reflexivity|].
  exact (output_is_whole_records nineteen_then_tick g out E).
Defined.

Lemma records_count_due_ticks_witness :
  exists g out,
    run nineteen_then_tick initial = Some (g, out)
    /\ (List.length (records out) <= due_ticks nineteen_then_tick initial)%nat.
Proof.
  destruct (run nineteen_then_tick initial) as [[g out]|] eqn:E;
    [|vm_compute in E; discriminate].
  exists g, out. split; [reflexivity|].
  exact (proj1 (records_count_due_ticks nineteen_then_tick initial g out E)).
Defined.

Lemma noise_before_sync_is_skipped_witness :
  state initial = WAITING_FOR_AC
  /\ Forall (fun b => b <> xac) [x00; xca; xcd]
  /\ deliveries ([x00; xca; xcd] ++ example_frame_with x01) initial
     = deliveries (example_frame_with x01) initial.
Proof.
  assert (N : Forall (fun b => b <> xac) [x00; xca; xcd])
    by (repeat constructor; discriminate).
  split; [reflexivity|]. split; [exact N|].
  destruct (noise_before_sync_is_skipped initial [x00; xca; xcd]
              (example_frame_with x01) eq_refl N) as (_ & _ & _ & D).
  exact D.
Defined.

Lemma stray_sync_byte_loses_frame_witness :
  state initial = WAITING_FOR_AC
  /\ Forall (fun b => b <> xac) [x01; x00; x00; x27; x10; x01; xdc; xcd]
  /\ deliveries ([xac; xac; xca] ++ [x01; x00; x00; x27; x10; x01; xdc; xcd])
       initial = [].
Proof.
  assert (N : Forall (fun b => b <> xac)
                [x01; x00; x00; x27; x10; x01; xdc; xcd])
    by (repeat constructor; discriminate).
  split; [reflexivity|]. split; [exact N|].
  exact (proj1 (stray_sync_byte_loses_frame initial
                  [x01; x00; x00; x27; x10; x01; xdc; xcd] eq_refl N)).
Defined.

Lemma window_holds_last_20_witness :
  Z.of_nat (List.length fresh_window) = HISTORY_SIZE
  /\ 0 <= 0 < HISTORY_SIZE
  /\ List.length (repeat F32.one 20) = 20%nat
  /\ window_push_all ([F32.of_int 7] ++ repeat F32.one 20)
       (fresh_window, 0, F32.zero)
     = Some (repeat F32.one 20, 1, mean20 (repeat F32.one 20)).
Proof.
  assert (I : 0 <= 0 < HISTORY_SIZE) by (unfold HISTORY_SIZE; lia).
  split; [reflexivity|]. split; [exact I|]. split; [reflexivity|].
  exact (window_holds_last_20 fresh_window [F32.of_int 7]
           (repeat F32.one 20) 0 F32.zero eq_refl I eq_refl).
Defined.

Lemma gain_independent_of_measurements_witness :
  List.length [F32.of_int 100; F32.of_int 50] = List.length [F32.zero; F32.one]
  /\ kK (updates sketch_filter [F32.of_int 100; F32.of_int 50])
     = kK (updates (mkKalman (kQ sketch_filter) (kR sketch_filter)
                      (kP sketch_filter) (kK sketch_filter) (F32.of_int 7))
             [F32.zero; F32.one]).
Proof.
  split; [reflexivity|].
  destruct (gain_independent_of_measurements sketch_filter (F32.of_int 7)
              [F32.of_int 100; F32.of_int 50] [F32.zero; F32.one] eq_refl)
    as (_ & K & _).
  exact K.
Defined.

Lemma sketch_filter_settles_witness :
  (28 <= List.length (repeat (F32.of_int 100) 28))%nat
  /\ kK (updates sketch_filter (repeat (F32.of_int 100) 28)) = steady_K
  /\ kP (fst (update (updates sketch_filter (repeat (F32.of_int 100) 28))
                F32.one)) = steady_P.
Proof.
  assert (L : (28 <= List.length (repeat (F32.of_int 100) 28))%nat)
    by (rewrite repeat_length; lia).
  split; [exact L|].
  destruct (sketch_filter_settles (repeat (F32.of_int 100) 28) F32.one L)
    as (_ & K & P & _).
  split; [exact K | exact P].
Defined.

Lemma covariance_never_grows_witness :
  filter_ok sketch_filter = true
  /\ is_finite (F32.add (kP sketch_filter) (kQ sketch_filter)) = true
  /\ F32.leb (kP (fst (update sketch_filter F32.one)))
       (F32.add (kP sketch_filter) (kQ sketch_filter)) = true.
Proof.
  assert (Ok : filter_ok sketch_filter = true) by (vm_compute; reflexivity).
  assert (Fin : is_finite (F32.add (kP sketch_filter) (kQ sketch_filter)) = true)
    by (vm_compute; reflexivity).
  split; [exact Ok|]. split; [exact Fin|].
  exact (proj1 (covariance_never_grows sketch_filter F32.one Ok Fin)).
Defined.

Lemma nan_is_permanent_witness :
  (kx sketch_filter = S754_nan \/ S754_nan = S754_nan)
  /\ kx (updates sketch_filter [S754_nan; F32.one; F32.of_int 2]) = S754_nan.
Proof.
  assert (H : kx sketch_filter = S754_nan \/ S754_nan = S754_nan)
    by (right; reflexivity).
  split; [exact H|].
  exact (proj1 (nan_is_permanent sketch_filter S754_nan
                  [F32.one; F32.of_int 2] [] H)).
Defined.

Lemma mapFloat_empty_input_range_witness :
  is_finite (F32.of_int 3) = true
  /\ is_finite (mapFloat (F32.of_int 5) (F32.of_int 3) (F32.of_int 3)
                  F32.zero F32.one) = false.
Proof.
  assert (F : is_finite (F32.of_int 3) = true) by (vm_compute; reflexivity).
  split; [exact F|].
  exact (mapFloat_empty_input_range (F32.of_int 5) (F32.of_int 3)
           F32.zero F32.one F).
Defined.

Lemma force_channel_of_run_witness :
  exists g out,
    run nineteen_then_tick initial = Some (g, out)
    /\ forceKalman g
       = updates sketch_filter
           (map rawForce_of (map force_adc nineteen_then_tick)).
Proof.
  destruct (run nineteen_then_tick initial) as [[g out]|] eqn:E;
    [|vm_compute in E; discriminate].
  exists g, out. split; [reflexivity|].
  exact (proj2 (force_channel_of_run nineteen_then_tick initial g out E)).
Defined.

Lemma force_filter_settled_after_28_passes_witness :
  exists g out,
    sketch (repeat (pass_at 0) 28) = Some (g, out)
    /\ (28 <= List.length (repeat (pass_at 0) 28))%nat
    /\ kP (forceKalman g) = steady_P /\ kK (forceKalman g) = steady_K.
Proof.
  destruct (sketch (repeat (pass_at 0) 28)) as [[g out]|] eqn:E;
    [|vm_compute in E; discriminate].
  exists g, out. split; [reflexivity|].
  assert (L : (28 <= List.length (repeat (pass_at 0) 28))%nat)
    by (rewrite repeat_length; lia).
  split; [exact L|].
  exact (force_filter_settled_after_28_passes (repeat (pass_at 0) 28) g out E L).
Defined.

Lemma distance_side_of_run_witness :
  let ins := map (fun b => mkInput (Some b) 512 0 0 300)
                 (example_frame_with x01) in
  exists g out gf,
    run ins initial = Some (g, out)
    /\ feed (example_frame_with x01) initial = Some gf
    /\ distance_channel g = distance_channel gf
    /\ state g = state gf.
Proof.
  intros ins.
  destruct (run ins initial) as [[g out]|] eqn:E;
    [|vm_compute in E; discriminate].
  destruct (distance_side_of_run ins initial g out E)
    as (gf & F & D & S & _).
  exists g, out, gf. split; [reflexivity|]. split; [exact F|].
  split; [exact D | exact S].
Defined.

Lemma decoder_resyncs_witness :
  let g := set_decoder READING_PAYLOAD (repeat x00 8) 3 initial in
  well_formed g = true
  /\ (9 <= List.length (repeat xac 9))%nat
  /\ exists n g',
       (n <= 9)%nat
       /\ Z.of_nat n <= bytes_to_sync g
       /\ feed (firstn n (repeat xac 9)) g = Some g'
       /\ state g' = WAITING_FOR_AC.
Proof.
  intros g.
  assert (W : well_formed g = true) by reflexivity.
  assert (L : (9 <= List.length (repeat xac 9))%nat)
    by (rewrite repeat_length; lia).
  split; [exact W|]. split; [exact L|].
  destruct (decoder_resyncs g (repeat xac 9) W L)
    as (n & g' & N & B & F & S & _).
  exists n, g'. auto.
Defined.
